(** * ThreadSafeQueue: the bounded ring-buffer queue of LockFreeQueue.h

    The repository holds three revisions of one class template
    [LockFreeQueue<QueueItemT, bufferSize>]:

    - [BusyQueue]: src/include/LockFreeQueue.h, first revision.  One
      [_isBusy] flag per slot, one counter [_pendingData], [bool push] that
      gives up when the ring is full, and a back-off that wraps to its start.
    - [ActionsQueue]: src/include/LockFreeQueue.h, second revision.  Same slot
      protocol, two counters ([_pendingActions], [_pendingData]), the
      exclusion flag taken by spinning, a saturating back-off.
    - [HasDataQueue]: src/LockFreeQueue.h.  One [_hasData] flag per slot set
      at commit, [void push] that retries until it has a slot, assertions on
      the counters in [pop].

    Every access to a [std::atomic] member is one step of the thread that
    performs it; the threads of a process interleave their steps on one shared
    queue value (sequentially consistent interleaving: the memory orders the
    source passes to its atomics are not modelled).  A call driven by a single
    caller is the same step function iterated on one thread. *)

From stdpp Require Import base numbers list.

Local Open Scope Z_scope.

(** ** Machine arithmetic and checked array access *)

(** [size_t] is an unsigned 64-bit integer: arithmetic wraps modulo 2^64. *)
Definition wrap_size (x : Z) : Z := x `mod` 2 ^ 64.

(** [std::atomic<long long>::fetch_add] wraps in two's complement. *)
Definition wrap_ll (x : Z) : Z := (x + 2 ^ 63) `mod` 2 ^ 64 - 2 ^ 63.

(** [a % n] on [size_t]; [n = 0] is undefined behaviour. *)
Definition umod (a n : Z) : option Z :=
  if decide (n = 0) then None else Some (a `mod` n).

(** [std::array::at]: [None] stands for the [std::out_of_range] it throws. *)
Definition at_ {A : Type} (a : list A) (i : Z) : option A :=
  if decide (0 ≤ i) then a !! Z.to_nat i else None.

(** [a.at(i) = v], or [a.at(i).store(v)] on an array of atomics. *)
Definition store_at {A : Type} (a : list A) (i : Z) (v : A) : option (list A) :=
  match at_ a i with
  | Some _ => Some (<[Z.to_nat i := v]> a)
  | None => None
  end.

Global Arguments wrap_size : simpl never.
Global Arguments wrap_ll : simpl never.
Global Arguments umod : simpl never.
Global Arguments at_ : simpl never.
Global Arguments store_at : simpl never.

(** Iterating a step function of a thread over a shared state. *)
Section Machine.
Context {Shared Thread : Type}.
Variable step : Shared → Thread → Shared * Thread.
Variable finished : Thread → bool.

(** [steps n]: exactly [n] steps. *)
Fixpoint steps (n : nat) (q : Shared) (t : Thread) : Shared * Thread :=
  match n with
  | O => (q, t)
  | S n' => let '(q', t') := step q t in steps n' q' t'
  end.

(** [run fuel]: steps until the thread has finished, at most [fuel] of them. *)
Fixpoint run (fuel : nat) (q : Shared) (t : Thread) : Shared * Thread :=
  match fuel with
  | O => (q, t)
  | S fuel' =>
      if finished t then (q, t)
      else let '(q', t') := step q t in run fuel' q' t'
  end.
End Machine.

(** ** src/include/LockFreeQueue.h, first revision *)
Module BusyQueue.

(** Member initialisers, lines 209-216 (nanoseconds). *)
Definition sleepDurationStart : Z := -10.
Definition sleepDurationStep : Z := 1.
Definition _maxSleepDuration : Z := 1.

(** [backOff], lines 186-200.  The yield and the sleep touch no queue state;
    the function is its returned duration. *)
Definition backOff (sleepDuration : Z) : Z :=
  if decide (sleepDuration < sleepDurationStep) then
    sleepDuration + sleepDurationStep
  else if decide (sleepDuration < _maxSleepDuration) then
    sleepDuration + sleepDurationStep
  else sleepDurationStart.

(** Program points of [push] (lines 36-95) and [pop] (lines 114-166): one per
    access to an atomic member or to [_buffer]. *)
Inductive label : Type :=
| PushBegin                (* 43: _pendingData.fetch_add(2) *)
| PushAcquire              (* 50: _canUpdate.exchange(false) *)
| PushNewTail              (* 52: newTail = (_tail.load() + 1) % bufferSize *)
| PushCheckFull            (* 54: newTail != _head.load() *)
| PushLoadSlot             (* 56: the _tail.load() inside at(...) *)
| PushExchange (i : Z)     (* 56-57: _isBusy.at(i).exchange(true) *)
| PushClaim                (* 59: pushIndex = _tail.load() *)
| PushStoreTail            (* 60-62: _tail.store(newTail); keepTrying = false *)
| PushRelease              (* 69: _canUpdate.store(true) *)
| PushRetry                (* 73-78: backOff, loop test, pushIndex.has_value() *)
| PushWrite                (* 80: _buffer.at( *pushIndex) = bufferItem *)
| PushCommit               (* 82: _pendingData.fetch_sub(1) *)
| PushFree                 (* 87-89: _isBusy.at( *pushIndex).store(false) *)
| PushAbort                (* 92-94: _pendingData.fetch_sub(2) *)
| PopAcquire               (* 122: _canUpdate.exchange(false) *)
| PopLoadHead              (* 124: _head.load() *)
| PopCheckEmpty (h : Z)    (* 124-125: h != _tail.load() *)
| PopLoadSlot              (* 127: the _head.load() inside at(...) *)
| PopExchange (i : Z)      (* 127-128: _isBusy.at(i).exchange(true) *)
| PopClaim                 (* 132: popIndex = _head.load() *)
| PopNewHead               (* 134: (_head.load() + 1) % bufferSize *)
| PopStoreHead (h : Z)     (* 134-137: _head.store(h); keepTrying = false *)
| PopRelease               (* 144: _canUpdate.store(true) *)
| PopRetry                 (* 148-153: backOff, loop test, popIndex.has_value() *)
| PopRead                  (* 155: popedData = _buffer.at( *popIndex) *)
| PopCommit                (* 157: _pendingData.fetch_sub(1) *)
| PopFree                  (* 160-162: _isBusy.at( *popIndex).store(false) *)
| Returned (b : bool)      (* return b *)
| Threw                    (* std::out_of_range left the call *)
| Undefined.               (* % 0, or * on an empty optional *)

Section Model.
Context {QueueItemT : Type}.
(** The template argument, and the value-initialised item [QueueItemT{}]. *)
Variable bufferSize : Z.
Variable value_init : QueueItemT.

(** Data members, lines 202-207. *)
Record queue : Type := Queue {
  _buffer : list QueueItemT;
  _isBusy : list bool;
  _head : Z;
  _tail : Z;
  _pendingData : Z;
  _canUpdate : bool }.

(** A call in progress: its program point, its argument and its locals. *)
Record thread : Type := Thread {
  pc : label;
  bufferItem : QueueItemT;
  popedData : QueueItemT;
  newTail : Z;
  keepTrying : bool;
  sleepDuration : Z;
  pushIndex : option Z;
  popIndex : option Z }.

Definition set_buffer (b : list QueueItemT) (q : queue) : queue :=
  Queue b (_isBusy q) (_head q) (_tail q) (_pendingData q) (_canUpdate q).
Definition set_isBusy (b : list bool) (q : queue) : queue :=
  Queue (_buffer q) b (_head q) (_tail q) (_pendingData q) (_canUpdate q).
Definition set_head (h : Z) (q : queue) : queue :=
  Queue (_buffer q) (_isBusy q) h (_tail q) (_pendingData q) (_canUpdate q).
Definition set_tail (t : Z) (q : queue) : queue :=
  Queue (_buffer q) (_isBusy q) (_head q) t (_pendingData q) (_canUpdate q).
Definition set_pendingData (p : Z) (q : queue) : queue :=
  Queue (_buffer q) (_isBusy q) (_head q) (_tail q) p (_canUpdate q).
Definition set_canUpdate (c : bool) (q : queue) : queue :=
  Queue (_buffer q) (_isBusy q) (_head q) (_tail q) (_pendingData q) c.

Definition goto (l : label) (t : thread) : thread :=
  Thread l (bufferItem t) (popedData t) (newTail t) (keepTrying t)
    (sleepDuration t) (pushIndex t) (popIndex t).
Definition set_popedData (v : QueueItemT) (t : thread) : thread :=
  Thread (pc t) (bufferItem t) v (newTail t) (keepTrying t)
    (sleepDuration t) (pushIndex t) (popIndex t).
Definition set_newTail (n : Z) (t : thread) : thread :=
  Thread (pc t) (bufferItem t) (popedData t) n (keepTrying t)
    (sleepDuration t) (pushIndex t) (popIndex t).
Definition set_keepTrying (k : bool) (t : thread) : thread :=
  Thread (pc t) (bufferItem t) (popedData t) (newTail t) k
    (sleepDuration t) (pushIndex t) (popIndex t).
Definition set_sleepDuration (d : Z) (t : thread) : thread :=
  Thread (pc t) (bufferItem t) (popedData t) (newTail t) (keepTrying t)
    d (pushIndex t) (popIndex t).
Definition set_pushIndex (i : option Z) (t : thread) : thread :=
  Thread (pc t) (bufferItem t) (popedData t) (newTail t) (keepTrying t)
    (sleepDuration t) i (popIndex t).
Definition set_popIndex (i : option Z) (t : thread) : thread :=
  Thread (pc t) (bufferItem t) (popedData t) (newTail t) (keepTrying t)
    (sleepDuration t) (pushIndex t) i.

(** The default-constructed queue. *)
Definition init : queue :=
  Queue (replicate (Z.to_nat bufferSize) value_init)
        (replicate (Z.to_nat bufferSize) false) 0 0 0 true.

(** Entry of [push(bufferItem)], lines 38-41, and of [pop(popedData)],
    lines 116-118: the locals as their initialisers leave them.  The locals of
    the other function are carried along at their default values. *)
Definition call_push (v : QueueItemT) : thread :=
  Thread PushBegin v value_init 0 true sleepDurationStart None None.
Definition call_pop (x : QueueItemT) : thread :=
  Thread PopAcquire value_init x 0 true sleepDurationStart None None.

(** One atomic access of a thread, with the local computation that follows
    it up to the next access. *)
Definition step (q : queue) (t : thread) : queue * thread :=
  match pc t with
  | PushBegin =>
      (set_pendingData (wrap_ll (_pendingData q + 2)) q, goto PushAcquire t)
  | PushAcquire =>
      if _canUpdate q then (set_canUpdate false q, goto PushNewTail t)
      else (q, goto PushRetry t)
  | PushNewTail =>
      match umod (wrap_size (_tail q + 1)) bufferSize with
      | Some n => (q, goto PushCheckFull (set_newTail n t))
      | None => (q, goto Undefined t)
      end
  | PushCheckFull =>
      if decide (newTail t ≠ _head q) then (q, goto PushLoadSlot t)
      else (q, goto PushRelease (set_keepTrying false t))
  | PushLoadSlot => (q, goto (PushExchange (_tail q)) t)
  | PushExchange i =>
      match at_ (_isBusy q) i with
      | Some old =>
          let q' := set_isBusy (<[Z.to_nat i := true]> (_isBusy q)) q in
          if old then (q', goto PushRelease t) else (q', goto PushClaim t)
      | None => (q, goto Threw t)
      end
  | PushClaim => (q, goto PushStoreTail (set_pushIndex (Some (_tail q)) t))
  | PushStoreTail =>
      (set_tail (newTail t) q, goto PushRelease (set_keepTrying false t))
  | PushRelease => (set_canUpdate true q, goto PushRetry t)
  | PushRetry =>
      if keepTrying t then
        (q, goto PushAcquire (set_sleepDuration (backOff (sleepDuration t)) t))
      else match pushIndex t with
           | Some _ => (q, goto PushWrite t)
           | None => (q, goto PushAbort t)
           end
  | PushWrite =>
      match pushIndex t with
      | Some i =>
          match store_at (_buffer q) i (bufferItem t) with
          | Some b => (set_buffer b q, goto PushCommit t)
          | None => (q, goto Threw t)
          end
      | None => (q, goto Undefined t)
      end
  | PushCommit =>
      (set_pendingData (wrap_ll (_pendingData q - 1)) q, goto PushFree t)
  | PushFree =>
      match pushIndex t with
      | Some i =>
          match store_at (_isBusy q) i false with
          | Some b => (set_isBusy b q, goto (Returned true) t)
          | None => (q, goto Threw t)
          end
      | None => (q, goto Undefined t)
      end
  | PushAbort =>
      (set_pendingData (wrap_ll (_pendingData q - 2)) q, goto (Returned false) t)
  | PopAcquire =>
      if _canUpdate q then (set_canUpdate false q, goto PopLoadHead t)
      else (q, goto PopRetry t)
  | PopLoadHead => (q, goto (PopCheckEmpty (_head q)) t)
  | PopCheckEmpty h =>
      if decide (h ≠ _tail q) then (q, goto PopLoadSlot t)
      else (q, goto PopRelease (set_keepTrying false t))
  | PopLoadSlot => (q, goto (PopExchange (_head q)) t)
  | PopExchange i =>
      match at_ (_isBusy q) i with
      | Some old =>
          let q' := set_isBusy (<[Z.to_nat i := true]> (_isBusy q)) q in
          if old then (q', goto PopRelease t) else (q', goto PopClaim t)
      | None => (q, goto Threw t)
      end
  | PopClaim => (q, goto PopNewHead (set_popIndex (Some (_head q)) t))
  | PopNewHead =>
      match umod (wrap_size (_head q + 1)) bufferSize with
      | Some h => (q, goto (PopStoreHead h) t)
      | None => (q, goto Undefined t)
      end
  | PopStoreHead h =>
      (set_head h q, goto PopRelease (set_keepTrying false t))
  | PopRelease => (set_canUpdate true q, goto PopRetry t)
  | PopRetry =>
      if keepTrying t then
        (q, goto PopAcquire (set_sleepDuration (backOff (sleepDuration t)) t))
      else match popIndex t with
           | Some _ => (q, goto PopRead t)
           | None => (q, goto (Returned false) t)
           end
  | PopRead =>
      match popIndex t with
      | Some i =>
          match at_ (_buffer q) i with
          | Some v => (q, goto PopCommit (set_popedData v t))
          | None => (q, goto Threw t)
          end
      | None => (q, goto Undefined t)
      end
  | PopCommit =>
      (set_pendingData (wrap_ll (_pendingData q - 1)) q, goto PopFree t)
  | PopFree =>
      match popIndex t with
      | Some i =>
          match store_at (_isBusy q) i false with
          | Some b => (set_isBusy b q, goto (Returned true) t)
          | None => (q, goto Threw t)
          end
      | None => (q, goto Undefined t)
      end
  | Returned _ | Threw | Undefined => (q, t)
  end.

(** The call has left the function: by [return] or by a failure. *)
Definition finished (t : thread) : bool :=
  match pc t with
  | Returned _ | Threw | Undefined => true
  | _ => false
  end.

(** What the caller received. *)
Definition result (t : thread) : option bool :=
  match pc t with
  | Returned b => Some b
  | _ => None
  end.

(** [push] and [pop] driven by one caller with no other thread running. *)
Definition push (fuel : nat) (q : queue) (v : QueueItemT) : queue * thread :=
  run step finished fuel q (call_push v).
Definition pop (fuel : nat) (q : queue) (x : QueueItemT) : queue * thread :=
  run step finished fuel q (call_pop x).

(** [hasData], lines 172-174. *)
Definition hasData (q : queue) : bool :=
  bool_decide (_pendingData q ≠ 0).

(** *** The critical section

    What a thread does between winning [_canUpdate] and giving it back:
    lines 52-67 of [push], entered at [PushNewTail], and lines 124-142 of
    [pop], entered at [PopLoadHead]. *)
Definition released (t : thread) : bool :=
  match pc t with
  | PushRelease | PopRelease => true
  | _ => finished t
  end.
Definition critical_section (q : queue) (t : thread) : queue * thread :=
  run step released 7 q t.

(** *** The ring *)

(** [newTail] as line 52 computes it. *)
Definition candidate_tail (q : queue) : Z :=
  wrap_size (_tail q + 1) `mod` bufferSize.
Definition full (q : queue) : Prop := candidate_tail q = _head q.
Definition empty (q : queue) : Prop := _head q = _tail q.

(** Slots claimed by a push and not yet claimed by a pop: from [_head] up to,
    not including, [_tail], around the ring. *)
Definition occupancy (q : queue) : Z := (_tail q - _head q) `mod` bufferSize.
(** The indices of those slots, oldest first: the walk from [_head] to
    [_tail] around the ring. *)
Definition ring_slots (q : queue) : list Z :=
  (λ k, (_head q + k) `mod` bufferSize) <$> seqZ 0 (occupancy q).

(** A slot of the ring holds a committed, unread value once its writer has
    cleared [_isBusy]: lines 124-128 of [pop] test this on the slot at
    [_head]. *)
Definition committed (q : queue) : Z :=
  Z.of_nat (length (filter (λ i, at_ (_isBusy q) i = Some false)
                           (ring_slots q))).

(** The stored items, oldest first. *)
Definition contents (q : queue) : list QueueItemT :=
  omap (at_ (_buffer q)) (ring_slots q).

(** The shape every queue object has: arrays of [bufferSize] elements,
    indices inside them, a counter that is a [long long]. *)
Record wf (q : queue) : Prop := Wf {
  wf_size : 0 < bufferSize < 2 ^ 63;
  wf_buffer : length (_buffer q) = Z.to_nat bufferSize;
  wf_isBusy : length (_isBusy q) = Z.to_nat bufferSize;
  wf_head : 0 ≤ _head q < bufferSize;
  wf_tail : 0 ≤ _tail q < bufferSize }.

(** *** Calls driven one after the other by a single caller *)
Inductive op : Type :=
| Push (v : QueueItemT)
| Pop.

(** What a call reported: [push]'s boolean, or [pop]'s boolean with the value
    it left in [popedData]. *)
Inductive outcome : Type :=
| Pushed (b : option bool)
| Popped (b : option bool) (v : QueueItemT).

Definition perform (fuel : nat) (q : queue) (o : op) : queue * outcome :=
  match o with
  | Push v => let '(q', t) := push fuel q v in (q', Pushed (result t))
  | Pop => let '(q', t) := pop fuel q value_init in
           (q', Popped (result t) (popedData t))
  end.

Fixpoint perform_all (fuel : nat) (q : queue) (os : list op)
  : queue * list outcome :=
  match os with
  | [] => (q, [])
  | o :: os' =>
      let '(q1, r) := perform fuel q o in
      let '(q2, rs) := perform_all fuel q1 os' in
      (q2, r :: rs)
  end.

(** The states a single caller sees between two of its calls: the exclusion
    flag is free, no slot is owned, and the counter is the occupancy. *)
Record idle (q : queue) : Prop := Idle {
  idle_wf : wf q;
  idle_canUpdate : _canUpdate q = true;
  idle_isBusy : ∀ i, 0 ≤ i < bufferSize → at_ (_isBusy q) i = Some false;
  idle_pendingData : _pendingData q = occupancy q }.

(** The same calls on the queue the specification describes: a first-in
    first-out store of at most [bufferSize - 1] items, where [push] reports
    [false] when it is full and [pop] reports [false] when it is empty. *)
Definition fifo_perform (l : list QueueItemT) (o : op)
  : list QueueItemT * outcome :=
  match o with
  | Push v =>
      if decide (Z.of_nat (length l) < bufferSize - 1)
      then (l ++ [v], Pushed (Some true))
      else (l, Pushed (Some false))
  | Pop =>
      match l with
      | [] => (l, Popped (Some false) value_init)
      | x :: l' => (l', Popped (Some true) x)
      end
  end.

Fixpoint fifo_perform_all (l : list QueueItemT) (os : list op)
  : list QueueItemT * list outcome :=
  match os with
  | [] => (l, [])
  | o :: os' =>
      let '(l1, r) := fifo_perform l o in
      let '(l2, rs) := fifo_perform_all l1 os' in
      (l2, r :: rs)
  end.

(** *** Threads interleaving on one queue

    A system is the shared queue and the calls made on it so far, finished or
    not.  Any thread may enter [push] or [pop] at any time, and any call in
    progress may take its next step. *)
Record system : Type := System {
  shared : queue;
  calls : list thread }.

Inductive sys_step : system → system → Prop :=
| sys_call_push s v :
    sys_step s (System (shared s) (calls s ++ [call_push v]))
| sys_call_pop s x :
    sys_step s (System (shared s) (calls s ++ [call_pop x]))
| sys_thread s i t :
    calls s !! i = Some t →
    sys_step s (System (step (shared s) t).1
                       (<[i := (step (shared s) t).2]> (calls s))).

Inductive reachable : system → Prop :=
| reachable_init : reachable (System init [])
| reachable_step s s' : reachable s → sys_step s s' → reachable s'.

(** No call is in progress. *)
Definition quiescent (s : system) : Prop :=
  Forall (λ t, finished t = true) (calls s).

(** *** Invariants of the reachable systems *)

Definition sumZ {A : Type} (f : A → Z) (l : list A) : Z :=
  foldr (λ a acc, f a + acc) 0 l.

(** The thread is between winning [_canUpdate] and giving it back. *)
Definition in_cs (t : thread) : Z :=
  match pc t with
  | PushNewTail | PushCheckFull | PushLoadSlot | PushExchange _ | PushClaim
  | PushStoreTail | PushRelease
  | PopLoadHead | PopCheckEmpty _ | PopLoadSlot | PopExchange _ | PopClaim
  | PopNewHead | PopStoreHead _ | PopRelease => 1
  | _ => 0
  end.

(** The slot whose [_isBusy] flag the call has set and not yet cleared. *)
Definition holds (q : queue) (t : thread) : option Z :=
  match pc t with
  | PushClaim => Some (_tail q)
  | PushStoreTail | PushRelease | PushRetry | PushWrite | PushCommit
  | PushFree => pushIndex t
  | PopClaim => Some (_head q)
  | PopNewHead | PopStoreHead _ | PopRelease | PopRetry | PopRead | PopCommit
  | PopFree => popIndex t
  | _ => None
  end.
Definition holding (q : queue) (i : Z) (t : thread) : Z :=
  if decide (holds q t = Some i) then 1 else 0.

(** By how much the call keeps [_pendingData] above the occupancy of the
    ring: a push adds 2 on entry, moves [_tail] and then takes 1 back (or
    takes the 2 back when it gives up); a pop moves [_head] and only then
    takes 1 off. *)
Definition surplus (t : thread) : Z :=
  match pc t with
  | PushAcquire | PushNewTail | PushCheckFull | PushLoadSlot | PushExchange _
  | PushClaim | PushStoreTail | PushAbort => 2
  | PushRelease | PushRetry =>
      match pushIndex t with Some _ => 1 | None => 2 end
  | PushWrite | PushCommit => 1
  | PopRelease | PopRetry =>
      match popIndex t with Some _ => 1 | None => 0 end
  | PopRead | PopCommit => 1
  | _ => 0
  end.

(** What a call knows about its own locals at each program point. *)
Definition local_ok (t : thread) : Prop :=
  match pc t with
  | PushBegin | PushAcquire | PushNewTail | PushCheckFull | PushLoadSlot
  | PushExchange _ | PushClaim =>
      keepTrying t = true ∧ pushIndex t = None
  | PushStoreTail => keepTrying t = true ∧ is_Some (pushIndex t)
  | PushRelease | PushRetry =>
      keepTrying t = true → pushIndex t = None
  | PushWrite | PushCommit | PushFree => is_Some (pushIndex t)
  | PushAbort => pushIndex t = None
  | PopAcquire | PopLoadHead | PopCheckEmpty _ | PopLoadSlot | PopExchange _
  | PopClaim =>
      keepTrying t = true ∧ popIndex t = None
  | PopNewHead | PopStoreHead _ => keepTrying t = true ∧ is_Some (popIndex t)
  | PopRelease | PopRetry =>
      keepTrying t = true → popIndex t = None
  | PopRead | PopCommit | PopFree => is_Some (popIndex t)
  | _ => True
  end.

(** What the thread inside the critical section knows about the indices. *)
Definition cs_ok (q : queue) (t : thread) : Prop :=
  match pc t with
  | PushCheckFull => newTail t = candidate_tail q
  | PushLoadSlot | PushClaim =>
      newTail t = candidate_tail q ∧ newTail t ≠ _head q
  | PushExchange i =>
      i = _tail q ∧ newTail t = candidate_tail q ∧ newTail t ≠ _head q
  | PushStoreTail =>
      newTail t = candidate_tail q ∧ newTail t ≠ _head q ∧
      pushIndex t = Some (_tail q)
  | PopCheckEmpty h => h = _head q
  | PopLoadSlot | PopClaim => _head q ≠ _tail q
  | PopExchange i => i = _head q ∧ _head q ≠ _tail q
  | PopNewHead => _head q ≠ _tail q ∧ popIndex t = Some (_head q)
  | PopStoreHead h =>
      h = wrap_size (_head q + 1) `mod` bufferSize ∧ _head q ≠ _tail q
  | _ => True
  end.

Record inv (q : queue) (l : list thread) : Prop := Inv {
  inv_wf : wf q;
  inv_local : Forall local_ok l;
  inv_cs : Forall (cs_ok q) l;
  inv_range : Forall (λ t, ∀ i, holds q t = Some i → 0 ≤ i < bufferSize) l;
  inv_mutex : sumZ in_cs l = if _canUpdate q then 0 else 1;
  inv_holders : ∀ i, 0 ≤ i < bufferSize →
      at_ (_isBusy q) i = Some (bool_decide (sumZ (holding q i) l = 1)) ∧
      0 ≤ sumZ (holding q i) l ≤ 1;
  inv_counter : _pendingData q = wrap_ll (occupancy q + sumZ surplus l) }.

End Model.
End BusyQueue.

(** ** src/include/LockFreeQueue.h, second revision *)
Module ActionsQueue.

(** Member initialisers, lines 419-420. *)
Definition sleepDurationStep : Z := 1.
Definition _maxSleepDuration : Z := 100.

(** [backOff], lines 400-410. *)
Definition backOff (sleepDuration : Z) : Z :=
  if decide (sleepDuration < _maxSleepDuration) then
    sleepDuration + sleepDurationStep
  else sleepDuration.

(** Program points of [push] (lines 252-309) and [pop] (lines 328-380). *)
Inductive label : Type :=
| PushBegin                (* 259: _pendingActions.fetch_add(2) *)
| PushBeginData            (* 262: _pendingData.fetch_add(1) *)
| PushAcquire              (* 266: while (!_canUpdate.exchange(false)) {} *)
| PushNewTail              (* 268: newTail = (_tail.load() + 1) % bufferSize *)
| PushCheckFull            (* 270: newTail != _head.load() *)
| PushLoadSlot             (* 272: the _tail.load() inside at(...) *)
| PushExchange (i : Z)     (* 272-273: _isBusy.at(i).exchange(true) *)
| PushClaim                (* 275: pushIndex = _tail.load() *)
| PushStoreTail            (* 276-278: _tail.store(newTail); keepTrying = false *)
| PushRelease              (* 285: _canUpdate.store(true) *)
| PushRetry                (* 288-293: backOff, loop test, pushIndex.has_value() *)
| PushWrite                (* 295: _buffer.at( *pushIndex) = bufferItem *)
| PushCommit               (* 297: _pendingActions.fetch_add(-1) *)
| PushFree                 (* 299-301: _isBusy.at( *pushIndex).store(false) *)
| PushAbort                (* 304: _pendingActions.fetch_add(-2) *)
| PushAbortData            (* 306-308: _pendingData.fetch_add(-1) *)
| PopAcquire               (* 336: while (!_canUpdate.exchange(false)) {} *)
| PopLoadHead              (* 338: _head.load() *)
| PopCheckEmpty (h : Z)    (* 338-339: h != _tail.load() *)
| PopLoadSlot              (* 341: the _head.load() inside at(...) *)
| PopExchange (i : Z)      (* 341-342: _isBusy.at(i).exchange(true) *)
| PopClaim                 (* 346: popIndex = _head.load() *)
| PopNewHead               (* 348: (_head.load() + 1) % bufferSize *)
| PopStoreHead (h : Z)     (* 348-351: _head.store(h); keepTrying = false *)
| PopRelease               (* 358: _canUpdate.store(true) *)
| PopRetry                 (* 361-366: backOff, loop test, popIndex.has_value() *)
| PopRead                  (* 368: popedData = _buffer.at( *popIndex) *)
| PopCountAction           (* 370: _pendingActions.fetch_add(-1) *)
| PopCountData             (* 372: _pendingData.fetch_add(-1) *)
| PopFree                  (* 374-376: _isBusy.at( *popIndex).store(false) *)
| Returned (b : bool)      (* return b *)
| Threw                    (* std::out_of_range left the call *)
| Undefined.               (* % 0, or * on an empty optional *)

Section Model.
Context {QueueItemT : Type}.
Variable bufferSize : Z.
Variable value_init : QueueItemT.

(** Data members, lines 412-418.  Both counters are
    [std::atomic<long long>]. *)
Record queue : Type := Queue {
  _buffer : list QueueItemT;
  _isBusy : list bool;
  _head : Z;
  _tail : Z;
  _pendingActions : Z;
  _pendingData : Z;
  _canUpdate : bool }.

Record thread : Type := Thread {
  pc : label;
  bufferItem : QueueItemT;
  popedData : QueueItemT;
  newTail : Z;
  keepTrying : bool;
  sleepDuration : Z;
  pushIndex : option Z;
  popIndex : option Z }.

Definition set_buffer (b : list QueueItemT) (q : queue) : queue :=
  Queue b (_isBusy q) (_head q) (_tail q) (_pendingActions q)
    (_pendingData q) (_canUpdate q).
Definition set_isBusy (b : list bool) (q : queue) : queue :=
  Queue (_buffer q) b (_head q) (_tail q) (_pendingActions q)
    (_pendingData q) (_canUpdate q).
Definition set_head (h : Z) (q : queue) : queue :=
  Queue (_buffer q) (_isBusy q) h (_tail q) (_pendingActions q)
    (_pendingData q) (_canUpdate q).
Definition set_tail (t : Z) (q : queue) : queue :=
  Queue (_buffer q) (_isBusy q) (_head q) t (_pendingActions q)
    (_pendingData q) (_canUpdate q).
Definition set_pendingActions (p : Z) (q : queue) : queue :=
  Queue (_buffer q) (_isBusy q) (_head q) (_tail q) p
    (_pendingData q) (_canUpdate q).
Definition set_pendingData (p : Z) (q : queue) : queue :=
  Queue (_buffer q) (_isBusy q) (_head q) (_tail q) (_pendingActions q)
    p (_canUpdate q).
Definition set_canUpdate (c : bool) (q : queue) : queue :=
  Queue (_buffer q) (_isBusy q) (_head q) (_tail q) (_pendingActions q)
    (_pendingData q) c.

Definition goto (l : label) (t : thread) : thread :=
  Thread l (bufferItem t) (popedData t) (newTail t) (keepTrying t)
    (sleepDuration t) (pushIndex t) (popIndex t).
Definition set_popedData (v : QueueItemT) (t : thread) : thread :=
  Thread (pc t) (bufferItem t) v (newTail t) (keepTrying t)
    (sleepDuration t) (pushIndex t) (popIndex t).
Definition set_newTail (n : Z) (t : thread) : thread :=
  Thread (pc t) (bufferItem t) (popedData t) n (keepTrying t)
    (sleepDuration t) (pushIndex t) (popIndex t).
Definition set_keepTrying (k : bool) (t : thread) : thread :=
  Thread (pc t) (bufferItem t) (popedData t) (newTail t) k
    (sleepDuration t) (pushIndex t) (popIndex t).
Definition set_sleepDuration (d : Z) (t : thread) : thread :=
  Thread (pc t) (bufferItem t) (popedData t) (newTail t) (keepTrying t)
    d (pushIndex t) (popIndex t).
Definition set_pushIndex (i : option Z) (t : thread) : thread :=
  Thread (pc t) (bufferItem t) (popedData t) (newTail t) (keepTrying t)
    (sleepDuration t) i (popIndex t).
Definition set_popIndex (i : option Z) (t : thread) : thread :=
  Thread (pc t) (bufferItem t) (popedData t) (newTail t) (keepTrying t)
    (sleepDuration t) (pushIndex t) i.

Definition init : queue :=
  Queue (replicate (Z.to_nat bufferSize) value_init)
        (replicate (Z.to_nat bufferSize) false) 0 0 0 0 true.

(** Entry of [push], lines 254-257, and of [pop], lines 330-332. *)
Definition call_push (v : QueueItemT) : thread :=
  Thread PushBegin v value_init 0 true 0 None None.
Definition call_pop (x : QueueItemT) : thread :=
  Thread PopAcquire value_init x 0 true 0 None None.

Definition step (q : queue) (t : thread) : queue * thread :=
  match pc t with
  | PushBegin =>
      (set_pendingActions (wrap_ll (_pendingActions q + 2)) q,
       goto PushBeginData t)
  | PushBeginData =>
      (set_pendingData (wrap_ll (_pendingData q + 1)) q, goto PushAcquire t)
  | PushAcquire =>
      if _canUpdate q then (set_canUpdate false q, goto PushNewTail t)
      else (q, t)
  | PushNewTail =>
      match umod (wrap_size (_tail q + 1)) bufferSize with
      | Some n => (q, goto PushCheckFull (set_newTail n t))
      | None => (q, goto Undefined t)
      end
  | PushCheckFull =>
      if decide (newTail t ≠ _head q) then (q, goto PushLoadSlot t)
      else (q, goto PushRelease (set_keepTrying false t))
  | PushLoadSlot => (q, goto (PushExchange (_tail q)) t)
  | PushExchange i =>
      match at_ (_isBusy q) i with
      | Some old =>
          let q' := set_isBusy (<[Z.to_nat i := true]> (_isBusy q)) q in
          if old then (q', goto PushRelease t) else (q', goto PushClaim t)
      | None => (q, goto Threw t)
      end
  | PushClaim => (q, goto PushStoreTail (set_pushIndex (Some (_tail q)) t))
  | PushStoreTail =>
      (set_tail (newTail t) q, goto PushRelease (set_keepTrying false t))
  | PushRelease => (set_canUpdate true q, goto PushRetry t)
  | PushRetry =>
      if keepTrying t then
        (q, goto PushAcquire (set_sleepDuration (backOff (sleepDuration t)) t))
      else match pushIndex t with
           | Some _ => (q, goto PushWrite t)
           | None => (q, goto PushAbort t)
           end
  | PushWrite =>
      match pushIndex t with
      | Some i =>
          match store_at (_buffer q) i (bufferItem t) with
          | Some b => (set_buffer b q, goto PushCommit t)
          | None => (q, goto Threw t)
          end
      | None => (q, goto Undefined t)
      end
  | PushCommit =>
      (set_pendingActions (wrap_ll (_pendingActions q + -1)) q,
       goto PushFree t)
  | PushFree =>
      match pushIndex t with
      | Some i =>
          match store_at (_isBusy q) i false with
          | Some b => (set_isBusy b q, goto (Returned true) t)
          | None => (q, goto Threw t)
          end
      | None => (q, goto Undefined t)
      end
  | PushAbort =>
      (set_pendingActions (wrap_ll (_pendingActions q + -2)) q,
       goto PushAbortData t)
  | PushAbortData =>
      (set_pendingData (wrap_ll (_pendingData q + -1)) q,
       goto (Returned false) t)
  | PopAcquire =>
      if _canUpdate q then (set_canUpdate false q, goto PopLoadHead t)
      else (q, t)
  | PopLoadHead => (q, goto (PopCheckEmpty (_head q)) t)
  | PopCheckEmpty h =>
      if decide (h ≠ _tail q) then (q, goto PopLoadSlot t)
      else (q, goto PopRelease (set_keepTrying false t))
  | PopLoadSlot => (q, goto (PopExchange (_head q)) t)
  | PopExchange i =>
      match at_ (_isBusy q) i with
      | Some old =>
          let q' := set_isBusy (<[Z.to_nat i := true]> (_isBusy q)) q in
          if old then (q', goto PopRelease t) else (q', goto PopClaim t)
      | None => (q, goto Threw t)
      end
  | PopClaim => (q, goto PopNewHead (set_popIndex (Some (_head q)) t))
  | PopNewHead =>
      match umod (wrap_size (_head q + 1)) bufferSize with
      | Some h => (q, goto (PopStoreHead h) t)
      | None => (q, goto Undefined t)
      end
  | PopStoreHead h =>
      (set_head h q, goto PopRelease (set_keepTrying false t))
  | PopRelease => (set_canUpdate true q, goto PopRetry t)
  | PopRetry =>
      if keepTrying t then
        (q, goto PopAcquire (set_sleepDuration (backOff (sleepDuration t)) t))
      else match popIndex t with
           | Some _ => (q, goto PopRead t)
           | None => (q, goto (Returned false) t)
           end
  | PopRead =>
      match popIndex t with
      | Some i =>
          match at_ (_buffer q) i with
          | Some v => (q, goto PopCountAction (set_popedData v t))
          | None => (q, goto Threw t)
          end
      | None => (q, goto Undefined t)
      end
  | PopCountAction =>
      (set_pendingActions (wrap_ll (_pendingActions q + -1)) q,
       goto PopCountData t)
  | PopCountData =>
      (set_pendingData (wrap_ll (_pendingData q + -1)) q, goto PopFree t)
  | PopFree =>
      match popIndex t with
      | Some i =>
          match store_at (_isBusy q) i false with
          | Some b => (set_isBusy b q, goto (Returned true) t)
          | None => (q, goto Threw t)
          end
      | None => (q, goto Undefined t)
      end
  | Returned _ | Threw | Undefined => (q, t)
  end.

Definition finished (t : thread) : bool :=
  match pc t with
  | Returned _ | Threw | Undefined => true
  | _ => false
  end.

Definition result (t : thread) : option bool :=
  match pc t with
  | Returned b => Some b
  | _ => None
  end.

Definition push (fuel : nat) (q : queue) (v : QueueItemT) : queue * thread :=
  run step finished fuel q (call_push v).
Definition pop (fuel : nat) (q : queue) (x : QueueItemT) : queue * thread :=
  run step finished fuel q (call_pop x).

(** [hasData] and [hasWork], lines 382-388. *)
Definition hasData (q : queue) : bool := bool_decide (_pendingData q ≠ 0).
Definition hasWork (q : queue) : bool := bool_decide (_pendingActions q ≠ 0).

(** *** The ring *)

(** [newTail] as line 268 computes it. *)
Definition candidate_tail (q : queue) : Z :=
  wrap_size (_tail q + 1) `mod` bufferSize.
Definition full (q : queue) : Prop := candidate_tail q = _head q.
Definition empty (q : queue) : Prop := _head q = _tail q.

Definition occupancy (q : queue) : Z := (_tail q - _head q) `mod` bufferSize.
Definition ring_slots (q : queue) : list Z :=
  (λ k, (_head q + k) `mod` bufferSize) <$> seqZ 0 (occupancy q).

(** The stored items, oldest first. *)
Definition contents (q : queue) : list QueueItemT :=
  omap (at_ (_buffer q)) (ring_slots q).

(** The shape every queue object has. *)
Record wf (q : queue) : Prop := Wf {
  wf_size : 0 < bufferSize < 2 ^ 63;
  wf_buffer : length (_buffer q) = Z.to_nat bufferSize;
  wf_isBusy : length (_isBusy q) = Z.to_nat bufferSize;
  wf_head : 0 ≤ _head q < bufferSize;
  wf_tail : 0 ≤ _tail q < bufferSize }.

(** The states a single caller sees between two of its calls: the exclusion
    flag is free, no slot is owned, and both counters are the occupancy. *)
Record idle (q : queue) : Prop := Idle {
  idle_wf : wf q;
  idle_canUpdate : _canUpdate q = true;
  idle_isBusy : ∀ i, 0 ≤ i < bufferSize → at_ (_isBusy q) i = Some false;
  idle_pendingActions : _pendingActions q = occupancy q;
  idle_pendingData : _pendingData q = occupancy q }.

(** *** Calls driven one after the other by a single caller

    The calls and what they report are those of the first revision
    ([BusyQueue.op], [BusyQueue.outcome]): the two revisions have the same
    interface. *)
Definition perform (fuel : nat) (q : queue)
    (o : BusyQueue.op (QueueItemT := QueueItemT))
  : queue * BusyQueue.outcome :=
  match o with
  | BusyQueue.Push v =>
      let '(q', t) := push fuel q v in (q', BusyQueue.Pushed (result t))
  | BusyQueue.Pop =>
      let '(q', t) := pop fuel q value_init in
      (q', BusyQueue.Popped (result t) (popedData t))
  end.

Fixpoint perform_all (fuel : nat) (q : queue) (os : list BusyQueue.op)
  : queue * list BusyQueue.outcome :=
  match os with
  | [] => (q, [])
  | o :: os' =>
      let '(q1, r) := perform fuel q o in
      let '(q2, rs) := perform_all fuel q1 os' in
      (q2, r :: rs)
  end.

(** *** Threads interleaving on one queue *)
Record system : Type := System {
  shared : queue;
  calls : list thread }.

Inductive sys_step : system → system → Prop :=
| sys_call_push s v :
    sys_step s (System (shared s) (calls s ++ [call_push v]))
| sys_call_pop s x :
    sys_step s (System (shared s) (calls s ++ [call_pop x]))
| sys_thread s i t :
    calls s !! i = Some t →
    sys_step s (System (step (shared s) t).1
                       (<[i := (step (shared s) t).2]> (calls s))).

Inductive reachable : system → Prop :=
| reachable_init : reachable (System init [])
| reachable_step s s' : reachable s → sys_step s s' → reachable s'.

(** No call is in progress. *)
Definition quiescent (s : system) : Prop :=
  Forall (λ t, finished t = true) (calls s).

(** The thread is between winning [_canUpdate] and giving it back. *)
Definition in_cs (t : thread) : Z :=
  match pc t with
  | PushNewTail | PushCheckFull | PushLoadSlot | PushExchange _ | PushClaim
  | PushStoreTail | PushRelease
  | PopLoadHead | PopCheckEmpty _ | PopLoadSlot | PopExchange _ | PopClaim
  | PopNewHead | PopStoreHead _ | PopRelease => 1
  | _ => 0
  end.

(** *** The second revision seen from the first

    The first revision keeps in [_pendingData] what this one keeps in
    [_pendingActions], and has no second counter.  Lines 262, 306-308 and
    372, which only write the second counter, are taken with the program
    point that follows them. *)
Definition first_label (l : label) : BusyQueue.label :=
  match l with
  | PushBegin => BusyQueue.PushBegin
  | PushBeginData | PushAcquire => BusyQueue.PushAcquire
  | PushNewTail => BusyQueue.PushNewTail
  | PushCheckFull => BusyQueue.PushCheckFull
  | PushLoadSlot => BusyQueue.PushLoadSlot
  | PushExchange i => BusyQueue.PushExchange i
  | PushClaim => BusyQueue.PushClaim
  | PushStoreTail => BusyQueue.PushStoreTail
  | PushRelease => BusyQueue.PushRelease
  | PushRetry => BusyQueue.PushRetry
  | PushWrite => BusyQueue.PushWrite
  | PushCommit => BusyQueue.PushCommit
  | PushFree => BusyQueue.PushFree
  | PushAbort => BusyQueue.PushAbort
  | PushAbortData => BusyQueue.Returned false
  | PopAcquire => BusyQueue.PopAcquire
  | PopLoadHead => BusyQueue.PopLoadHead
  | PopCheckEmpty h => BusyQueue.PopCheckEmpty h
  | PopLoadSlot => BusyQueue.PopLoadSlot
  | PopExchange i => BusyQueue.PopExchange i
  | PopClaim => BusyQueue.PopClaim
  | PopNewHead => BusyQueue.PopNewHead
  | PopStoreHead h => BusyQueue.PopStoreHead h
  | PopRelease => BusyQueue.PopRelease
  | PopRetry => BusyQueue.PopRetry
  | PopRead => BusyQueue.PopRead
  | PopCountAction => BusyQueue.PopCommit
  | PopCountData | PopFree => BusyQueue.PopFree
  | Returned b => BusyQueue.Returned b
  | Threw => BusyQueue.Threw
  | Undefined => BusyQueue.Undefined
  end.

Definition first_queue (q : queue)
  : BusyQueue.queue (QueueItemT := QueueItemT) :=
  BusyQueue.Queue (_buffer q) (_isBusy q) (_head q) (_tail q)
    (_pendingActions q) (_canUpdate q).

(** A call of this revision and a call of the first at the same point with
    the same locals.  The sleep durations are left out: the two revisions
    wait differently, and the wait touches no queue state. *)
Record same_call (t : thread)
    (u : BusyQueue.thread (QueueItemT := QueueItemT)) : Prop := SameCall {
  same_pc : BusyQueue.pc u = first_label (pc t);
  same_bufferItem : BusyQueue.bufferItem u = bufferItem t;
  same_popedData : BusyQueue.popedData u = popedData t;
  same_newTail : BusyQueue.newTail u = newTail t;
  same_keepTrying : BusyQueue.keepTrying u = keepTrying t;
  same_pushIndex : BusyQueue.pushIndex u = pushIndex t;
  same_popIndex : BusyQueue.popIndex u = popIndex t }.

(** By how much the call keeps [_pendingData] above the occupancy of the
    ring: a [push] counts its item on entry (line 262), before it moves
    [_tail], and takes it back when it gives up (lines 306-308); a [pop]
    moves [_head] and only later takes the item off (line 372). *)
Definition surplus_data (t : thread) : Z :=
  match pc t with
  | PushAcquire | PushNewTail | PushCheckFull | PushLoadSlot | PushExchange _
  | PushClaim | PushStoreTail | PushAbort | PushAbortData => 1
  | PushRelease | PushRetry =>
      match pushIndex t with Some _ => 0 | None => 1 end
  | PopRelease | PopRetry =>
      match popIndex t with Some _ => 1 | None => 0 end
  | PopRead | PopCountAction | PopCountData => 1
  | _ => 0
  end.

End Model.
End ActionsQueue.

(** ** src/LockFreeQueue.h *)
Module HasDataQueue.

(** Member initialisers, lines 141-142. *)
Definition sleepDurationStep : Z := 1.
Definition _maxSleepDuration : Z := 100.

(** [backOff], lines 123-132. *)
Definition backOff (sleepDuration : Z) : Z :=
  if decide (sleepDuration < _maxSleepDuration) then
    sleepDuration + sleepDurationStep
  else sleepDuration.

(** Program points of [push] (lines 20-59) and [pop] (lines 61-112). *)
Inductive label : Type :=
| PushBegin                (* 27: _pendingActions.fetch_add(2) *)
| PushAcquire              (* 31: while (!_canUpdate.exchange(false)) {} *)
| PushNewTail              (* 33: newTail = (_tail.load() + 1) % bufferSize *)
| PushCheckFull            (* 35: newTail != _head.load() && ... *)
| PushLoadSlot             (* 36: the _tail.load() inside at(...) *)
| PushHasData (i : Z)      (* 36-37: !_hasData.at(i).load() *)
| PushClaim                (* 39: pushIndex = _tail.load() *)
| PushStoreTail            (* 40-41: _tail.store(newTail); keepTrying = false *)
| PushRelease              (* 44: _canUpdate.store(true) *)
| PushRetry                (* 47-50: backOff, loop test *)
| PushWrite                (* 52: _buffer.at(pushIndex) = bufferItem *)
| PushCountData            (* 54: _pendingData.fetch_add(1) *)
| PushCountAction          (* 56: _pendingActions.fetch_add(-1) *)
| PushCommit               (* 58: _hasData.at(pushIndex).store(true) *)
| PopAcquire               (* 68: while (!_canUpdate.exchange(false)) {} *)
| PopLoadHead              (* 70: _head.load() *)
| PopCheckEmpty (h : Z)    (* 70-71: h != _tail.load() *)
| PopLoadSlot              (* 73: the _head.load() inside at(...) *)
| PopHasData (i : Z)       (* 73-74: _hasData.at(i).load() *)
| PopClaim                 (* 77: popIndex = _head.load() *)
| PopNewHead               (* 79: (_head.load() + 1) % bufferSize *)
| PopStoreHead (h : Z)     (* 79-82: _head.store(h); keepTrying = false *)
| PopRelease               (* 89: _canUpdate.store(true) *)
| PopRetry                 (* 92-97: backOff, loop test, popIndex.has_value() *)
| PopRead                  (* 99: popedData = _buffer.at( *popIndex) *)
| PopClear                 (* 100: _hasData.at( *popIndex).store(false) *)
| PopAssertData            (* 102: assert(_pendingData.load() > 0) *)
| PopCountData             (* 103: _pendingData.fetch_add(-1) *)
| PopAssertAction          (* 105: assert(_pendingActions.load() > 0) *)
| PopCountAction           (* 106: _pendingActions.fetch_add(-1) *)
| ReturnedVoid             (* end of push *)
| Returned (b : bool)      (* return b, in pop *)
| AssertFailed             (* an assert aborted the process *)
| Threw                    (* std::out_of_range left the call *)
| Undefined.               (* % 0, or * on an empty optional *)

Section Model.
Context {QueueItemT : Type}.
Variable bufferSize : Z.
Variable value_init : QueueItemT.

(** Data members, lines 134-140.  Both counters are [std::atomic<size_t>]. *)
Record queue : Type := Queue {
  _buffer : list QueueItemT;
  _hasData : list bool;
  _head : Z;
  _tail : Z;
  _pendingActions : Z;
  _pendingData : Z;
  _canUpdate : bool }.

(** [pushIndex] is a plain [size_t] here, [popIndex] an optional. *)
Record thread : Type := Thread {
  pc : label;
  bufferItem : QueueItemT;
  popedData : QueueItemT;
  newTail : Z;
  keepTrying : bool;
  sleepDuration : Z;
  pushIndex : Z;
  popIndex : option Z }.

Definition set_buffer (b : list QueueItemT) (q : queue) : queue :=
  Queue b (_hasData q) (_head q) (_tail q) (_pendingActions q)
    (_pendingData q) (_canUpdate q).
Definition set_hasData (b : list bool) (q : queue) : queue :=
  Queue (_buffer q) b (_head q) (_tail q) (_pendingActions q)
    (_pendingData q) (_canUpdate q).
Definition set_head (h : Z) (q : queue) : queue :=
  Queue (_buffer q) (_hasData q) h (_tail q) (_pendingActions q)
    (_pendingData q) (_canUpdate q).
Definition set_tail (t : Z) (q : queue) : queue :=
  Queue (_buffer q) (_hasData q) (_head q) t (_pendingActions q)
    (_pendingData q) (_canUpdate q).
Definition set_pendingActions (p : Z) (q : queue) : queue :=
  Queue (_buffer q) (_hasData q) (_head q) (_tail q) p
    (_pendingData q) (_canUpdate q).
Definition set_pendingData (p : Z) (q : queue) : queue :=
  Queue (_buffer q) (_hasData q) (_head q) (_tail q) (_pendingActions q)
    p (_canUpdate q).
Definition set_canUpdate (c : bool) (q : queue) : queue :=
  Queue (_buffer q) (_hasData q) (_head q) (_tail q) (_pendingActions q)
    (_pendingData q) c.

Definition goto (l : label) (t : thread) : thread :=
  Thread l (bufferItem t) (popedData t) (newTail t) (keepTrying t)
    (sleepDuration t) (pushIndex t) (popIndex t).
Definition set_popedData (v : QueueItemT) (t : thread) : thread :=
  Thread (pc t) (bufferItem t) v (newTail t) (keepTrying t)
    (sleepDuration t) (pushIndex t) (popIndex t).
Definition set_newTail (n : Z) (t : thread) : thread :=
  Thread (pc t) (bufferItem t) (popedData t) n (keepTrying t)
    (sleepDuration t) (pushIndex t) (popIndex t).
Definition set_keepTrying (k : bool) (t : thread) : thread :=
  Thread (pc t) (bufferItem t) (popedData t) (newTail t) k
    (sleepDuration t) (pushIndex t) (popIndex t).
Definition set_sleepDuration (d : Z) (t : thread) : thread :=
  Thread (pc t) (bufferItem t) (popedData t) (newTail t) (keepTrying t)
    d (pushIndex t) (popIndex t).
Definition set_pushIndex (i : Z) (t : thread) : thread :=
  Thread (pc t) (bufferItem t) (popedData t) (newTail t) (keepTrying t)
    (sleepDuration t) i (popIndex t).
Definition set_popIndex (i : option Z) (t : thread) : thread :=
  Thread (pc t) (bufferItem t) (popedData t) (newTail t) (keepTrying t)
    (sleepDuration t) (pushIndex t) i.

Definition init : queue :=
  Queue (replicate (Z.to_nat bufferSize) value_init)
        (replicate (Z.to_nat bufferSize) false) 0 0 0 0 true.

(** Entry of [push], lines 22-25, and of [pop], lines 63-65. *)
Definition call_push (v : QueueItemT) : thread :=
  Thread PushBegin v value_init 0 true 0 0 None.
Definition call_pop (x : QueueItemT) : thread :=
  Thread PopAcquire value_init x 0 true 0 0 None.

(** [fetch_add(d)] on a [std::atomic<size_t>]: the [int] argument is converted
    to [size_t] first, so [-1] adds 2^64 - 1. *)
Definition fetch_add (p d : Z) : Z := wrap_size (p + wrap_size d).

Definition step (q : queue) (t : thread) : queue * thread :=
  match pc t with
  | PushBegin =>
      (set_pendingActions (fetch_add (_pendingActions q) 2) q,
       goto PushAcquire t)
  | PushAcquire =>
      if _canUpdate q then (set_canUpdate false q, goto PushNewTail t)
      else (q, t)
  | PushNewTail =>
      match umod (wrap_size (_tail q + 1)) bufferSize with
      | Some n => (q, goto PushCheckFull (set_newTail n t))
      | None => (q, goto Undefined t)
      end
  | PushCheckFull =>
      if decide (newTail t ≠ _head q) then (q, goto PushLoadSlot t)
      else (q, goto PushRelease t)
  | PushLoadSlot => (q, goto (PushHasData (_tail q)) t)
  | PushHasData i =>
      match at_ (_hasData q) i with
      | Some has => if has then (q, goto PushRelease t)
                    else (q, goto PushClaim t)
      | None => (q, goto Threw t)
      end
  | PushClaim => (q, goto PushStoreTail (set_pushIndex (_tail q) t))
  | PushStoreTail =>
      (set_tail (newTail t) q, goto PushRelease (set_keepTrying false t))
  | PushRelease => (set_canUpdate true q, goto PushRetry t)
  | PushRetry =>
      if keepTrying t then
        (q, goto PushAcquire (set_sleepDuration (backOff (sleepDuration t)) t))
      else (q, goto PushWrite t)
  | PushWrite =>
      match store_at (_buffer q) (pushIndex t) (bufferItem t) with
      | Some b => (set_buffer b q, goto PushCountData t)
      | None => (q, goto Threw t)
      end
  | PushCountData =>
      (set_pendingData (fetch_add (_pendingData q) 1) q,
       goto PushCountAction t)
  | PushCountAction =>
      (set_pendingActions (fetch_add (_pendingActions q) (-1)) q,
       goto PushCommit t)
  | PushCommit =>
      match store_at (_hasData q) (pushIndex t) true with
      | Some b => (set_hasData b q, goto ReturnedVoid t)
      | None => (q, goto Threw t)
      end
  | PopAcquire =>
      if _canUpdate q then (set_canUpdate false q, goto PopLoadHead t)
      else (q, t)
  | PopLoadHead => (q, goto (PopCheckEmpty (_head q)) t)
  | PopCheckEmpty h =>
      if decide (h ≠ _tail q) then (q, goto PopLoadSlot t)
      else (q, goto PopRelease (set_keepTrying false t))
  | PopLoadSlot => (q, goto (PopHasData (_head q)) t)
  | PopHasData i =>
      match at_ (_hasData q) i with
      | Some has => if has then (q, goto PopClaim t)
                    else (q, goto PopRelease t)
      | None => (q, goto Threw t)
      end
  | PopClaim => (q, goto PopNewHead (set_popIndex (Some (_head q)) t))
  | PopNewHead =>
      match umod (wrap_size (_head q + 1)) bufferSize with
      | Some h => (q, goto (PopStoreHead h) t)
      | None => (q, goto Undefined t)
      end
  | PopStoreHead h =>
      (set_head h q, goto PopRelease (set_keepTrying false t))
  | PopRelease => (set_canUpdate true q, goto PopRetry t)
  | PopRetry =>
      if keepTrying t then
        (q, goto PopAcquire (set_sleepDuration (backOff (sleepDuration t)) t))
      else match popIndex t with
           | Some _ => (q, goto PopRead t)
           | None => (q, goto (Returned false) t)
           end
  | PopRead =>
      match popIndex t with
      | Some i =>
          match at_ (_buffer q) i with
          | Some v => (q, goto PopClear (set_popedData v t))
          | None => (q, goto Threw t)
          end
      | None => (q, goto Undefined t)
      end
  | PopClear =>
      match popIndex t with
      | Some i =>
          match store_at (_hasData q) i false with
          | Some b => (set_hasData b q, goto PopAssertData t)
          | None => (q, goto Threw t)
          end
      | None => (q, goto Undefined t)
      end
  | PopAssertData =>
      if decide (0 < _pendingData q) then (q, goto PopCountData t)
      else (q, goto AssertFailed t)
  | PopCountData =>
      (set_pendingData (fetch_add (_pendingData q) (-1)) q,
       goto PopAssertAction t)
  | PopAssertAction =>
      if decide (0 < _pendingActions q) then (q, goto PopCountAction t)
      else (q, goto AssertFailed t)
  | PopCountAction =>
      (set_pendingActions (fetch_add (_pendingActions q) (-1)) q,
       goto (Returned true) t)
  | ReturnedVoid | Returned _ | AssertFailed | Threw | Undefined => (q, t)
  end.

Definition finished (t : thread) : bool :=
  match pc t with
  | ReturnedVoid | Returned _ | AssertFailed | Threw | Undefined => true
  | _ => false
  end.

(** The call failed loudly: an assertion or an exception stopped it. *)
Definition failed (t : thread) : bool :=
  match pc t with
  | AssertFailed | Threw | Undefined => true
  | _ => false
  end.

Definition push (fuel : nat) (q : queue) (v : QueueItemT) : queue * thread :=
  run step finished fuel q (call_push v).
Definition pop (fuel : nat) (q : queue) (x : QueueItemT) : queue * thread :=
  run step finished fuel q (call_pop x).

Definition result (t : thread) : option bool :=
  match pc t with
  | Returned b => Some b
  | _ => None
  end.

(** The critical section: lines 33-42 of [push], entered at [PushNewTail],
    and lines 70-87 of [pop], entered at [PopLoadHead]. *)
Definition released (t : thread) : bool :=
  match pc t with
  | PushRelease | PopRelease => true
  | _ => finished t
  end.
Definition critical_section (q : queue) (t : thread) : queue * thread :=
  run step released 7 q t.

Definition candidate_tail (q : queue) : Z :=
  wrap_size (_tail q + 1) `mod` bufferSize.
Definition full (q : queue) : Prop := candidate_tail q = _head q.
Definition empty (q : queue) : Prop := _head q = _tail q.

Record wf (q : queue) : Prop := Wf {
  wf_size : 0 < bufferSize < 2 ^ 63;
  wf_buffer : length (_buffer q) = Z.to_nat bufferSize;
  wf_hasData : length (_hasData q) = Z.to_nat bufferSize;
  wf_head : 0 ≤ _head q < bufferSize;
  wf_tail : 0 ≤ _tail q < bufferSize }.

(** [hasData] and [hasWork], lines 114-120. *)
Definition hasData (q : queue) : bool := bool_decide (0 < _pendingData q).
Definition hasWork (q : queue) : bool := bool_decide (0 < _pendingActions q).

(** *** The ring *)

(** Slots claimed by a push and not yet claimed by a pop, and their indices,
    oldest first. *)
Definition occupancy (q : queue) : Z := (_tail q - _head q) `mod` bufferSize.
Definition ring_slots (q : queue) : list Z :=
  (λ k, (_head q + k) `mod` bufferSize) <$> seqZ 0 (occupancy q).

(** The stored items, oldest first. *)
Definition contents (q : queue) : list QueueItemT :=
  omap (at_ (_buffer q)) (ring_slots q).

(** The states a single caller sees between two of its calls: the exclusion
    flag is free, [_hasData] is set on the slots of the ring and on no other,
    and both counters are the occupancy. *)
Record idle (q : queue) : Prop := Idle {
  idle_wf : wf q;
  idle_canUpdate : _canUpdate q = true;
  idle_hasData : ∀ i, 0 ≤ i < bufferSize →
      at_ (_hasData q) i = Some (bool_decide (i ∈ ring_slots q));
  idle_pendingActions : _pendingActions q = occupancy q;
  idle_pendingData : _pendingData q = occupancy q }.

(** *** Calls driven one after the other by a single caller *)
Inductive op : Type :=
| Push (v : QueueItemT)
| Pop.

(** What a call reported: whether [push] came back, or [pop]'s boolean with
    the value it left in [popedData]. *)
Inductive outcome : Type :=
| Pushed (back : bool)
| Popped (b : option bool) (v : QueueItemT).

Definition returned (t : thread) : bool :=
  match pc t with
  | ReturnedVoid => true
  | _ => false
  end.

Definition perform (fuel : nat) (q : queue) (o : op) : queue * outcome :=
  match o with
  | Push v => let '(q', t) := push fuel q v in (q', Pushed (returned t))
  | Pop => let '(q', t) := pop fuel q value_init in
           (q', Popped (result t) (popedData t))
  end.

Fixpoint perform_all (fuel : nat) (q : queue) (os : list op)
  : queue * list outcome :=
  match os with
  | [] => (q, [])
  | o :: os' =>
      let '(q1, r) := perform fuel q o in
      let '(q2, rs) := perform_all fuel q1 os' in
      (q2, r :: rs)
  end.

(** The same calls on a first-in first-out store of at most [bufferSize - 1]
    items.  A [push] on the full store has no answer: with no other thread
    to make room the caller is never given control back. *)
Definition fifo_perform (l : list QueueItemT) (o : op)
  : option (list QueueItemT * outcome) :=
  match o with
  | Push v =>
      if decide (Z.of_nat (length l) < bufferSize - 1)
      then Some (l ++ [v], Pushed true)
      else None
  | Pop =>
      match l with
      | [] => Some (l, Popped (Some false) value_init)
      | x :: l' => Some (l', Popped (Some true) x)
      end
  end.

Fixpoint fifo_perform_all (l : list QueueItemT) (os : list op)
  : option (list QueueItemT * list outcome) :=
  match os with
  | [] => Some (l, [])
  | o :: os' =>
      match fifo_perform l o with
      | Some (l1, r) =>
          match fifo_perform_all l1 os' with
          | Some (l2, rs) => Some (l2, r :: rs)
          | None => None
          end
      | None => None
      end
  end.

(** *** Threads interleaving on one queue *)
Record system : Type := System {
  shared : queue;
  calls : list thread }.

Inductive sys_step : system → system → Prop :=
| sys_call_push s v :
    sys_step s (System (shared s) (calls s ++ [call_push v]))
| sys_call_pop s x :
    sys_step s (System (shared s) (calls s ++ [call_pop x]))
| sys_thread s i t :
    calls s !! i = Some t →
    sys_step s (System (step (shared s) t).1
                       (<[i := (step (shared s) t).2]> (calls s))).

Inductive reachable : system → Prop :=
| reachable_init : reachable (System init [])
| reachable_step s s' : reachable s → sys_step s s' → reachable s'.

(** No call is in progress. *)
Definition quiescent (s : system) : Prop :=
  Forall (λ t, finished t = true) (calls s).

(** *** Invariants of the reachable systems *)

(** The thread is between winning [_canUpdate] and giving it back. *)
Definition in_cs (t : thread) : Z :=
  match pc t with
  | PushNewTail | PushCheckFull | PushLoadSlot | PushHasData _ | PushClaim
  | PushStoreTail | PushRelease
  | PopLoadHead | PopCheckEmpty _ | PopLoadSlot | PopHasData _ | PopClaim
  | PopNewHead | PopStoreHead _ | PopRelease => 1
  | _ => 0
  end.

(** The slot a [push] has moved [_tail] past and not yet committed. *)
Definition writing (t : thread) : option Z :=
  match pc t with
  | PushRelease | PushRetry =>
      if keepTrying t then None else Some (pushIndex t)
  | PushWrite | PushCountData | PushCountAction | PushCommit =>
      Some (pushIndex t)
  | _ => None
  end.

(** The slot a [pop] has moved [_head] past and whose flag it has not yet
    cleared. *)
Definition reading (t : thread) : option Z :=
  match pc t with
  | PopRelease | PopRetry | PopRead | PopClear => popIndex t
  | _ => None
  end.

Definition writing_at (i : Z) (t : thread) : Z :=
  if decide (writing t = Some i) then 1 else 0.
Definition reading_at (i : Z) (t : thread) : Z :=
  if decide (reading t = Some i) then 1 else 0.

(** The number of slots whose [_hasData] flag is set. *)
Definition count_set (flags : list bool) : Z :=
  BusyQueue.sumZ (λ b : bool, if b then 1 else 0) flags.

(** What the call has in [_pendingData] beyond the flags that are set: a
    [push] counts its item (line 54) before it sets the flag (line 58); a
    [pop] clears the flag (line 100) before it takes the item off (line
    103). *)
Definition counted_data (t : thread) : Z :=
  match pc t with
  | PushCountAction | PushCommit | PopAssertData | PopCountData => 1
  | _ => 0
  end.

(** The same for [_pendingActions]: a [push] adds 2 on entry (line 27) and
    takes 1 back (line 56) before it sets the flag; a [pop] clears the flag
    before it takes the other 1 off (line 106). *)
Definition counted_actions (t : thread) : Z :=
  match pc t with
  | PushAcquire | PushNewTail | PushCheckFull | PushLoadSlot | PushHasData _
  | PushClaim | PushStoreTail | PushRelease | PushRetry | PushWrite
  | PushCountData | PushCountAction => 2
  | PushCommit => 1
  | PopAssertData | PopCountData | PopAssertAction | PopCountAction => 1
  | _ => 0
  end.

(** What a call knows about its own locals at each program point; no call is
    at an assertion that failed, at an exception or at undefined behaviour. *)
Definition local_ok (t : thread) : Prop :=
  match pc t with
  | PushBegin | PushAcquire | PushNewTail | PushCheckFull | PushLoadSlot
  | PushHasData _ | PushClaim | PushStoreTail => keepTrying t = true
  | PopAcquire | PopLoadHead | PopCheckEmpty _ | PopLoadSlot | PopHasData _
  | PopClaim =>
      keepTrying t = true ∧ popIndex t = None
  | PopNewHead | PopStoreHead _ => keepTrying t = true ∧ is_Some (popIndex t)
  | PopRelease | PopRetry =>
      keepTrying t = true → popIndex t = None
  | PopRead | PopClear => is_Some (popIndex t)
  | AssertFailed | Threw | Undefined => False
  | _ => True
  end.

(** What the thread inside the critical section knows about the indices and
    about the flag of the slot it is looking at. *)
Definition cs_ok (q : queue) (t : thread) : Prop :=
  match pc t with
  | PushCheckFull => newTail t = candidate_tail q
  | PushLoadSlot => newTail t = candidate_tail q ∧ newTail t ≠ _head q
  | PushHasData i =>
      i = _tail q ∧ newTail t = candidate_tail q ∧ newTail t ≠ _head q
  | PushClaim =>
      newTail t = candidate_tail q ∧ newTail t ≠ _head q ∧
      at_ (_hasData q) (_tail q) = Some false
  | PushStoreTail =>
      newTail t = candidate_tail q ∧ newTail t ≠ _head q ∧
      at_ (_hasData q) (_tail q) = Some false ∧ pushIndex t = _tail q
  | PopCheckEmpty h => h = _head q
  | PopLoadSlot => _head q ≠ _tail q
  | PopHasData i => i = _head q ∧ _head q ≠ _tail q
  | PopClaim =>
      _head q ≠ _tail q ∧ at_ (_hasData q) (_head q) = Some true
  | PopNewHead =>
      _head q ≠ _tail q ∧ at_ (_hasData q) (_head q) = Some true ∧
      popIndex t = Some (_head q)
  | PopStoreHead h =>
      h = wrap_size (_head q + 1) `mod` bufferSize ∧ _head q ≠ _tail q ∧
      at_ (_hasData q) (_head q) = Some true ∧ popIndex t = Some (_head q)
  | _ => True
  end.

(** A slot of the ring is flagged unless its producer is still writing it; a
    slot outside the ring is flagged only while its consumer is still reading
    it; and a slot has at most one such owner. *)
Definition slot_ok (q : queue) (l : list thread) (i : Z) : Prop :=
  let W := BusyQueue.sumZ (writing_at i) l in
  let R := BusyQueue.sumZ (reading_at i) l in
  W + R ≤ 1 ∧
  (W = 1 → i ∈ ring_slots q) ∧
  (R = 1 → i ∉ ring_slots q) ∧
  at_ (_hasData q) i =
    Some (bool_decide ((i ∈ ring_slots q ∧ W = 0) ∨ R = 1)).

Record inv (q : queue) (l : list thread) : Prop := Inv {
  inv_wf : wf q;
  inv_local : Forall local_ok l;
  inv_cs : Forall (cs_ok q) l;
  inv_range : Forall (λ t, ∀ i, writing t = Some i ∨ reading t = Some i →
                                0 ≤ i < bufferSize) l;
  inv_mutex : BusyQueue.sumZ in_cs l = if _canUpdate q then 0 else 1;
  inv_slots : ∀ i, 0 ≤ i < bufferSize → slot_ok q l i;
  inv_data :
    _pendingData q =
      wrap_size (count_set (_hasData q) + BusyQueue.sumZ counted_data l);
  inv_actions :
    _pendingActions q =
      wrap_size (count_set (_hasData q) + BusyQueue.sumZ counted_actions l) }.

End Model.
End HasDataQueue.

(** ** The test drivers

    src/LockFreeQueueTest.cpp drives src/LockFreeQueue.h;
    src/testing/src/LockFreeQueueTest.cpp drives the second revision of
    src/include/LockFreeQueue.h (it calls [hasWork]); src/unnamed/part_000
    drives the first (it calls [hasData] only).  The loops are modelled as
    one thread runs them once the [_run] flag is down; [rounds] bounds the
    iterations of a loop and [fuel] the steps of each call it makes. *)
Module Drivers.

(** [backOff] of the drivers (src/testing/src/LockFreeQueueTest.cpp lines
    7-16, src/unnamed/part_000 lines 7-17). *)
Definition backOff (sleepDuration : Z) : Z :=
  if decide (sleepDuration < 100) then sleepDuration + 1 else sleepDuration.

(** [QueueChecker] (src/LockFreeQueueTest.cpp lines 21-41): its [_poped]
    flag, and the [_ok] flag it refers to, which all checkers share. *)
Record QueueChecker : Type := Checker { _poped : bool }.

Definition make_checker : QueueChecker := Checker false.

(** [poped()]: [_poped.exchange(true)], and [_ok.store(false)] when it was
    set already. *)
Definition poped (ok : bool) (c : QueueChecker) : bool * QueueChecker :=
  (if _poped c then false else ok, Checker true).

(** [~QueueChecker()]: [_ok.store(false)] when [_poped] is clear. *)
Definition destroy (ok : bool) (c : QueueChecker) : bool :=
  if _poped c then ok else false.

Section Loops.
Context {QueueItemT : Type}.
Variable bufferSize : Z.
Variable value_init : QueueItemT.

(** What a loop has done when it stops: the queue, the items [poped()] was
    called on, in order, and whether the loop came to its end. *)
Record drained (Q : Type) : Type := Drained {
  drained_queue : Q;
  drained_items : list QueueItemT;
  drained_done : bool }.
Global Arguments Drained {Q} _ _ _.
Global Arguments drained_queue {Q} _.
Global Arguments drained_items {Q} _.
Global Arguments drained_done {Q} _.

(** [Consumer::run] of src/LockFreeQueueTest.cpp, lines 90-97, with [_run]
    down: [while (_buffer.hasWork()) { TData data{}; if (_buffer.pop(data))
    data->poped(); }]. *)
Fixpoint consumer_run (rounds fuel : nat) (q : HasDataQueue.queue)
  : drained HasDataQueue.queue :=
  match rounds with
  | O => Drained q [] false
  | S n =>
      if HasDataQueue.hasWork q then
        let '(q1, t) := HasDataQueue.pop bufferSize value_init fuel q
                          value_init in
        match HasDataQueue.result t with
        | Some true =>
            let r := consumer_run n fuel q1 in
            Drained (drained_queue r)
                    (HasDataQueue.popedData t :: drained_items r)
                    (drained_done r)
        | Some false => consumer_run n fuel q1
        | None => Drained q1 [] false
        end
      else Drained q [] true
  end.

(** The second loop of [Consumer::run] of
    src/testing/src/LockFreeQueueTest.cpp, lines 117-123. *)
Fixpoint consumer_drain (rounds fuel : nat) (q : ActionsQueue.queue)
  : drained ActionsQueue.queue :=
  match rounds with
  | O => Drained q [] false
  | S n =>
      if ActionsQueue.hasWork q then
        let '(q1, t) := ActionsQueue.pop bufferSize value_init fuel q
                          value_init in
        match ActionsQueue.result t with
        | Some true =>
            let r := consumer_drain n fuel q1 in
            Drained (drained_queue r)
                    (ActionsQueue.popedData t :: drained_items r)
                    (drained_done r)
        | Some false => consumer_drain n fuel q1
        | None => Drained q1 [] false
        end
      else Drained q [] true
  end.

(** The inner loop of [Producer::run] of
    src/testing/src/LockFreeQueueTest.cpp, lines 80-83:
    [while (!_queue.push(data)) sleepDuration = backOff(sleepDuration);
    sleepDuration = 0].  The result is the queue, [sleepDuration], and
    whether the loop came to its end. *)
Fixpoint producer_push (rounds fuel : nat) (q : ActionsQueue.queue)
    (data : QueueItemT) (sleepDuration : Z) : ActionsQueue.queue * Z * bool :=
  match rounds with
  | O => (q, sleepDuration, false)
  | S n =>
      let '(q1, t) := ActionsQueue.push bufferSize value_init fuel q data in
      match ActionsQueue.result t with
      | Some true => (q1, 0, true)
      | Some false => producer_push n fuel q1 data (backOff sleepDuration)
      | None => (q1, sleepDuration, false)
      end
  end.

(** The second loop of [Consumer::run] of src/unnamed/part_000, lines
    125-136: [while (_queue.hasData())], with [backOff] when [pop] finds
    nothing.  [_dataCounter] counts the items. *)
Fixpoint consumer_clear (rounds fuel : nat) (q : BusyQueue.queue)
    (sleepDuration : Z) (_dataCounter : Z)
  : drained BusyQueue.queue * Z * Z :=
  match rounds with
  | O => (Drained q [] false, sleepDuration, _dataCounter)
  | S n =>
      if BusyQueue.hasData q then
        let '(q1, t) := BusyQueue.pop bufferSize value_init fuel q
                          value_init in
        match BusyQueue.result t with
        | Some true =>
            let '(r, d, c) :=
              consumer_clear n fuel q1 0 (wrap_size (_dataCounter + 1)) in
            (Drained (drained_queue r)
                     (BusyQueue.popedData t :: drained_items r)
                     (drained_done r), d, c)
        | Some false =>
            consumer_clear n fuel q1 (backOff sleepDuration) _dataCounter
        | None => (Drained q1 [] false, sleepDuration, _dataCounter)
        end
      else (Drained q [] true, sleepDuration, _dataCounter)
  end.

End Loops.
End Drivers.

(** * Properties *)

(** ** Machine arithmetic and checked array access *)

Lemma wrap_ll_id x : - 2 ^ 63 ≤ x < 2 ^ 63 → wrap_ll x = x.
Proof. intros H. unfold wrap_ll. rewrite Z.mod_small; lia. Qed.

Lemma wrap_ll_add x y : wrap_ll (wrap_ll x + y) = wrap_ll (x + y).
Proof.
  unfold wrap_ll.
  replace ((x + 2 ^ 63) `mod` 2 ^ 64 - 2 ^ 63 + y + 2 ^ 63)
    with ((x + 2 ^ 63) `mod` 2 ^ 64 + y) by lia.
  rewrite Zplus_mod_idemp_l. f_equal. f_equal. lia.
Qed.

Lemma wrap_ll_sub x y : wrap_ll (wrap_ll x - y) = wrap_ll (x - y).
Proof. rewrite <- !Z.add_opp_r. apply wrap_ll_add. Qed.

Lemma wrap_size_id x : 0 ≤ x < 2 ^ 64 → wrap_size x = x.
Proof. intros H. unfold wrap_size. rewrite Z.mod_small; lia. Qed.

Lemma umod_Some a n : n ≠ 0 → umod a n = Some (a `mod` n).
Proof. intros H. unfold umod. destruct (decide (n = 0)); congruence. Qed.

Lemma at_lookup {A} (a : list A) i : 0 ≤ i → at_ a i = a !! Z.to_nat i.
Proof. intros H. unfold at_. destruct (decide (0 ≤ i)); [done | lia]. Qed.

Lemma at_Some_range {A} (a : list A) i x :
  at_ a i = Some x → 0 ≤ i < Z.of_nat (length a).
Proof.
  unfold at_. destruct (decide (0 ≤ i)); [| done].
  intros H%lookup_lt_Some. lia.
Qed.

Lemma at_is_Some {A} (a : list A) i :
  0 ≤ i < Z.of_nat (length a) → is_Some (at_ a i).
Proof.
  intros H. rewrite at_lookup by lia. apply lookup_lt_is_Some. lia.
Qed.

(** Arithmetic of indices around a ring of [n] slots. *)
Lemma ring_succ n h t :
  0 < n → 0 ≤ h < n → 0 ≤ t < n → (t + 1) `mod` n ≠ h →
  ((t + 1) `mod` n - h) `mod` n = (t - h) `mod` n + 1.
Proof.
  intros Hn Hh Ht Hne.
  destruct (decide (t + 1 = n)) as [E|E].
  - assert ((t + 1) `mod` n = 0) as E0 by (rewrite E; apply Z_mod_same_full).
    rewrite E0 in *.
    rewrite (Z.mod_small (t - h)) by lia.
    replace (0 - h) with (n - h + (-1) * n) by lia.
    rewrite Z_mod_plus_full. rewrite Z.mod_small; lia.
  - rewrite (Z.mod_small (t + 1)) in * by lia.
    destruct (decide (h ≤ t)).
    + rewrite !Z.mod_small; lia.
    + replace (t + 1 - h) with (t + 1 - h + n + (-1) * n) by lia.
      replace (t - h) with (t - h + n + (-1) * n) by lia.
      rewrite !Z_mod_plus_full. rewrite !Z.mod_small; lia.
Qed.

Lemma ring_full n h t :
  0 < n → 0 ≤ h < n → 0 ≤ t < n →
  (t + 1) `mod` n = h ↔ (t - h) `mod` n = n - 1.
Proof.
  intros Hn Hh Ht.
  destruct (decide (t + 1 = n)) as [E|E].
  - assert ((t + 1) `mod` n = 0) as E0 by (rewrite E; apply Z_mod_same_full).
    rewrite E0. rewrite (Z.mod_small (t - h)) by lia. lia.
  - rewrite (Z.mod_small (t + 1)) by lia.
    destruct (decide (h ≤ t)).
    + rewrite Z.mod_small; lia.
    + replace (t - h) with (t - h + n + (-1) * n) by lia.
      rewrite Z_mod_plus_full. rewrite Z.mod_small; lia.
Qed.

Lemma ring_pred n h t :
  0 < n → 0 ≤ h < n → 0 ≤ t < n → h ≠ t →
  (t - (h + 1) `mod` n) `mod` n = (t - h) `mod` n - 1.
Proof.
  intros Hn Hh Ht Hne.
  destruct (decide (h + 1 = n)) as [E|E].
  - assert ((h + 1) `mod` n = 0) as E0 by (rewrite E; apply Z_mod_same_full).
    rewrite E0.
    replace (t - h) with (t - h + n + (-1) * n) by lia.
    rewrite Z_mod_plus_full. rewrite !Z.mod_small; lia.
  - rewrite (Z.mod_small (h + 1)) by lia.
    destruct (decide (h ≤ t)).
    + rewrite !Z.mod_small; lia.
    + replace (t - (h + 1)) with (t - (h + 1) + n + (-1) * n) by lia.
      replace (t - h) with (t - h + n + (-1) * n) by lia.
      rewrite !Z_mod_plus_full. rewrite !Z.mod_small; lia.
Qed.

Lemma ring_empty n h t :
  0 < n → 0 ≤ h < n → 0 ≤ t < n → h = t ↔ (t - h) `mod` n = 0.
Proof.
  intros Hn Hh Ht.
  destruct (decide (h ≤ t)).
  - rewrite Z.mod_small; lia.
  - replace (t - h) with (t - h + n + (-1) * n) by lia.
    rewrite Z_mod_plus_full. rewrite Z.mod_small; lia.
Qed.

Lemma ring_tail n h t :
  0 < n → 0 ≤ h < n → 0 ≤ t < n → (h + (t - h) `mod` n) `mod` n = t.
Proof.
  intros Hn Hh Ht. rewrite Zplus_mod_idemp_r.
  replace (h + (t - h)) with t by lia. apply Z.mod_small. lia.
Qed.

Lemma store_at_Some {A} (a : list A) i v x :
  at_ a i = Some x → store_at a i v = Some (<[Z.to_nat i := v]> a).
Proof. intros H. unfold store_at. by rewrite H. Qed.

(** ** Running a thread *)
Section MachineFacts.
Context {Shared Thread : Type}.
Variable step : Shared → Thread → Shared * Thread.
Variable finished : Thread → bool.

Lemma run_unfold fuel (q : Shared) (t : Thread) :
  run step finished (S fuel) q t =
    if finished t then (q, t)
    else let '(q', t') := step q t in run step finished fuel q' t'.
Proof. reflexivity. Qed.

Lemma run_step fuel (q q' : Shared) (t t' : Thread) :
  finished t = false → step q t = (q', t') →
  run step finished (S fuel) q t = run step finished fuel q' t'.
Proof. intros Hf Hs. by rewrite run_unfold, Hf, Hs. Qed.

Lemma run_finished fuel (q : Shared) (t : Thread) :
  finished t = true → run step finished fuel q t = (q, t).
Proof. intros H. destruct fuel; simpl; [done | by rewrite H]. Qed.

(** A property of the pair of states that every step keeps holds after any
    number of steps. *)
Lemma run_invariant (I : Shared → Thread → Prop) :
  (∀ q t, I q t → I (step q t).1 (step q t).2) →
  ∀ fuel q t, I q t →
    I (run step finished fuel q t).1 (run step finished fuel q t).2.
Proof.
  intros Hstep fuel. induction fuel as [|fuel IH]; intros q t HI; [done|].
  rewrite run_unfold. destruct (finished t); [done|].
  specialize (Hstep q t HI). destruct (step q t) as [q' t']. by apply IH.
Qed.
End MachineFacts.

(** ** src/include/LockFreeQueue.h, first revision: one caller *)
Module BusyQueueProofs.
Import BusyQueue.

Section Steps.
Context {QueueItemT : Type} (bufferSize : Z) (value_init : QueueItemT).
Local Abbreviation queue := (@queue QueueItemT).
Local Abbreviation thread := (@thread QueueItemT).
Local Abbreviation step := (step bufferSize).
Local Abbreviation wf := (wf bufferSize).
Local Abbreviation full := (full bufferSize).
Local Abbreviation push := (push bufferSize value_init).
Local Abbreviation pop := (pop bufferSize value_init).
Local Abbreviation call_push := (call_push value_init).
Local Abbreviation call_pop := (call_pop value_init).

Lemma candidate_tail_eq (q : queue) :
  wf q → candidate_tail bufferSize q = (_tail q + 1) `mod` bufferSize.
Proof.
  intros [? ? ? ? ?]. unfold candidate_tail. rewrite wrap_size_id; [done | lia].
Qed.



(** The steps whose test is on a value read from the queue. *)
Lemma step_PushNewTail (q : queue) (t : thread) n :
  pc t = PushNewTail → umod (wrap_size (_tail q + 1)) bufferSize = Some n →
  step q t = (q, goto PushCheckFull (set_newTail n t)).
Proof. intros Hpc Hn. unfold step. by rewrite Hpc, Hn. Qed.

Lemma step_PushCheckFull_full (q : queue) (t : thread) :
  pc t = PushCheckFull → newTail t = _head q →
  step q t = (q, goto PushRelease (set_keepTrying false t)).
Proof. intros Hpc Hn. unfold step. rewrite Hpc. by rewrite decide_False by tauto. Qed.

Lemma step_PushCheckFull_space (q : queue) (t : thread) :
  pc t = PushCheckFull → newTail t ≠ _head q →
  step q t = (q, goto PushLoadSlot t).
Proof. intros Hpc Hn. unfold step. rewrite Hpc. by rewrite decide_True. Qed.

Lemma step_PushExchange (q : queue) (t : thread) i old :
  pc t = PushExchange i → at_ (_isBusy q) i = Some old →
  step q t = (set_isBusy (<[Z.to_nat i := true]> (_isBusy q)) q,
              goto (if old then PushRelease else PushClaim) t).
Proof. intros Hpc Hi. unfold step. rewrite Hpc, Hi. by destruct old. Qed.

Lemma step_PushWrite (q : queue) (t : thread) i x :
  pc t = PushWrite → pushIndex t = Some i → at_ (_buffer q) i = Some x →
  step q t = (set_buffer (<[Z.to_nat i := bufferItem t]> (_buffer q)) q,
              goto PushCommit t).
Proof.
  intros Hpc Hi Hx. unfold step. by rewrite Hpc, Hi, (store_at_Some _ _ _ _ Hx).
Qed.

Lemma step_PushFree (q : queue) (t : thread) i x :
  pc t = PushFree → pushIndex t = Some i → at_ (_isBusy q) i = Some x →
  step q t = (set_isBusy (<[Z.to_nat i := false]> (_isBusy q)) q,
              goto (Returned true) t).
Proof.
  intros Hpc Hi Hx. unfold step. by rewrite Hpc, Hi, (store_at_Some _ _ _ _ Hx).
Qed.

Lemma step_PopCheckEmpty_empty (q : queue) (t : thread) h :
  pc t = PopCheckEmpty h → h = _tail q →
  step q t = (q, goto PopRelease (set_keepTrying false t)).
Proof. intros Hpc Hn. unfold step. rewrite Hpc. by rewrite decide_False by tauto. Qed.

Lemma step_PopCheckEmpty_data (q : queue) (t : thread) h :
  pc t = PopCheckEmpty h → h ≠ _tail q →
  step q t = (q, goto PopLoadSlot t).
Proof. intros Hpc Hn. unfold step. rewrite Hpc. by rewrite decide_True. Qed.

Lemma step_PopExchange (q : queue) (t : thread) i old :
  pc t = PopExchange i → at_ (_isBusy q) i = Some old →
  step q t = (set_isBusy (<[Z.to_nat i := true]> (_isBusy q)) q,
              goto (if old then PopRelease else PopClaim) t).
Proof. intros Hpc Hi. unfold step. rewrite Hpc, Hi. by destruct old. Qed.

Lemma step_PopNewHead (q : queue) (t : thread) h :
  pc t = PopNewHead → umod (wrap_size (_head q + 1)) bufferSize = Some h →
  step q t = (q, goto (PopStoreHead h) t).
Proof. intros Hpc Hn. unfold step. by rewrite Hpc, Hn. Qed.

Lemma step_PopRead (q : queue) (t : thread) i v :
  pc t = PopRead → popIndex t = Some i → at_ (_buffer q) i = Some v →
  step q t = (q, goto PopCommit (set_popedData v t)).
Proof. intros Hpc Hi Hv. unfold step. by rewrite Hpc, Hi, Hv. Qed.

Lemma step_PopFree (q : queue) (t : thread) i x :
  pc t = PopFree → popIndex t = Some i → at_ (_isBusy q) i = Some x →
  step q t = (set_isBusy (<[Z.to_nat i := false]> (_isBusy q)) q,
              goto (Returned true) t).
Proof.
  intros Hpc Hi Hx. unfold step. by rewrite Hpc, Hi, (store_at_Some _ _ _ _ Hx).
Qed.

End Steps.

Ltac reduce :=
  cbn [step finished released result pc bufferItem popedData newTail
       keepTrying sleepDuration pushIndex popIndex goto set_popedData
       set_newTail set_keepTrying set_sleepDuration set_pushIndex set_popIndex
       BusyQueue.call_push BusyQueue.call_pop _buffer _isBusy _head _tail
       _pendingData _canUpdate set_buffer set_isBusy set_head set_tail
       set_pendingData set_canUpdate fst snd].
Ltac fields :=
  cbn [_buffer _isBusy _head _tail _pendingData _canUpdate] in *.

(** One step of a call whose two states are explicit records: the next pair
    of states is computed, in normal form, and the run is advanced to it. *)
Tactic Notation "exec" :=
  lazymatch goal with
  | |- context [run (BusyQueue.step ?n) ?fin (S ?f) ?q ?t] =>
      let r := eval cbv beta iota delta
        [step pc bufferItem popedData newTail keepTrying sleepDuration
         pushIndex popIndex goto set_popedData set_newTail set_keepTrying
         set_sleepDuration set_pushIndex set_popIndex BusyQueue.call_push
         BusyQueue.call_pop _buffer _isBusy _head _tail _pendingData
         _canUpdate set_buffer set_isBusy set_head set_tail set_pendingData
         set_canUpdate] in (BusyQueue.step n q t) in
      lazymatch r with
      | (?q', ?t') =>
          erewrite (run_step (BusyQueue.step n) fin f _ q' _ t');
          [ | reflexivity | reflexivity ]
      end
  end.
Tactic Notation "exec" "with" uconstr(lem) "by" tactic3(tac) :=
  erewrite run_step;
  [ | reflexivity | eapply lem; [reflexivity | reduce; tac ..] ].

Section Sequential.
Context {QueueItemT : Type} (bufferSize : Z) (value_init : QueueItemT).
Local Abbreviation queue := (@queue QueueItemT).
Local Abbreviation thread := (@thread QueueItemT).
Local Abbreviation step := (step bufferSize).
Local Abbreviation wf := (wf bufferSize).
Local Abbreviation full := (full bufferSize).
Local Abbreviation push := (push bufferSize value_init).
Local Abbreviation pop := (pop bufferSize value_init).
Local Abbreviation call_push := (call_push value_init).
Local Abbreviation call_pop := (call_pop value_init).


Lemma push_full (q : queue) v fuel :
  wf q → _canUpdate q = true → full q →
  push (7 + fuel) q v =
    (set_pendingData (wrap_ll (_pendingData q)) q,
     goto (Returned false)
       (set_keepTrying false (set_newTail (_head q) (call_push v)))).
Proof.
  intros [Hn _ _ _ _] Hc Hfull. unfold push, full, candidate_tail in *.
  destruct q as [b bs h t p c]; fields; subst c.
  change (7 + fuel)%nat with (S (S (S (S (S (S (S fuel))))))).
  do 2 exec. exec with step_PushNewTail by (apply umod_Some; lia).
  exec with step_PushCheckFull_full by done.
  do 3 exec. rewrite run_finished by done.
  reduce. rewrite Hfull, wrap_ll_sub.
  by replace (p + 2 - 2) with p by lia.
Qed.

Lemma push_claimed (q : queue) v fuel :
  wf q → _canUpdate q = true → ¬ full q →
  at_ (_isBusy q) (_tail q) = Some false →
  push (13 + fuel) q v =
    (Queue (<[Z.to_nat (_tail q) := v]> (_buffer q)) (_isBusy q) (_head q)
       (candidate_tail bufferSize q) (wrap_ll (_pendingData q + 1)) true,
     goto (Returned true)
       (set_keepTrying false
          (set_pushIndex (Some (_tail q))
             (set_newTail (candidate_tail bufferSize q) (call_push v))))).
Proof.
  intros [Hn Hb Hbs Hh Ht] Hc Hfull Hfree.
  unfold push, full, candidate_tail in *.
  destruct q as [b bs h t p c]; fields; subst c.
  destruct (at_is_Some b t) as [x Hx]; [lia|].
  destruct (at_is_Some (<[Z.to_nat t:=true]> bs) t) as [y Hy];
    [rewrite length_insert; lia|].
  change (13 + fuel)%nat
    with (S (S (S (S (S (S (S (S (S (S (S (S (S fuel))))))))))))).
  do 2 exec. exec with step_PushNewTail by (apply umod_Some; lia).
  exec with step_PushCheckFull_space by done.
  exec. exec with step_PushExchange by exact Hfree.
  do 4 exec. exec with step_PushWrite by (done || exact Hx).
  exec. exec with step_PushFree by (done || exact Hy).
  rewrite run_finished by done. reduce.
  rewrite list_insert_insert_eq, wrap_ll_sub.
  rewrite at_lookup in Hfree by lia. rewrite (list_insert_id _ _ _ Hfree).
  by replace (p + 2 - 1) with (p + 1) by lia.
Qed.

Lemma pop_empty (q : queue) x fuel :
  _canUpdate q = true → empty q →
  pop (5 + fuel) q x =
    (q, goto (Returned false) (set_keepTrying false (call_pop x))).
Proof.
  intros Hc He. unfold pop, empty in *.
  destruct q as [b bs h t p c]; fields; subst c t.
  change (5 + fuel)%nat with (S (S (S (S (S fuel))))).
  do 2 exec. exec with step_PopCheckEmpty_empty by done.
  do 2 exec. by rewrite run_finished.
Qed.

Lemma pop_claimed (q : queue) x v fuel :
  wf q → _canUpdate q = true → ¬ empty q →
  at_ (_isBusy q) (_head q) = Some false →
  at_ (_buffer q) (_head q) = Some v →
  pop (13 + fuel) q x =
    (Queue (_buffer q) (_isBusy q) ((_head q + 1) `mod` bufferSize) (_tail q)
       (wrap_ll (_pendingData q - 1)) true,
     goto (Returned true)
       (set_popedData v
          (set_keepTrying false
             (set_popIndex (Some (_head q)) (call_pop x))))).
Proof.
  intros [Hn Hb Hbs Hh Ht] Hc He Hfree Hv. unfold pop, empty in *.
  destruct q as [b bs h t p c]; fields; subst c.
  destruct (at_is_Some (<[Z.to_nat h:=true]> bs) h) as [y Hy];
    [rewrite length_insert; lia|].
  change (13 + fuel)%nat
    with (S (S (S (S (S (S (S (S (S (S (S (S (S fuel))))))))))))).
  do 2 exec. exec with step_PopCheckEmpty_data by done.
  exec. exec with step_PopExchange by exact Hfree.
  exec. exec with step_PopNewHead by (apply umod_Some; lia).
  do 3 exec. exec with step_PopRead by (done || exact Hv).
  exec. exec with step_PopFree by (done || exact Hy).
  rewrite run_finished by done. reduce.
  rewrite list_insert_insert_eq.
  rewrite at_lookup in Hfree by lia. rewrite (list_insert_id _ _ _ Hfree).
  rewrite wrap_size_id by lia. done.
Qed.


Lemma insert_true_id (bs : list bool) i :
  at_ bs i = Some true → <[Z.to_nat i := true]> bs = bs.
Proof.
  intros H. pose proof (at_Some_range _ _ _ H).
  rewrite at_lookup in H by lia. by apply list_insert_id.
Qed.



(** *** The critical section of [push] and of [pop] *)

Lemma push_critical_section (q : queue) (t : thread) :
  wf q → pc t = PushNewTail →
  critical_section bufferSize q t =
    if decide (candidate_tail bufferSize q = _head q) then
      (q, goto PushRelease
            (set_keepTrying false
               (set_newTail (candidate_tail bufferSize q) t)))
    else
      match at_ (_isBusy q) (_tail q) with
      | Some false =>
          (set_tail (candidate_tail bufferSize q)
             (set_isBusy (<[Z.to_nat (_tail q) := true]> (_isBusy q)) q),
           goto PushRelease
             (set_keepTrying false
                (set_pushIndex (Some (_tail q))
                   (set_newTail (candidate_tail bufferSize q) t))))
      | _ =>
          (q, goto PushRelease (set_newTail (candidate_tail bufferSize q) t))
      end.
Proof.
  intros [Hn Hb Hbs Hh Ht] Hpc. unfold critical_section, candidate_tail.
  destruct (at_is_Some (_isBusy q) (_tail q)) as [old Hold]; [lia|].
  rewrite Hold.
  destruct q as [b bs h tl p c], t as [l a x n k d i j]; fields.
  cbn [pc] in Hpc. subst l.
  exec with step_PushNewTail by (apply umod_Some; lia).
  destruct (decide (_ = h)) as [E|E].
  - exec with step_PushCheckFull_full by done.
    by rewrite run_finished.
  - exec with step_PushCheckFull_space by done.
    exec. exec with step_PushExchange by exact Hold.
    destruct old.
    + rewrite run_finished by done. reduce.
      by rewrite (insert_true_id _ _ Hold).
    + do 2 exec. by rewrite run_finished.
Qed.

Lemma pop_critical_section (q : queue) (t : thread) :
  wf q → pc t = PopLoadHead →
  critical_section bufferSize q t =
    if decide (_head q = _tail q) then
      (q, goto PopRelease (set_keepTrying false t))
    else
      match at_ (_isBusy q) (_head q) with
      | Some false =>
          (set_head ((_head q + 1) `mod` bufferSize)
             (set_isBusy (<[Z.to_nat (_head q) := true]> (_isBusy q)) q),
           goto PopRelease
             (set_keepTrying false (set_popIndex (Some (_head q)) t)))
      | _ => (q, goto PopRelease t)
      end.
Proof.
  intros [Hn Hb Hbs Hh Ht] Hpc. unfold critical_section.
  destruct (at_is_Some (_isBusy q) (_head q)) as [old Hold]; [lia|].
  rewrite Hold.
  destruct q as [b bs h tl p c], t as [l a x n k d i j]; fields.
  cbn [pc] in Hpc. subst l.
  exec. destruct (decide (h = tl)) as [E|E].
  - exec with step_PopCheckEmpty_empty by done.
    by rewrite run_finished.
  - exec with step_PopCheckEmpty_data by done.
    exec. exec with step_PopExchange by exact Hold.
    destruct old.
    + rewrite run_finished by done. reduce.
      by rewrite (insert_true_id _ _ Hold).
    + exec. exec with step_PopNewHead by (apply umod_Some; lia).
      exec. rewrite run_finished by done. reduce.
      by rewrite wrap_size_id by lia.
Qed.

(** *** The ring between two calls *)

Lemma omap_ext_Forall {A B} (f g : A → option B) (l : list A) :
  Forall (λ a, f a = g a) l → omap f l = omap g l.
Proof. induction 1 as [|a l E _ IH]; [done|]. cbn. by rewrite E, IH. Qed.

Lemma length_omap_Forall {A B} (f : A → option B) (l : list A) :
  Forall (λ a, is_Some (f a)) l → length (omap f l) = length l.
Proof.
  induction 1 as [|a l [b E] _ IH]; [done|]. cbn. rewrite E. cbn.
  by rewrite IH.
Qed.

Lemma filter_Forall {A} (P : A → Prop) `{∀ a, Decision (P a)} (l : list A) :
  Forall P l → filter P l = l.
Proof.
  induction 1 as [|a l HP _ IH]; [done|].
  rewrite filter_cons_True by done. by rewrite IH.
Qed.

Lemma occupancy_range (q : queue) :
  wf q → 0 ≤ occupancy bufferSize q < bufferSize.
Proof. intros [Hn _ _ _ _]. unfold occupancy. apply Z.mod_pos_bound. lia. Qed.

Lemma full_occupancy (q : queue) :
  wf q → full q ↔ occupancy bufferSize q = bufferSize - 1.
Proof.
  intros Hwf. unfold BusyQueue.full. rewrite candidate_tail_eq by done.
  destruct Hwf as [Hn _ _ Hh Ht]. unfold occupancy. apply ring_full; lia.
Qed.

Lemma empty_occupancy (q : queue) :
  wf q → empty q ↔ occupancy bufferSize q = 0.
Proof.
  intros [Hn _ _ Hh Ht]. unfold empty, occupancy. apply ring_empty; lia.
Qed.

Lemma ring_slots_range (q : queue) :
  wf q → Forall (λ i, 0 ≤ i < bufferSize) (ring_slots bufferSize q).
Proof.
  intros [Hn _ _ _ _]. unfold ring_slots. apply Forall_fmap, Forall_forall.
  intros k _. cbn. apply Z.mod_pos_bound. lia.
Qed.

(** The slot at [_tail] is outside the ring. *)
Lemma ring_slots_tail (q : queue) :
  wf q → Forall (λ i, i ≠ _tail q) (ring_slots bufferSize q).
Proof.
  intros [Hn _ _ Hh Ht]. unfold ring_slots, occupancy.
  apply Forall_fmap, Forall_forall. intros k Hk%elem_of_seqZ. cbn.
  intros E. assert ((_tail q - _head q) `mod` bufferSize = k) as Ek; [|lia].
  rewrite <- E, Zminus_mod_idemp_l.
  replace (_head q + k - _head q) with k by lia.
  apply Z.mod_small.
  pose proof (Z.mod_pos_bound (_tail q - _head q) bufferSize). lia.
Qed.

Lemma ring_slots_push (q : queue) :
  wf q → ¬ full q →
  ring_slots bufferSize (set_tail (candidate_tail bufferSize q) q) =
    ring_slots bufferSize q ++ [_tail q].
Proof.
  intros Hwf Hfull. pose proof (occupancy_range q Hwf) as Hocc.
  unfold BusyQueue.full in Hfull. rewrite candidate_tail_eq in * by done.
  destruct Hwf as [Hn _ _ Hh Ht]. unfold ring_slots, occupancy in *.
  cbn [_head _tail set_tail].
  rewrite ring_succ by lia.
  rewrite seqZ_app by lia. rewrite fmap_app. f_equal.
  rewrite seqZ_cons, seqZ_nil by lia. cbn. f_equal.
  rewrite Z.add_0_l. apply ring_tail; lia.
Qed.

Lemma ring_slots_pop (q : queue) :
  wf q → ¬ empty q →
  ring_slots bufferSize q =
    _head q :: ring_slots bufferSize
                 (set_head ((_head q + 1) `mod` bufferSize) q).
Proof.
  intros Hwf Hne. pose proof (occupancy_range q Hwf) as Hocc.
  rewrite empty_occupancy in Hne by done.
  destruct Hwf as [Hn _ _ Hh Ht]. unfold ring_slots, occupancy, empty in *.
  cbn [_head _tail set_head].
  rewrite ring_pred by (try lia; intros E; apply Hne; apply ring_empty; lia).
  rewrite seqZ_cons by lia. cbn. f_equal.
  - rewrite Z.add_0_r. apply Z.mod_small. lia.
  - rewrite <- (fmap_add_seqZ 1 0), <- list_fmap_compose.
    replace (Z.pred ((_tail q - _head q) `mod` bufferSize))
      with ((_tail q - _head q) `mod` bufferSize - 1) by lia.
    apply list_fmap_ext. intros _ k _. cbn.
    rewrite Zplus_mod_idemp_l. f_equal. lia.
Qed.

Lemma idle_init : 0 < bufferSize < 2 ^ 63 → idle bufferSize (init bufferSize value_init).
Proof.
  intros Hn. split; [split | | |]; cbn; try done; try lia.
  all: try by rewrite length_replicate.
  intros i Hi. rewrite at_lookup by lia. apply lookup_replicate_2. lia.
Qed.

Lemma contents_init :
  0 < bufferSize → contents bufferSize (init bufferSize value_init) = [].
Proof.
  intros Hn. unfold contents, ring_slots, occupancy. cbn.
  by rewrite Z.mod_0_l by lia.
Qed.


Lemma committed_idle (q : queue) :
  idle bufferSize q → committed bufferSize q = occupancy bufferSize q.
Proof.
  intros [Hwf _ Hbusy _]. pose proof (occupancy_range q Hwf).
  unfold committed. rewrite filter_Forall.
  - unfold ring_slots. rewrite length_fmap, length_seqZ. lia.
  - eapply Forall_impl; [by apply ring_slots_range|]. cbn. auto.
Qed.

Lemma length_contents (q : queue) :
  wf q → Z.of_nat (length (contents bufferSize q)) = occupancy bufferSize q.
Proof.
  intros Hwf. pose proof (occupancy_range q Hwf). unfold contents.
  rewrite length_omap_Forall.
  - unfold ring_slots. rewrite length_fmap, length_seqZ. lia.
  - eapply Forall_impl; [by apply ring_slots_range|]. cbn.
    intros i Hi. apply at_is_Some. destruct Hwf. lia.
Qed.

(** *** One call on an idle queue *)

Lemma push_idle_full (q : queue) v fuel :
  idle bufferSize q → occupancy bufferSize q = bufferSize - 1 →
  ∃ t', push (7 + fuel) q v = (q, t') ∧ result t' = Some false ∧
        sleepDuration t' = sleepDurationStart.
Proof.
  intros [Hwf Hc Hbusy Hp] Hocc. eexists. split.
  - rewrite push_full by (done || by apply full_occupancy).
    f_equal. destruct q as [b bs h t p c]; fields. unfold set_pendingData.
    cbn. f_equal. pose proof (occupancy_range _ Hwf). destruct Hwf.
    apply wrap_ll_id. cbn in *. lia.
  - done.
Qed.

Lemma push_idle_space (q : queue) v fuel :
  idle bufferSize q → occupancy bufferSize q ≠ bufferSize - 1 →
  ∃ q' t', push (13 + fuel) q v = (q', t') ∧ result t' = Some true ∧
           idle bufferSize q' ∧
           contents bufferSize q' = contents bufferSize q ++ [v].
Proof.
  intros [Hwf Hc Hbusy Hp] Hocc.
  assert (¬ full q) as Hfull by by rewrite full_occupancy.
  pose proof (occupancy_range _ Hwf) as Hr.
  pose proof (ring_slots_push q Hwf Hfull) as Hslots.
  pose proof (ring_slots_tail q Hwf) as Htail.
  pose proof (ring_slots_range q Hwf) as Hrange.
  do 2 eexists. split.
  { apply push_claimed; try done. apply Hbusy. by destruct Hwf. }
  split; [done|].
  unfold BusyQueue.full in Hfull. rewrite candidate_tail_eq in * by done.
  destruct Hwf as [Hn Hb Hbs Hh Ht].
  destruct q as [b bs h t p c]; fields. subst c. split.
  - split; [split| | |]; cbn; try done.
    + by rewrite length_insert.
    + apply Z.mod_pos_bound. lia.
    + unfold occupancy in *. cbn in *. rewrite ring_succ by lia.
      rewrite Hp. apply wrap_ll_id. lia.
  - unfold contents.
    change (ring_slots bufferSize (Queue (<[Z.to_nat t:=v]> b) bs h
              ((t + 1) `mod` bufferSize) (wrap_ll (p + 1)) true))
      with (ring_slots bufferSize (set_tail ((t + 1) `mod` bufferSize)
              (Queue b bs h t p true))).
    rewrite Hslots. cbn [_buffer _tail]. rewrite omap_app. f_equal.
    + apply omap_ext_Forall.
      eapply Forall_impl; [apply Forall_and; split; [exact Htail|exact Hrange]|].
      cbn. intros i [Hi1 Hi2]. rewrite !at_lookup by lia.
      apply list_lookup_insert_ne. lia.
    + cbn. rewrite at_lookup by lia.
      rewrite list_lookup_insert_eq by lia. done.
Qed.

Lemma pop_idle_empty (q : queue) x fuel :
  idle bufferSize q → contents bufferSize q = [] →
  ∃ t', pop (5 + fuel) q x = (q, t') ∧ result t' = Some false ∧
        popedData t' = x.
Proof.
  intros [Hwf Hc Hbusy Hp] Hnil.
  exists (goto (Returned false) (set_keepTrying false (call_pop x))).
  split; [|done].
  apply pop_empty; [done|]. apply empty_occupancy; [done|].
  rewrite <- length_contents by done. by rewrite Hnil.

Qed.

Lemma pop_idle_data (q : queue) x y l fuel :
  idle bufferSize q → contents bufferSize q = y :: l →
  ∃ q' t', pop (13 + fuel) q x = (q', t') ∧ result t' = Some true ∧
           popedData t' = y ∧ idle bufferSize q' ∧
           contents bufferSize q' = l.
Proof.
  intros [Hwf Hc Hbusy Hp] Hcons.
  assert (¬ empty q) as Hne.
  { rewrite empty_occupancy, <- length_contents by done. by rewrite Hcons. }
  pose proof (occupancy_range _ Hwf) as Hr.
  pose proof (ring_slots_pop q Hwf Hne) as Hslots.
  unfold contents in Hcons. rewrite Hslots in Hcons.
  destruct (at_is_Some (_buffer q) (_head q)) as [v Hv];
    [destruct Hwf; lia|].
  cbn in Hcons. rewrite Hv in Hcons. cbn in Hcons.
  injection Hcons as -> Hl.
  do 2 eexists. split.
  { apply pop_claimed; try done. apply Hbusy. by destruct Hwf. }
  split; [done|]. split; [done|].
  destruct Hwf as [Hn Hb Hbs Hh Ht].
  destruct q as [b bs h t p c]; fields. subst c. split; [|done].
  split; [split| | |]; cbn; try done.
  - apply Z.mod_pos_bound. lia.
  - unfold occupancy, empty in *. cbn in *. rewrite ring_pred by lia.
    rewrite Hp. apply wrap_ll_id. lia.
Qed.

(** *** Calls in sequence behave as the first-in first-out store *)
Lemma perform_idle (q : queue) o fuel :
  idle bufferSize q → (13 ≤ fuel)%nat →
  idle bufferSize (perform bufferSize value_init fuel q o).1 ∧
  contents bufferSize (perform bufferSize value_init fuel q o).1 =
    (fifo_perform bufferSize value_init (contents bufferSize q) o).1 ∧
  (perform bufferSize value_init fuel q o).2 =
    (fifo_perform bufferSize value_init (contents bufferSize q) o).2.
Proof.
  intros Hidle Hfuel. pose proof (idle_wf _ _ Hidle) as Hwf.
  destruct o as [v|]; cbn [perform fifo_perform].
  - rewrite length_contents by done.
    destruct (decide (_ < _)) as [Hlt|Hge].
    + replace fuel with (13 + (fuel - 13))%nat by lia.
      destruct (push_idle_space q v (fuel - 13) Hidle) as (q' & t' & E & ? & ? & ?);
        [lia|].
      rewrite E. cbn. by rewrite H.
    + replace fuel with (7 + (fuel - 7))%nat by lia.
      pose proof (occupancy_range _ Hwf).
      destruct (push_idle_full q v (fuel - 7) Hidle) as (t' & E & ? & ?);
        [lia|].
      rewrite E. cbn. by rewrite H0.
  - destruct (contents bufferSize q) as [|y l] eqn:Hc.
    + replace fuel with (5 + (fuel - 5))%nat by lia.
      destruct (pop_idle_empty q value_init (fuel - 5) Hidle Hc)
        as (t' & E & ? & ?).
      rewrite E. cbn. by rewrite H, H0.
    + replace fuel with (13 + (fuel - 13))%nat by lia.
      destruct (pop_idle_data q value_init y l (fuel - 13) Hidle Hc)
        as (q' & t' & E & ? & ? & ? & ?).
      rewrite E. cbn. by rewrite H, H0.
Qed.

Lemma perform_all_idle (q : queue) os fuel :
  idle bufferSize q → (13 ≤ fuel)%nat →
  idle bufferSize (perform_all bufferSize value_init fuel q os).1 ∧
  contents bufferSize (perform_all bufferSize value_init fuel q os).1 =
    (fifo_perform_all bufferSize value_init (contents bufferSize q) os).1 ∧
  (perform_all bufferSize value_init fuel q os).2 =
    (fifo_perform_all bufferSize value_init (contents bufferSize q) os).2.
Proof.
  intros Hidle Hfuel. revert q Hidle.
  induction os as [|o os IH]; intros q Hidle; [done|].
  cbn [perform_all fifo_perform_all].
  destruct (perform_idle q o fuel Hidle Hfuel) as (Hi & Hc & Hr).
  destruct (perform bufferSize value_init fuel q o) as [q1 r].
  destruct (fifo_perform bufferSize value_init (contents bufferSize q) o)
    as [l1 r'].
  cbn [fst snd] in *. subst r'.
  destruct (IH q1 Hi) as (Hi2 & Hc2 & Hr2). rewrite Hc in *.
  destruct (perform_all bufferSize value_init fuel q1 os) as [q2 rs].
  destruct (fifo_perform_all bufferSize value_init l1 os) as [l2 rs'].
  cbn [fst snd] in *. by subst.
Qed.

End Sequential.

(** ** src/include/LockFreeQueue.h, first revision: interleaved calls *)
Section Concurrent.
Context {QueueItemT : Type} (bufferSize : Z) (value_init : QueueItemT).
Local Abbreviation queue := (@queue QueueItemT).
Local Abbreviation thread := (@thread QueueItemT).
Local Abbreviation step := (step bufferSize).
Local Abbreviation wf := (wf bufferSize).
Local Abbreviation inv := (inv bufferSize).
Local Abbreviation cs_ok := (cs_ok bufferSize).
Local Abbreviation call_push := (call_push value_init).
Local Abbreviation call_pop := (call_pop value_init).

(** *** Sums over the calls *)

Lemma sumZ_cons {A} (f : A → Z) a l : sumZ f (a :: l) = f a + sumZ f l.
Proof. reflexivity. Qed.

Lemma sumZ_app {A} (f : A → Z) l1 l2 :
  sumZ f (l1 ++ l2) = sumZ f l1 + sumZ f l2.
Proof.
  induction l1 as [|a l1 IH]; [done|].
  rewrite <- app_comm_cons, !sumZ_cons, IH. lia.
Qed.

Lemma sumZ_Permutation {A} (f : A → Z) l1 l2 :
  l1 ≡ₚ l2 → sumZ f l1 = sumZ f l2.
Proof. induction 1; rewrite ?sumZ_cons; lia. Qed.

Lemma sumZ_ext {A} (f g : A → Z) l :
  Forall (λ a, f a = g a) l → sumZ f l = sumZ g l.
Proof.
  induction 1 as [|a l E _ IH]; [done|]. by rewrite !sumZ_cons, E, IH.
Qed.

Lemma sumZ_nonneg {A} (f : A → Z) l : (∀ a, 0 ≤ f a) → 0 ≤ sumZ f l.
Proof.
  intros Hf. induction l as [|a l IH]; [done|].
  rewrite sumZ_cons. specialize (Hf a). lia.
Qed.

Lemma sumZ_zero {A} (f : A → Z) l :
  Forall (λ a, f a = 0) l → sumZ f l = 0.
Proof.
  induction 1 as [|a l E _ IH]; [done|]. by rewrite sumZ_cons, E, IH.
Qed.

Lemma sumZ_zero_inv {A} (f : A → Z) l :
  (∀ a, 0 ≤ f a) → sumZ f l = 0 → Forall (λ a, f a = 0) l.
Proof.
  intros Hf. induction l as [|a l IH]; [done|].
  rewrite sumZ_cons. intros Hs.
  pose proof (Hf a). pose proof (sumZ_nonneg f l Hf).
  constructor; [lia|]. apply IH. lia.
Qed.

Lemma in_cs_range (t : thread) : 0 ≤ in_cs t ≤ 1.
Proof. unfold in_cs. destruct (pc t); lia. Qed.

Lemma holding_range (q : queue) i (t : thread) : 0 ≤ holding q i t ≤ 1.
Proof. unfold holding. destruct (decide _); lia. Qed.

(** *** What a step of one call leaves to the others *)

(** Outside the critical section a call neither reads nor writes the
    indices. *)
Lemma step_keeps_indices (q : queue) (t : thread) :
  in_cs t = 0 →
  _head (step q t).1 = _head q ∧ _tail (step q t).1 = _tail q.
Proof.
  destruct t as [l a b n k d i j]. unfold in_cs, BusyQueue.step. cbn [pc].
  destruct l; try done; intros _; cbn;
    repeat (match goal with
            | |- context [match ?x with _ => _ end] => destruct x
            end; cbn); done.
Qed.

Lemma holds_outside_cs (q q' : queue) (u : thread) :
  in_cs u = 0 → holds q' u = holds q u.
Proof. unfold in_cs, holds. by destruct (pc u). Qed.

Lemma cs_ok_outside_cs (q : queue) (u : thread) : in_cs u = 0 → cs_ok q u.
Proof. unfold in_cs, BusyQueue.cs_ok. by destruct (pc u). Qed.

Lemma holds_indices (q q' : queue) (u : thread) :
  _head q' = _head q → _tail q' = _tail q → holds q' u = holds q u.
Proof. intros Hh Ht. unfold holds. by rewrite Hh, Ht. Qed.

Lemma cs_ok_indices (q q' : queue) (u : thread) :
  _head q' = _head q → _tail q' = _tail q → cs_ok q u → cs_ok q' u.
Proof.
  intros Hh Ht. unfold BusyQueue.cs_ok, candidate_tail. by rewrite Hh, Ht.
Qed.

(** Only one call is inside the critical section. *)
Lemma mutex_others (q : queue) (t : thread) (o : list thread) :
  inv q (t :: o) → in_cs t = 1 → Forall (λ u, in_cs u = 0) o.
Proof.
  intros Hinv Ht. pose proof (inv_mutex _ _ _ Hinv) as Hm.
  rewrite sumZ_cons in Hm.
  assert (∀ u : thread, 0 ≤ in_cs u) as Hge
    by (intros u; pose proof (in_cs_range u); lia).
  apply sumZ_zero_inv; [done|].
  pose proof (sumZ_nonneg in_cs o Hge). destruct (_canUpdate q); lia.
Qed.

Lemma step_frame (q : queue) (t : thread) (o : list thread) :
  inv q (t :: o) →
  Forall (λ u, holds (step q t).1 u = holds q u ∧ cs_ok (step q t).1 u) o.
Proof.
  intros Hinv. pose proof (in_cs_range t) as Hr.
  destruct (decide (in_cs t = 1)) as [E|E].
  - eapply Forall_impl; [by eapply mutex_others|]. cbn. intros u Hu.
    split; [by apply holds_outside_cs | by apply cs_ok_outside_cs].
  - destruct (step_keeps_indices q t) as [Hh Ht]; [lia|].
    pose proof (inv_cs _ _ _ Hinv) as Hcs. apply Forall_cons in Hcs as [_ Hcs].
    eapply Forall_impl; [exact Hcs|]. cbn. intros u Hu.
    split; [by apply holds_indices | by apply cs_ok_indices with q].
Qed.

Lemma holding_indices (q q' : queue) i (o : list thread) :
  _head q' = _head q → _tail q' = _tail q →
  sumZ (holding q' i) o = sumZ (holding q i) o.
Proof.
  intros Hh Ht. apply sumZ_ext, Forall_forall. intros u _.
  unfold holding. by rewrite (holds_indices q q' u Hh Ht).
Qed.

Lemma holding_outside_cs (q q' : queue) i (o : list thread) :
  Forall (λ u, in_cs u = 0) o →
  sumZ (holding q' i) o = sumZ (holding q i) o.
Proof.
  intros Ho. apply sumZ_ext. eapply Forall_impl; [exact Ho|]. cbn.
  intros u Hu. unfold holding. by rewrite (holds_outside_cs q q' u Hu).
Qed.

Lemma occupancy_indices (q q' : queue) :
  _head q' = _head q → _tail q' = _tail q →
  occupancy bufferSize q' = occupancy bufferSize q.
Proof. intros Hh Ht. unfold occupancy. by rewrite Hh, Ht. Qed.

Lemma inv_wrapped (q : queue) (l : list thread) :
  inv q l → wrap_ll (_pendingData q) = _pendingData q.
Proof.
  intros Hinv. rewrite (inv_counter _ _ _ Hinv) at 2.
  rewrite (inv_counter _ _ _ Hinv). generalize (occupancy bufferSize q + sumZ surplus l).
  intros x. unfold wrap_ll.
  pose proof (Z.mod_pos_bound (x + 2 ^ 63) (2 ^ 64)).
  replace ((x + 2 ^ 63) `mod` 2 ^ 64 - 2 ^ 63 + 2 ^ 63)
    with ((x + 2 ^ 63) `mod` 2 ^ 64) by lia.
  by rewrite Z.mod_mod.
Qed.

(** *** The effects a step can have *)

(** A step that writes neither a flag of a slot nor an index. *)
Lemma inv_update (q q' : queue) (t t' : thread) (o : list thread) :
  inv q (t :: o) →
  length (_buffer q') = length (_buffer q) →
  _isBusy q' = _isBusy q → _head q' = _head q → _tail q' = _tail q →
  local_ok t' → cs_ok q' t' → holds q' t' = holds q t →
  in_cs t' + sumZ in_cs o = (if _canUpdate q' then 0 else 1) →
  _pendingData q' = wrap_ll (_pendingData q + (surplus t' - surplus t)) →
  inv q' (t' :: o).
Proof.
  intros [Hwf Hloc Hcs Hrg Hmx Hhold Hcnt] Eb Ebs Eh Et Hl' Hc' Hh' Hm' Hp'.
  apply Forall_cons in Hloc as [_ Hloc], Hcs as [_ Hcs], Hrg as [Hrt Hrg].
  split.
  - destruct Hwf. split; congruence.
  - by constructor.
  - constructor; [done|]. eapply Forall_impl; [exact Hcs|]. cbn.
    intros u. by apply cs_ok_indices.
  - constructor; [by rewrite Hh'|]. eapply Forall_impl; [exact Hrg|]. cbn.
    intros u Hu i. rewrite (holds_indices q q' u Eh Et). apply Hu.
  - by rewrite sumZ_cons.
  - intros i Hi. specialize (Hhold i Hi). rewrite sumZ_cons in *.
    rewrite Ebs, (holding_indices q q' i o Eh Et).
    assert (holding q' i t' = holding q i t) as ->
      by (unfold holding; by rewrite Hh').
    exact Hhold.
  - rewrite sumZ_cons in *. rewrite Hp', Hcnt, wrap_ll_add.
    rewrite (occupancy_indices q q' Eh Et). f_equal. lia.
Qed.

(** A step that claims the free slot [i]. *)
Lemma inv_claim_slot (q : queue) (t t' : thread) (o : list thread) i :
  inv q (t :: o) →
  0 ≤ i < bufferSize → at_ (_isBusy q) i = Some false →
  holds q t = None → holds q t' = Some i →
  local_ok t' → cs_ok q t' → in_cs t' = in_cs t → surplus t' = surplus t →
  inv (set_isBusy (<[Z.to_nat i := true]> (_isBusy q)) q) (t' :: o).
Proof.
  intros Hinv Hi Hfree Hh Hh' Hl' Hc' Hm' Hs'.
  pose proof (inv_wrapped _ _ Hinv) as Hw.
  destruct Hinv as [Hwf Hloc Hcs Hrg Hmx Hhold Hcnt].
  apply Forall_cons in Hloc as [_ Hloc], Hcs as [_ Hcs], Hrg as [Hrt Hrg].
  set (q' := set_isBusy _ q).
  assert (_head q' = _head q ∧ _tail q' = _tail q) as [Eh Et] by done.
  split.
  - destruct Hwf. split; try done. cbn. by rewrite length_insert.
  - by constructor.
  - constructor; [by apply cs_ok_indices with q|].
    eapply Forall_impl; [exact Hcs|]. cbn. intros u. by apply cs_ok_indices.
  - constructor.
    + intros j. rewrite (holds_indices q q' t' Eh Et), Hh'. by intros [= <-].
    + eapply Forall_impl; [exact Hrg|]. cbn.
      intros u Hu j. rewrite (holds_indices q q' u Eh Et). apply Hu.
  - rewrite sumZ_cons in *. by rewrite Hm'.
  - intros j Hj. pose proof (Hhold j Hj) as [Hb Hr]. rewrite sumZ_cons in *.
    rewrite (holding_indices q q' j o Eh Et).
    assert (holding q j t = 0) as E0
      by (unfold holding; rewrite Hh; by rewrite decide_False).
    assert (holding q' j t' = if decide (j = i) then 1 else 0) as E1.
    { unfold holding. rewrite (holds_indices q q' t' Eh Et), Hh'.
      destruct (decide (j = i)) as [->|];
        [by rewrite decide_True | by rewrite decide_False by congruence]. }
    rewrite E0 in Hb, Hr. rewrite E1.
    cbn [_isBusy q' set_isBusy]. destruct Hwf.
    destruct (decide (j = i)) as [->|Hne].
    + rewrite Hfree in Hb.
      injection Hb as Hb. symmetry in Hb. apply bool_decide_eq_false in Hb.
      rewrite at_lookup, list_lookup_insert_eq by lia.
      split; [|lia]. f_equal. symmetry. apply bool_decide_eq_true. lia.
    + rewrite at_lookup, list_lookup_insert_ne by lia.
      by rewrite <- at_lookup by lia.
  - rewrite sumZ_cons in *. cbn [_pendingData q' set_isBusy].
    rewrite (occupancy_indices q q' Eh Et), Hs'. exact Hcnt.
Qed.

(** A step that gives the slot [i] back. *)
Lemma inv_free_slot (q : queue) (t t' : thread) (o : list thread) i :
  inv q (t :: o) →
  holds q t = Some i → holds q t' = None →
  local_ok t' → cs_ok q t' → in_cs t' = in_cs t → surplus t' = surplus t →
  inv (set_isBusy (<[Z.to_nat i := false]> (_isBusy q)) q) (t' :: o).
Proof.
  intros Hinv Hh Hh' Hl' Hc' Hm' Hs'.
  destruct Hinv as [Hwf Hloc Hcs Hrg Hmx Hhold Hcnt].
  apply Forall_cons in Hloc as [_ Hloc], Hcs as [_ Hcs], Hrg as [Hrt Hrg].
  pose proof (Hrt i Hh) as Hi.
  set (q' := set_isBusy _ q).
  assert (_head q' = _head q ∧ _tail q' = _tail q) as [Eh Et] by done.
  split.
  - destruct Hwf. split; try done. cbn. by rewrite length_insert.
  - by constructor.
  - constructor; [by apply cs_ok_indices with q|].
    eapply Forall_impl; [exact Hcs|]. cbn. intros u. by apply cs_ok_indices.
  - constructor.
    + intros j. by rewrite (holds_indices q q' t' Eh Et), Hh'.
    + eapply Forall_impl; [exact Hrg|]. cbn.
      intros u Hu j. rewrite (holds_indices q q' u Eh Et). apply Hu.
  - rewrite sumZ_cons in *. by rewrite Hm'.
  - intros j Hj. pose proof (Hhold j Hj) as [Hb Hr]. rewrite sumZ_cons in *.
    rewrite (holding_indices q q' j o Eh Et).
    assert (holding q' j t' = 0) as E0.
    { unfold holding. rewrite (holds_indices q q' t' Eh Et), Hh'.
      by rewrite decide_False. }
    assert (holding q j t = if decide (j = i) then 1 else 0) as E1.
    { unfold holding. rewrite Hh.
      destruct (decide (j = i)) as [->|];
        [by rewrite decide_True | by rewrite decide_False by congruence]. }
    rewrite E1 in Hb, Hr. rewrite E0.
    cbn [_isBusy q' set_isBusy]. destruct Hwf.
    pose proof (holding_range q j) as Hge.
    assert (0 ≤ sumZ (holding q j) o) as Hge'
      by (apply sumZ_nonneg; intros u; specialize (Hge u); lia).
    destruct (decide (j = i)) as [->|Hne].
    + rewrite at_lookup, list_lookup_insert_eq by lia.
      split; [|lia]. f_equal. symmetry. apply bool_decide_eq_false. lia.
    + rewrite at_lookup, list_lookup_insert_ne by lia.
      by rewrite <- at_lookup by lia.
  - rewrite sumZ_cons in *. cbn [_pendingData q' set_isBusy].
    rewrite (occupancy_indices q q' Eh Et), Hs'. exact Hcnt.
Qed.

(** The step that moves [_tail] over the slot just claimed. *)
Lemma inv_store_tail (q : queue) (t t' : thread) (o : list thread) :
  inv q (t :: o) → in_cs t = 1 → candidate_tail bufferSize q ≠ _head q →
  local_ok t' → cs_ok (set_tail (candidate_tail bufferSize q) q) t' →
  holds (set_tail (candidate_tail bufferSize q) q) t' = holds q t →
  in_cs t' = 1 → surplus t' = surplus t - 1 →
  inv (set_tail (candidate_tail bufferSize q) q) (t' :: o).
Proof.
  intros Hinv Hin Hne Hl' Hc' Hh' Hm' Hs'.
  pose proof (mutex_others q t o Hinv Hin) as Hout.
  destruct Hinv as [Hwf Hloc Hcs Hrg Hmx Hhold Hcnt].
  apply Forall_cons in Hloc as [_ Hloc], Hcs as [_ Hcs], Hrg as [Hrt Hrg].
  rewrite candidate_tail_eq in * by done.
  set (q' := set_tail _ q) in *. split.
  - destruct Hwf. split; try done. cbn. apply Z.mod_pos_bound. lia.
  - by constructor.
  - constructor; [done|]. eapply Forall_impl; [exact Hout|]. cbn.
    intros u. apply cs_ok_outside_cs.
  - constructor; [by rewrite Hh'|].
    eapply Forall_impl;
      [apply Forall_and; split; [exact Hout|exact Hrg]|]. cbn.
    intros u [Hu1 Hu2] i. rewrite (holds_outside_cs q q' u Hu1). apply Hu2.
  - rewrite sumZ_cons in *. rewrite Hm'. rewrite Hin in Hmx. exact Hmx.
  - intros i Hi. specialize (Hhold i Hi). rewrite sumZ_cons in *.
    rewrite (holding_outside_cs q q' i o Hout).
    assert (holding q' i t' = holding q i t) as ->
      by (unfold holding; by rewrite Hh').
    exact Hhold.
  - rewrite sumZ_cons in *. cbn [_pendingData q' set_tail]. rewrite Hcnt, Hs'.
    f_equal. unfold occupancy. cbn [_head _tail q' set_tail].
    destruct Hwf. rewrite ring_succ by lia. lia.
Qed.

(** The step that moves [_head] over the slot just claimed. *)
Lemma inv_store_head (q : queue) (t t' : thread) (o : list thread) :
  inv q (t :: o) → in_cs t = 1 → _head q ≠ _tail q →
  local_ok t' →
  cs_ok (set_head ((_head q + 1) `mod` bufferSize) q) t' →
  holds (set_head ((_head q + 1) `mod` bufferSize) q) t' = holds q t →
  in_cs t' = 1 → surplus t' = surplus t + 1 →
  inv (set_head ((_head q + 1) `mod` bufferSize) q) (t' :: o).
Proof.
  intros Hinv Hin Hne Hl' Hc' Hh' Hm' Hs'.
  pose proof (mutex_others q t o Hinv Hin) as Hout.
  destruct Hinv as [Hwf Hloc Hcs Hrg Hmx Hhold Hcnt].
  apply Forall_cons in Hloc as [_ Hloc], Hcs as [_ Hcs], Hrg as [Hrt Hrg].
  set (q' := set_head _ q) in *. split.
  - destruct Hwf. split; try done. cbn. apply Z.mod_pos_bound. lia.
  - by constructor.
  - constructor; [done|]. eapply Forall_impl; [exact Hout|]. cbn.
    intros u. apply cs_ok_outside_cs.
  - constructor; [by rewrite Hh'|].
    eapply Forall_impl;
      [apply Forall_and; split; [exact Hout|exact Hrg]|]. cbn.
    intros u [Hu1 Hu2] i. rewrite (holds_outside_cs q q' u Hu1). apply Hu2.
  - rewrite sumZ_cons in *. rewrite Hm'. rewrite Hin in Hmx. exact Hmx.
  - intros i Hi. specialize (Hhold i Hi). rewrite sumZ_cons in *.
    rewrite (holding_outside_cs q q' i o Hout).
    assert (holding q' i t' = holding q i t) as ->
      by (unfold holding; by rewrite Hh').
    exact Hhold.
  - rewrite sumZ_cons in *. cbn [_pendingData q' set_head]. rewrite Hcnt, Hs'.
    f_equal. unfold occupancy. cbn [_head _tail q' set_head].
    destruct Hwf. rewrite ring_pred by lia. lia.
Qed.

Ltac side :=
  cbn [step pc bufferItem popedData newTail keepTrying sleepDuration
       pushIndex popIndex goto set_popedData set_newTail set_keepTrying
       set_sleepDuration set_pushIndex set_popIndex _buffer _isBusy _head
       _tail _pendingData _canUpdate set_buffer set_isBusy set_head set_tail
       set_pendingData set_canUpdate fst snd local_ok BusyQueue.cs_ok holds
       in_cs surplus] in *;
  try done; try lia; try tauto;
  try (by apply length_insert);
  try (by intuition (first [done | lia | by eexists]));
  try match goal with
      | Hw : wrap_ll ?p = ?p |- ?p = wrap_ll _ =>
          rewrite <- Hw at 1; f_equal; lia
      | |- wrap_ll _ = wrap_ll _ => f_equal; lia
      end.

(** *** Every step keeps the invariant *)
Lemma inv_step_head (q : queue) (t : thread) (o : list thread) :
  inv q (t :: o) → inv (step q t).1 ((step q t).2 :: o).
Proof.
  intros Hinv.
  pose proof (inv_wrapped _ _ Hinv) as Hw.
  pose proof Hinv as [Hwf Hloc Hcs Hrg Hmx _ _].
  apply Forall_cons in Hloc as [Hlt _], Hcs as [Hct _], Hrg as [Hrt _].
  rewrite sumZ_cons in Hmx.
  assert (in_cs t = 1 → sumZ in_cs o = 0) as Hout
    by (intros E; by apply sumZ_zero, (mutex_others q t)).
  destruct Hwf as [Hn Hb Hbs Hh Htl].
  destruct t as [l a b n k d i j].
  destruct l;
    cbn [local_ok BusyQueue.cs_ok holds pc keepTrying pushIndex popIndex
         newTail] in Hlt, Hct, Hrt.
  - (* PushBegin *)
    eapply (inv_update q _ _ _ o Hinv); side.
  - (* PushAcquire *)
    unfold BusyQueue.step; cbn [pc]. destruct Hlt as [-> ->].
    destruct (_canUpdate q) eqn:Hc.
    + eapply (inv_update q _ _ _ o Hinv); side.
    + eapply (inv_update q _ _ _ o Hinv); side. by rewrite Hc.
  - (* PushNewTail *)
    erewrite step_PushNewTail by (reflexivity || (apply umod_Some; lia)).
    eapply (inv_update q _ _ _ o Hinv); side.
  - (* PushCheckFull *)
    destruct Hlt as [-> ->]. destruct (decide (n = _head q)) as [E|E].
    + erewrite step_PushCheckFull_full by (reflexivity || exact E).
      eapply (inv_update q _ _ _ o Hinv); side.
    + erewrite step_PushCheckFull_space by (reflexivity || exact E).
      eapply (inv_update q _ _ _ o Hinv); side.
  - (* PushLoadSlot *)
    eapply (inv_update q _ _ _ o Hinv); side.
  - (* PushExchange *)
    destruct Hlt as [-> ->]. destruct Hct as (-> & Hn1 & Hn2).
    destruct (at_is_Some (_isBusy q) (_tail q)) as [old Hold]; [lia|].
    erewrite step_PushExchange by (reflexivity || exact Hold).
    destruct old.
    + rewrite (insert_true_id _ _ Hold).
      eapply (inv_update q _ _ _ o Hinv); side.
    + eapply (inv_claim_slot q _ _ o (_tail q) Hinv); side.
  - (* PushClaim *)
    eapply (inv_update q _ _ _ o Hinv); side.
  - (* PushStoreTail *)
    destruct Hct as (-> & Hn2 & ->).
    eapply (inv_store_tail q _ _ o Hinv); side.
  - (* PushRelease *)
    eapply (inv_update q _ _ _ o Hinv); side.
  - (* PushRetry *)
    unfold BusyQueue.step; cbn [pc keepTrying pushIndex].
    destruct k; [|destruct i].
    + rewrite Hlt in * by done.
      eapply (inv_update q _ _ _ o Hinv); side.
    + eapply (inv_update q _ _ _ o Hinv); side.
    + eapply (inv_update q _ _ _ o Hinv); side.
  - (* PushWrite *)
    destruct Hlt as [i0 ->]. specialize (Hrt i0 eq_refl).
    destruct (at_is_Some (_buffer q) i0) as [x Hx]; [lia|].
    erewrite step_PushWrite by (reflexivity || exact Hx).
    eapply (inv_update q _ _ _ o Hinv); side.
  - (* PushCommit *)
    eapply (inv_update q _ _ _ o Hinv); side.
  - (* PushFree *)
    destruct Hlt as [i0 ->]. specialize (Hrt i0 eq_refl).
    destruct (at_is_Some (_isBusy q) i0) as [x Hx]; [lia|].
    erewrite step_PushFree by (reflexivity || exact Hx).
    eapply (inv_free_slot q _ _ o i0 Hinv); side.
  - (* PushAbort *)
    eapply (inv_update q _ _ _ o Hinv); side.
  - (* PopAcquire *)
    unfold BusyQueue.step; cbn [pc]. destruct Hlt as [-> ->].
    destruct (_canUpdate q) eqn:Hc.
    + eapply (inv_update q _ _ _ o Hinv); side.
    + eapply (inv_update q _ _ _ o Hinv); side. by rewrite Hc.
  - (* PopLoadHead *)
    eapply (inv_update q _ _ _ o Hinv); side.
  - (* PopCheckEmpty *)
    destruct Hlt as [-> ->]. subst h.
    destruct (decide (_head q = _tail q)) as [E|E].
    + erewrite step_PopCheckEmpty_empty by (reflexivity || exact E).
      eapply (inv_update q _ _ _ o Hinv); side.
    + erewrite step_PopCheckEmpty_data by (reflexivity || exact E).
      eapply (inv_update q _ _ _ o Hinv); side.
  - (* PopLoadSlot *)
    eapply (inv_update q _ _ _ o Hinv); side.
  - (* PopExchange *)
    destruct Hlt as [-> ->]. destruct Hct as (-> & Hn1).
    destruct (at_is_Some (_isBusy q) (_head q)) as [old Hold]; [lia|].
    erewrite step_PopExchange by (reflexivity || exact Hold).
    destruct old.
    + rewrite (insert_true_id _ _ Hold).
      eapply (inv_update q _ _ _ o Hinv); side.
    + eapply (inv_claim_slot q _ _ o (_head q) Hinv); side.
  - (* PopClaim *)
    eapply (inv_update q _ _ _ o Hinv); side.
  - (* PopNewHead *)
    erewrite step_PopNewHead by (reflexivity || (apply umod_Some; lia)).
    eapply (inv_update q _ _ _ o Hinv); side.
  - (* PopStoreHead *)
    destruct Hct as (-> & Hn2). destruct Hlt as [-> [j0 ->]].
    rewrite wrap_size_id by lia.
    eapply (inv_store_head q _ _ o Hinv); side.
  - (* PopRelease *)
    eapply (inv_update q _ _ _ o Hinv); side.
  - (* PopRetry *)
    unfold BusyQueue.step; cbn [pc keepTrying popIndex].
    destruct k; [|destruct j].
    + rewrite Hlt in * by done.
      eapply (inv_update q _ _ _ o Hinv); side.
    + eapply (inv_update q _ _ _ o Hinv); side.
    + eapply (inv_update q _ _ _ o Hinv); side.
  - (* PopRead *)
    destruct Hlt as [j0 ->]. specialize (Hrt j0 eq_refl).
    destruct (at_is_Some (_buffer q) j0) as [x Hx]; [lia|].
    erewrite step_PopRead by (reflexivity || exact Hx).
    eapply (inv_update q _ _ _ o Hinv); side.
  - (* PopCommit *)
    eapply (inv_update q _ _ _ o Hinv); side.
  - (* PopFree *)
    destruct Hlt as [j0 ->]. specialize (Hrt j0 eq_refl).
    destruct (at_is_Some (_isBusy q) j0) as [x Hx]; [lia|].
    erewrite step_PopFree by (reflexivity || exact Hx).
    eapply (inv_free_slot q _ _ o j0 Hinv); side.
  - exact Hinv.
  - exact Hinv.
  - exact Hinv.
Qed.

Lemma inv_Permutation (q : queue) (l l' : list thread) :
  l ≡ₚ l' → inv q l → inv q l'.
Proof.
  intros Hp [Hwf Hloc Hcs Hrg Hmx Hhold Hcnt]. split; try done.
  - by rewrite <- Hp.
  - by rewrite <- Hp.
  - by rewrite <- Hp.
  - by rewrite <- (sumZ_Permutation _ _ _ Hp).
  - intros i Hi. rewrite <- (sumZ_Permutation _ _ _ Hp). by apply Hhold.
  - by rewrite <- (sumZ_Permutation _ _ _ Hp).
Qed.

Lemma inv_step (q : queue) (l : list thread) i (t : thread) :
  l !! i = Some t → inv q l →
  inv (step q t).1 (<[i := (step q t).2]> l).
Proof.
  intros Hi Hinv. pose proof (lookup_lt_Some _ _ _ Hi) as Hlt.
  rewrite insert_take_drop by done.
  rewrite <- (take_drop_middle _ _ _ Hi) in Hinv.
  eapply inv_Permutation; [apply Permutation_middle|].
  apply inv_step_head.
  eapply inv_Permutation; [symmetry; apply Permutation_middle|]. exact Hinv.
Qed.

Lemma inv_call (q : queue) (l : list thread) (t : thread) :
  inv q l → local_ok t → in_cs t = 0 → holds q t = None → surplus t = 0 →
  inv q (l ++ [t]).
Proof.
  intros [Hwf Hloc Hcs Hrg Hmx Hhold Hcnt] Hl Hc Hh Hs. split; try done.
  - apply Forall_app. split; [done|]. by constructor.
  - apply Forall_app. split; [done|]. constructor; [|done].
    by apply cs_ok_outside_cs.
  - apply Forall_app. split; [done|]. constructor; [|done].
    intros i. by rewrite Hh.
  - rewrite sumZ_app, sumZ_cons, Hc. cbn. lia.
  - intros i Hi. rewrite sumZ_app, sumZ_cons.
    assert (holding q i t = 0) as ->
      by (unfold holding; rewrite Hh; by rewrite decide_False).
    cbn. rewrite !Z.add_0_r. by apply Hhold.
  - rewrite sumZ_app, sumZ_cons, Hs. cbn. rewrite Hcnt. f_equal. lia.
Qed.

Lemma inv_init :
  0 < bufferSize < 2 ^ 63 → inv (init bufferSize value_init) [].
Proof.
  intros Hn. destruct (idle_init bufferSize value_init Hn) as [Hwf _ Hb Hp].
  split; try done.
  intros i Hi. by rewrite (Hb i Hi).
Qed.

(** Every reachable system satisfies the invariant. *)
Lemma reachable_inv (s : system) :
  0 < bufferSize < 2 ^ 63 →
  reachable bufferSize value_init s → inv (shared s) (calls s).
Proof.
  intros Hn. induction 1 as [|s s' _ IH Hstep]; [by apply inv_init|].
  destruct Hstep as [s v|s x|s i t Hi]; cbn.
  - by apply inv_call.
  - by apply inv_call.
  - by apply inv_step.
Qed.

(** With no call in progress the exclusion flag is free, no slot is owned
    and the counter is the occupancy of the ring. *)
Lemma quiescent_idle (s : system) :
  0 < bufferSize < 2 ^ 63 →
  reachable bufferSize value_init s → quiescent s →
  idle bufferSize (shared s).
Proof.
  intros Hn Hr Hq. destruct (reachable_inv s Hn Hr) as [Hwf _ _ _ Hmx Hhold Hcnt].
  unfold quiescent in Hq.
  assert (Forall (λ t : thread, in_cs t = 0) (calls s)) as H1.
  { eapply Forall_impl; [exact Hq|]. cbn. intros t.
    unfold finished, in_cs. by destruct (pc t). }
  assert (Forall (λ t : thread, surplus t = 0) (calls s)) as H2.
  { eapply Forall_impl; [exact Hq|]. cbn. intros t.
    unfold finished, surplus. by destruct (pc t). }
  assert (∀ i, Forall (λ t : thread, holding (shared s) i t = 0) (calls s))
    as H3.
  { intros i. eapply Forall_impl; [exact Hq|]. cbn. intros t.
    unfold finished, holding, holds. by destruct (pc t). }
  rewrite (sumZ_zero _ _ H1) in Hmx. rewrite (sumZ_zero _ _ H2) in Hcnt.
  pose proof (occupancy_range bufferSize _ Hwf).
  split; try done.
  - by destruct (_canUpdate (shared s)).
  - intros i Hi. destruct (Hhold i Hi) as [Hb _].
    by rewrite (sumZ_zero _ _ (H3 i)) in Hb.
  - rewrite Hcnt, Z.add_0_r. apply wrap_ll_id. lia.
Qed.

End Concurrent.

End BusyQueueProofs.

(** ** src/include/LockFreeQueue.h, second revision *)
Module ActionsQueueProofs.
Import ActionsQueue.

Section Steps.
Context {QueueItemT : Type} (bufferSize : Z).
Local Abbreviation queue := (@queue QueueItemT).
Local Abbreviation thread := (@thread QueueItemT).
Local Abbreviation step := (step bufferSize).

Lemma step_PushNewTail_actions (q : queue) (t : thread) n :
  pc t = PushNewTail → umod (wrap_size (_tail q + 1)) bufferSize = Some n →
  step q t = (q, goto PushCheckFull (set_newTail n t)).
Proof. intros Hpc Hn. unfold ActionsQueue.step. by rewrite Hpc, Hn. Qed.

Lemma step_PushCheckFull_full_actions (q : queue) (t : thread) :
  pc t = PushCheckFull → newTail t = _head q →
  step q t = (q, goto PushRelease (set_keepTrying false t)).
Proof.
  intros Hpc Hn. unfold ActionsQueue.step. rewrite Hpc.
  by rewrite decide_False by tauto.
Qed.

Lemma step_PopCheckEmpty_empty_actions (q : queue) (t : thread) h :
  pc t = PopCheckEmpty h → h = _tail q →
  step q t = (q, goto PopRelease (set_keepTrying false t)).
Proof.
  intros Hpc Hn. unfold ActionsQueue.step. rewrite Hpc.
  by rewrite decide_False by tauto.
Qed.
End Steps.

Ltac reduce :=
  cbn [step finished result pc bufferItem popedData newTail
       keepTrying sleepDuration pushIndex popIndex goto set_popedData
       set_newTail set_keepTrying set_sleepDuration set_pushIndex set_popIndex
       call_push call_pop _buffer _isBusy _head _tail _pendingActions
       _pendingData _canUpdate set_buffer set_isBusy set_head set_tail
       set_pendingActions set_pendingData set_canUpdate fst snd].
Ltac fields :=
  cbn [_buffer _isBusy _head _tail _pendingActions _pendingData _canUpdate]
    in *.
Tactic Notation "exec" :=
  lazymatch goal with
  | |- context [run (ActionsQueue.step ?n) ?fin (S ?f) ?q ?t] =>
      let r := eval cbv beta iota delta
        [step pc bufferItem popedData newTail keepTrying sleepDuration
         pushIndex popIndex goto set_popedData set_newTail set_keepTrying
         set_sleepDuration set_pushIndex set_popIndex ActionsQueue.call_push
         ActionsQueue.call_pop _buffer _isBusy _head _tail _pendingActions
         _pendingData _canUpdate set_buffer set_isBusy set_head set_tail
         set_pendingActions set_pendingData set_canUpdate]
        in (ActionsQueue.step n q t) in
      lazymatch r with
      | (?q', ?t') =>
          erewrite (run_step (ActionsQueue.step n) fin f _ q' _ t');
          [ | reflexivity | reflexivity ]
      end
  end.
Tactic Notation "exec" "with" uconstr(lem) "by" tactic3(tac) :=
  erewrite run_step;
  [ | reflexivity | eapply lem; [reflexivity | reduce; tac ..] ].

Section Sequential.
Context {QueueItemT : Type} (bufferSize : Z) (value_init : QueueItemT).
Local Abbreviation queue := (@queue QueueItemT).
Local Abbreviation thread := (@thread QueueItemT).
Local Abbreviation step := (step bufferSize).
Local Abbreviation push := (push bufferSize value_init).
Local Abbreviation pop := (pop bufferSize value_init).
Local Abbreviation call_push := (call_push value_init).
Local Abbreviation call_pop := (call_pop value_init).

Lemma push_full_actions (q : queue) v fuel :
  0 < bufferSize → _canUpdate q = true →
  wrap_size (_tail q + 1) `mod` bufferSize = _head q →
  push (9 + fuel) q v =
    (set_pendingData (wrap_ll (_pendingData q))
       (set_pendingActions (wrap_ll (_pendingActions q)) q),
     goto (Returned false)
       (set_keepTrying false (set_newTail (_head q) (call_push v)))).
Proof.
  intros Hn Hc Hfull. unfold ActionsQueue.push.
  destruct q as [b bs h t pa p c]; fields; subst c.
  change (9 + fuel)%nat with (S (S (S (S (S (S (S (S (S fuel))))))))).
  do 3 exec. exec with step_PushNewTail_actions by (apply umod_Some; lia).
  exec with step_PushCheckFull_full_actions by done.
  do 4 exec. rewrite run_finished by done.
  reduce. rewrite Hfull, !wrap_ll_add.
  replace (pa + 2 + -2) with pa by lia. by replace (p + 1 + -1) with p by lia.
Qed.

Lemma pop_empty_actions (q : queue) x fuel :
  _canUpdate q = true → _head q = _tail q →
  pop (5 + fuel) q x =
    (q, goto (Returned false) (set_keepTrying false (call_pop x))).
Proof.
  intros Hc He. unfold ActionsQueue.pop.
  destruct q as [b bs h t pa p c]; fields; subst c t.
  change (5 + fuel)%nat with (S (S (S (S (S fuel))))).
  do 2 exec. exec with step_PopCheckEmpty_empty_actions by done.
  do 2 exec. by rewrite run_finished.
Qed.

End Sequential.
End ActionsQueueProofs.

(** ** src/LockFreeQueue.h *)
Module HasDataQueueProofs.
Import HasDataQueue.

Section Steps.
Context {QueueItemT : Type} (bufferSize : Z).
Local Abbreviation queue := (@queue QueueItemT).
Local Abbreviation thread := (@thread QueueItemT).
Local Abbreviation step := (step bufferSize).

Lemma step_PushNewTail_hasData (q : queue) (t : thread) n :
  pc t = PushNewTail → umod (wrap_size (_tail q + 1)) bufferSize = Some n →
  step q t = (q, goto PushCheckFull (set_newTail n t)).
Proof. intros Hpc Hn. unfold HasDataQueue.step. by rewrite Hpc, Hn. Qed.

Lemma step_PushCheckFull_full_hasData (q : queue) (t : thread) :
  pc t = PushCheckFull → newTail t = _head q →
  step q t = (q, goto PushRelease t).
Proof.
  intros Hpc Hn. unfold HasDataQueue.step. rewrite Hpc.
  by rewrite decide_False by tauto.
Qed.

Lemma step_PushCheckFull_space_hasData (q : queue) (t : thread) :
  pc t = PushCheckFull → newTail t ≠ _head q →
  step q t = (q, goto PushLoadSlot t).
Proof.
  intros Hpc Hn. unfold HasDataQueue.step. rewrite Hpc. by rewrite decide_True.
Qed.

Lemma step_PushHasData (q : queue) (t : thread) i has :
  pc t = PushHasData i → at_ (_hasData q) i = Some has →
  step q t = (q, goto (if has then PushRelease else PushClaim) t).
Proof.
  intros Hpc Hi. unfold HasDataQueue.step. rewrite Hpc, Hi. by destruct has.
Qed.

Lemma step_PopCheckEmpty_empty_hasData (q : queue) (t : thread) h :
  pc t = PopCheckEmpty h → h = _tail q →
  step q t = (q, goto PopRelease (set_keepTrying false t)).
Proof.
  intros Hpc Hn. unfold HasDataQueue.step. rewrite Hpc.
  by rewrite decide_False by tauto.
Qed.

Lemma step_PopCheckEmpty_data_hasData (q : queue) (t : thread) h :
  pc t = PopCheckEmpty h → h ≠ _tail q →
  step q t = (q, goto PopLoadSlot t).
Proof.
  intros Hpc Hn. unfold HasDataQueue.step. rewrite Hpc. by rewrite decide_True.
Qed.

Lemma step_PopHasData (q : queue) (t : thread) i has :
  pc t = PopHasData i → at_ (_hasData q) i = Some has →
  step q t = (q, goto (if has then PopClaim else PopRelease) t).
Proof.
  intros Hpc Hi. unfold HasDataQueue.step. rewrite Hpc, Hi. by destruct has.
Qed.

Lemma step_PopNewHead_hasData (q : queue) (t : thread) h :
  pc t = PopNewHead → umod (wrap_size (_head q + 1)) bufferSize = Some h →
  step q t = (q, goto (PopStoreHead h) t).
Proof. intros Hpc Hn. unfold HasDataQueue.step. by rewrite Hpc, Hn. Qed.
End Steps.

Ltac reduce :=
  cbn [step finished released failed result pc bufferItem popedData newTail
       keepTrying sleepDuration pushIndex popIndex goto set_popedData
       set_newTail set_keepTrying set_sleepDuration set_pushIndex set_popIndex
       call_push call_pop _buffer _hasData _head _tail _pendingActions
       _pendingData _canUpdate set_buffer set_hasData set_head set_tail
       set_pendingActions set_pendingData set_canUpdate fst snd].
Ltac fields :=
  cbn [_buffer _hasData _head _tail _pendingActions _pendingData _canUpdate]
    in *.
Tactic Notation "exec" :=
  lazymatch goal with
  | |- context [run (HasDataQueue.step ?n) ?fin (S ?f) ?q ?t] =>
      let r := eval cbv beta iota delta
        [step pc bufferItem popedData newTail keepTrying sleepDuration
         pushIndex popIndex goto set_popedData set_newTail set_keepTrying
         set_sleepDuration set_pushIndex set_popIndex HasDataQueue.call_push
         HasDataQueue.call_pop _buffer _hasData _head _tail _pendingActions
         _pendingData _canUpdate set_buffer set_hasData set_head set_tail
         set_pendingActions set_pendingData set_canUpdate]
        in (HasDataQueue.step n q t) in
      lazymatch r with
      | (?q', ?t') =>
          erewrite (run_step (HasDataQueue.step n) fin f _ q' _ t');
          [ | reflexivity | reflexivity ]
      end
  end.
Tactic Notation "exec" "with" uconstr(lem) "by" tactic3(tac) :=
  erewrite run_step;
  [ | reflexivity | eapply lem; [reflexivity | reduce; tac ..] ].

Section Sequential.
Context {QueueItemT : Type} (bufferSize : Z) (value_init : QueueItemT).
Local Abbreviation queue := (@queue QueueItemT).
Local Abbreviation thread := (@thread QueueItemT).
Local Abbreviation step := (step bufferSize).
Local Abbreviation wf := (wf bufferSize).
Local Abbreviation full := (full bufferSize).
Local Abbreviation push := (push bufferSize value_init).
Local Abbreviation pop := (pop bufferSize value_init).
Local Abbreviation call_push := (call_push value_init).
Local Abbreviation call_pop := (call_pop value_init).

Lemma pop_empty_hasData (q : queue) x fuel :
  _canUpdate q = true → empty q →
  pop (5 + fuel) q x =
    (q, goto (Returned false) (set_keepTrying false (call_pop x))).
Proof.
  intros Hc He. unfold HasDataQueue.pop, empty in *.
  destruct q as [b bs h t pa p c]; fields; subst c t.
  change (5 + fuel)%nat with (S (S (S (S (S fuel))))).
  do 2 exec. exec with step_PopCheckEmpty_empty_hasData by done.
  do 2 exec. by rewrite run_finished.
Qed.

(** [push] on a full queue goes round its loop for as long as it is given
    steps: it never returns, and it touches nothing but [_pendingActions]
    and the exclusion flag. *)
Lemma push_full_spins (q : queue) v fuel :
  0 < bufferSize → _canUpdate q = true → full q →
  finished (push fuel q v).2 = false ∧
  _buffer (push fuel q v).1 = _buffer q ∧
  _hasData (push fuel q v).1 = _hasData q ∧
  _head (push fuel q v).1 = _head q ∧
  _tail (push fuel q v).1 = _tail q ∧
  _pendingData (push fuel q v).1 = _pendingData q.
Proof.
  intros Hn Hc Hfull. unfold HasDataQueue.push.
  pose (I := λ (q' : queue) (t' : thread),
    (_buffer q' = _buffer q ∧ _hasData q' = _hasData q ∧
     _head q' = _head q ∧ _tail q' = _tail q ∧
     _pendingData q' = _pendingData q) ∧
    keepTrying t' = true ∧
    match pc t' with
    | PushBegin | PushAcquire | PushRetry => _canUpdate q' = true
    | PushNewTail | PushRelease => True
    | PushCheckFull => newTail t' = _head q
    | _ => False
    end).
  assert (∀ q' t', I q' t' → I (step q' t').1 (step q' t').2) as Hstep.
  { clear fuel.
    intros [b' bs' h' t' pa' p' c'] [l a b n k d i j].
    intros ((Eb & Ebs & Eh & Et & Ep) & Hk & Hpc).
    unfold HasDataQueue.full, candidate_tail in *.
    cbn in Eb, Ebs, Eh, Et, Ep, Hk, Hpc.
    subst b' bs' h' t' p' k. unfold I.
    destruct l; try done; reduce.
    - by subst c'.
    - by rewrite umod_Some, Hfull by lia.
    - subst n. by rewrite decide_False by tauto. }
  pose proof (run_invariant step finished I Hstep fuel q (call_push v)) as HI.
  destruct (run step finished fuel q (call_push v)) as [q' t'].
  destruct HI as ((? & ? & ? & ? & ?) & ? & Hpc); [by repeat split|].
  cbn [fst snd] in *. repeat split; try done.
  unfold finished. by destruct (pc t').
Qed.

(** [pop] on a slot that its producer has not committed goes round its loop:
    no assertion fires, nothing is thrown, nothing is claimed. *)
Lemma pop_uncommitted_spins (q : queue) x fuel :
  _canUpdate q = true → ¬ empty q →
  at_ (_hasData q) (_head q) = Some false →
  finished (pop fuel q x).2 = false ∧
  popIndex (pop fuel q x).2 = None ∧
  _buffer (pop fuel q x).1 = _buffer q ∧
  _hasData (pop fuel q x).1 = _hasData q ∧
  _head (pop fuel q x).1 = _head q ∧
  _tail (pop fuel q x).1 = _tail q ∧
  _pendingActions (pop fuel q x).1 = _pendingActions q ∧
  _pendingData (pop fuel q x).1 = _pendingData q.
Proof.
  intros Hc Hne Hno. unfold HasDataQueue.pop.
  pose (I := λ (q' : queue) (t' : thread),
    (_buffer q' = _buffer q ∧ _hasData q' = _hasData q ∧
     _head q' = _head q ∧ _tail q' = _tail q ∧
     _pendingActions q' = _pendingActions q ∧
     _pendingData q' = _pendingData q) ∧
    keepTrying t' = true ∧ popIndex t' = None ∧
    match pc t' with
    | PopAcquire | PopRetry => _canUpdate q' = true
    | PopLoadHead | PopLoadSlot | PopRelease => True
    | PopCheckEmpty i | PopHasData i => i = _head q
    | _ => False
    end).
  assert (∀ q' t', I q' t' → I (step q' t').1 (step q' t').2) as Hstep.
  { clear fuel.
    intros [b' bs' h' t' pa' p' c'] [l a b n k d i j].
    intros ((Eb & Ebs & Eh & Et & Epa & Ep) & Hk & Hi & Hpc).
    unfold empty in *. cbn in Eb, Ebs, Eh, Et, Epa, Ep, Hk, Hi, Hpc.
    subst b' bs' h' t' pa' p' k j. unfold I.
    destruct l; try done; reduce.
    - by subst c'.
    - rewrite Hpc. by rewrite decide_True.
    - rewrite Hpc, Hno. by reduce. }
  pose proof (run_invariant step finished I Hstep fuel q (call_pop x)) as HI.
  destruct (run step finished fuel q (call_pop x)) as [q' t'].
  destruct HI as ((? & ? & ? & ? & ? & ?) & ? & ? & Hpc); [by repeat split|].
  cbn [fst snd] in *. repeat split; try done.
  unfold finished. by destruct (pc t').
Qed.

(** *** The critical section of [push] and of [pop] *)
Lemma push_critical_section_hasData (q : queue) (t : thread) :
  wf q → pc t = PushNewTail →
  critical_section bufferSize q t =
    if decide (candidate_tail bufferSize q = _head q) then
      (q, goto PushRelease (set_newTail (candidate_tail bufferSize q) t))
    else
      match at_ (_hasData q) (_tail q) with
      | Some false =>
          (set_tail (candidate_tail bufferSize q) q,
           goto PushRelease
             (set_keepTrying false
                (set_pushIndex (_tail q)
                   (set_newTail (candidate_tail bufferSize q) t))))
      | _ =>
          (q, goto PushRelease (set_newTail (candidate_tail bufferSize q) t))
      end.
Proof.
  intros [Hn Hb Hbs Hh Ht] Hpc. unfold critical_section, candidate_tail.
  destruct (at_is_Some (_hasData q) (_tail q)) as [old Hold]; [lia|].
  rewrite Hold.
  destruct q as [b bs h tl pa p c], t as [l a x n k d i j]; fields.
  cbn [pc] in Hpc. subst l.
  exec with step_PushNewTail_hasData by (apply umod_Some; lia).
  destruct (decide (_ = h)) as [E|E].
  - exec with step_PushCheckFull_full_hasData by done.
    by rewrite run_finished.
  - exec with step_PushCheckFull_space_hasData by done.
    exec. exec with step_PushHasData by exact Hold.
    destruct old.
    + by rewrite run_finished.
    + do 2 exec. by rewrite run_finished.
Qed.

Lemma pop_critical_section_hasData (q : queue) (t : thread) :
  wf q → pc t = PopLoadHead →
  critical_section bufferSize q t =
    if decide (_head q = _tail q) then
      (q, goto PopRelease (set_keepTrying false t))
    else
      match at_ (_hasData q) (_head q) with
      | Some true =>
          (set_head ((_head q + 1) `mod` bufferSize) q,
           goto PopRelease
             (set_keepTrying false (set_popIndex (Some (_head q)) t)))
      | _ => (q, goto PopRelease t)
      end.
Proof.
  intros [Hn Hb Hbs Hh Ht] Hpc. unfold critical_section.
  destruct (at_is_Some (_hasData q) (_head q)) as [old Hold]; [lia|].
  rewrite Hold.
  destruct q as [b bs h tl pa p c], t as [l a x n k d i j]; fields.
  cbn [pc] in Hpc. subst l.
  exec. destruct (decide (h = tl)) as [E|E].
  - exec with step_PopCheckEmpty_empty_hasData by done.
    by rewrite run_finished.
  - exec with step_PopCheckEmpty_data_hasData by done.
    exec. exec with step_PopHasData by exact Hold.
    destruct old.
    + exec. exec with step_PopNewHead_hasData by (apply umod_Some; lia).
      exec. rewrite run_finished by done. reduce.
      by rewrite wrap_size_id by lia.
    + by rewrite run_finished.
Qed.

End Sequential.
End HasDataQueueProofs.

(** * The properties the specification states *)
Module QueueSpec.
Import BusyQueue BusyQueueProofs.

Section Properties.
Context {QueueItemT : Type} (bufferSize : Z) (value_init : QueueItemT).
Local Abbreviation queue := (@queue QueueItemT).
Local Abbreviation thread := (@thread QueueItemT).
Local Abbreviation system := (@system QueueItemT).
Local Abbreviation wf := (wf bufferSize).
Local Abbreviation full := (full bufferSize).
Local Abbreviation push := (push bufferSize value_init).
Local Abbreviation pop := (pop bufferSize value_init).
Local Abbreviation reachable := (reachable bufferSize value_init).
Local Abbreviation committed := (committed bufferSize).
Local Abbreviation critical_section := (critical_section bufferSize).
Local Abbreviation candidate_tail := (candidate_tail bufferSize).


(** A call in progress may take any number of steps in a row. *)
Lemma reachable_steps (s : system) (i : nat) (t : thread) (n : nat) :
  reachable s → calls s !! i = Some t →
  reachable
    (System (steps (step bufferSize) n (shared s) t).1
            (<[i := (steps (step bufferSize) n (shared s) t).2]> (calls s))).
Proof.
  revert s t. induction n as [|n IH]; intros s t Hr Hi.
  - cbn [steps fst snd]. rewrite list_insert_id by done. by destruct s.
  - cbn [steps]. destruct (step bufferSize (shared s) t) as [q' t'] eqn:E.
    specialize (IH (System q' (<[i:=t']> (calls s))) t').
    cbn [shared calls] in IH. rewrite list_insert_insert_eq in IH.
    apply IH.
    + replace q' with (step bufferSize (shared s) t).1 by by rewrite E.
      replace t' with (step bufferSize (shared s) t).2 by by rewrite E.
      eapply reachable_step; [exact Hr|]. by apply sys_thread.
    + apply list_lookup_insert_eq. by eapply lookup_lt_Some.
Qed.


(** C2 (src/include/LockFreeQueue.h, first revision).  [push] returns a
    boolean.  When the exclusion flag is free and the ring is full the call
    is over within seven steps, for any number of steps it is allowed: it has
    returned [false], after one pass through its loop, [backOff] was never
    applied, and neither index has moved. *)
Theorem push_reports_full (q : queue) (v : QueueItemT) (fuel : nat) :
  wf q → _canUpdate q = true → full q →
  result (push (7 + fuel) q v).2 = Some false ∧
  sleepDuration (push (7 + fuel) q v).2 = sleepDurationStart ∧
  pushIndex (push (7 + fuel) q v).2 = None ∧
  _head (push (7 + fuel) q v).1 = _head q ∧
  _tail (push (7 + fuel) q v).1 = _tail q.
Proof. intros Hwf Hc Hfull. by rewrite push_full. Qed.

(** C3 (src/include/LockFreeQueue.h, first revision).  The claim step of
    [push], lines 52-67, run from its first program point: it computes
    [newTail = (_tail + 1) % bufferSize]; if that equals [_head] it changes
    nothing in the queue, claims no index and clears [keepTrying] (the call
    then returns [false]); otherwise, if the flag of the slot at [_tail] is
    clear, it sets that flag, stores [newTail] in [_tail], and [pushIndex]
    is the old [_tail]; if the flag is set it claims nothing. *)
Theorem push_claim_step (q : queue) (t : thread) :
  wf q → pc t = PushNewTail →
  pc (critical_section q t).2 = PushRelease ∧
  newTail (critical_section q t).2 = candidate_tail q ∧
  (candidate_tail q = _head q →
     (critical_section q t).1 = q ∧
     pushIndex (critical_section q t).2 = pushIndex t ∧
     keepTrying (critical_section q t).2 = false) ∧
  (candidate_tail q ≠ _head q → at_ (_isBusy q) (_tail q) = Some false →
     (critical_section q t).1 =
       set_tail (candidate_tail q)
         (set_isBusy (<[Z.to_nat (_tail q) := true]> (_isBusy q)) q) ∧
     at_ (_isBusy (critical_section q t).1) (_tail q) = Some true ∧
     pushIndex (critical_section q t).2 = Some (_tail q) ∧
     keepTrying (critical_section q t).2 = false) ∧
  (candidate_tail q ≠ _head q → at_ (_isBusy q) (_tail q) = Some true →
     (critical_section q t).1 = q ∧
     pushIndex (critical_section q t).2 = pushIndex t ∧
     keepTrying (critical_section q t).2 = keepTrying t).
Proof.
  intros Hwf Hpc. rewrite push_critical_section by done.
  destruct (decide (candidate_tail q = _head q)) as [E|E].
  { repeat split; intros; try done; congruence. }
  destruct (at_is_Some (_isBusy q) (_tail q)) as [old Hold];
    [destruct Hwf; lia|].
  rewrite Hold. destruct old.
  { repeat split; intros; try done; congruence. }
  repeat split; intros; try done; try congruence.
  cbn [fst set_tail set_isBusy _isBusy].
  destruct Hwf. rewrite at_lookup by lia. apply list_lookup_insert_eq. lia.
Qed.

(** C4 (src/include/LockFreeQueue.h, first revision).  The claim step of
    [pop], lines 124-142: if [_head == _tail] it changes nothing, claims no
    index and clears [keepTrying] (the call then returns [false]); otherwise,
    if the flag of the slot at [_head] is clear (its producer has committed),
    it sets that flag, stores [(_head + 1) % bufferSize] in [_head], and
    [popIndex] is the old [_head]; if the flag is still set it claims
    nothing. *)
Theorem pop_claim_step (q : queue) (t : thread) :
  wf q → pc t = PopLoadHead →
  pc (critical_section q t).2 = PopRelease ∧
  (_head q = _tail q →
     (critical_section q t).1 = q ∧
     popIndex (critical_section q t).2 = popIndex t ∧
     keepTrying (critical_section q t).2 = false) ∧
  (_head q ≠ _tail q → at_ (_isBusy q) (_head q) = Some false →
     (critical_section q t).1 =
       set_head ((_head q + 1) `mod` bufferSize)
         (set_isBusy (<[Z.to_nat (_head q) := true]> (_isBusy q)) q) ∧
     at_ (_isBusy (critical_section q t).1) (_head q) = Some true ∧
     popIndex (critical_section q t).2 = Some (_head q) ∧
     keepTrying (critical_section q t).2 = false) ∧
  (_head q ≠ _tail q → at_ (_isBusy q) (_head q) = Some true →
     (critical_section q t).1 = q ∧
     popIndex (critical_section q t).2 = popIndex t ∧
     keepTrying (critical_section q t).2 = keepTrying t).
Proof.
  intros Hwf Hpc. rewrite pop_critical_section by done.
  destruct (decide (_head q = _tail q)) as [E|E].
  { repeat split; intros; try done; congruence. }
  destruct (at_is_Some (_isBusy q) (_head q)) as [old Hold];
    [destruct Hwf; lia|].
  rewrite Hold. destruct old.
  { repeat split; intros; try done; congruence. }
  repeat split; intros; try done; try congruence.
  cbn [fst set_head set_isBusy _isBusy].
  destruct Hwf. rewrite at_lookup by lia. apply list_lookup_insert_eq. lia.
Qed.


(** C5, as amended.  In every reachable state in which no [push] or [pop] is
    in progress, [_pendingData] equals the number of slots holding a
    committed, unread value, and [hasData()] is [true] exactly when there is
    at least one. *)
Theorem pending_counter_quiescent (s : system) :
  0 < bufferSize < 2 ^ 63 → reachable s → quiescent s →
  _pendingData (shared s) = committed (shared s) ∧
  (hasData (shared s) = true ↔ 1 ≤ committed (shared s)).
Proof.
  intros Hn Hr Hq. pose proof (quiescent_idle _ _ s Hn Hr Hq) as Hidle.
  pose proof (committed_idle _ _ Hidle) as Hc.
  pose proof (occupancy_range _ _ (idle_wf _ _ Hidle)) as Ho.
  rewrite (idle_pendingData _ _ Hidle), <- Hc. split; [done|].
  unfold hasData. rewrite bool_decide_eq_true.
  rewrite (idle_pendingData _ _ Hidle), <- Hc. lia.
Qed.





(** C7 (src/include/LockFreeQueue.h, first revision).  With
    [bufferSize = 4], one caller and a fresh queue: the pushes of [A], [B]
    and [C] return [true], a fourth push returns [false]; three pops then
    return [true] with [A], [B], [C] in that order, and a fourth pop returns
    [false]. *)
Theorem scenario_of_four (A B C D : QueueItemT) (fuel : nat) :
  (perform_all 4 value_init (13 + fuel) (init 4 value_init)
     [Push A; Push B; Push C; Push D; Pop; Pop; Pop; Pop]).2 =
  [Pushed (Some true); Pushed (Some true); Pushed (Some true);
   Pushed (Some false);
   Popped (Some true) A; Popped (Some true) B; Popped (Some true) C;
   Popped (Some false) value_init].
Proof.
  destruct (perform_all_idle 4 value_init (init 4 value_init)
              [Push A; Push B; Push C; Push D; Pop; Pop; Pop; Pop]
              (13 + fuel)) as (_ & _ & ->);
    [by apply idle_init | lia |].
  by rewrite contents_init.
Qed.

End Properties.


(** The delays the retry loops of src/LockFreeQueue.h produce stay between 0
    and the maximum. *)
Lemma backOff_iter (n : nat) :
  0 ≤ Nat.iter n HasDataQueue.backOff 0 ≤ HasDataQueue._maxSleepDuration.
Proof.
  induction n as [|n IH]; [done|]. rewrite Nat.iter_succ.
  revert IH. generalize (Nat.iter n HasDataQueue.backOff 0).
  unfold HasDataQueue.backOff, HasDataQueue._maxSleepDuration,
    HasDataQueue.sleepDurationStep.
  intros d Hd. destruct (decide _); lia.
Qed.

(** C10.  A default-constructed queue, in each revision: [_head] and
    [_tail] are 0, every slot's flag is clear, the counters are 0,
    [hasData()] and [hasWork()] are [false], and a first [pop] returns
    [false], leaves [popedData] alone and leaves the queue as it was. *)
Theorem fresh_queue {QueueItemT : Type} (bufferSize : Z)
    (value_init x : QueueItemT) (fuel : nat) :
  (let q := HasDataQueue.init bufferSize value_init in
   HasDataQueue._head q = 0 ∧ HasDataQueue._tail q = 0 ∧
   HasDataQueue._hasData q = replicate (Z.to_nat bufferSize) false ∧
   HasDataQueue._pendingActions q = 0 ∧ HasDataQueue._pendingData q = 0 ∧
   HasDataQueue.hasData q = false ∧ HasDataQueue.hasWork q = false ∧
   HasDataQueue.result
     (HasDataQueue.pop bufferSize value_init (5 + fuel) q x).2 = Some false ∧
   HasDataQueue.popedData
     (HasDataQueue.pop bufferSize value_init (5 + fuel) q x).2 = x ∧
   (HasDataQueue.pop bufferSize value_init (5 + fuel) q x).1 = q) ∧
  (let q := ActionsQueue.init bufferSize value_init in
   ActionsQueue._head q = 0 ∧ ActionsQueue._tail q = 0 ∧
   ActionsQueue._isBusy q = replicate (Z.to_nat bufferSize) false ∧
   ActionsQueue._pendingActions q = 0 ∧ ActionsQueue._pendingData q = 0 ∧
   ActionsQueue.hasData q = false ∧ ActionsQueue.hasWork q = false ∧
   ActionsQueue.result
     (ActionsQueue.pop bufferSize value_init (5 + fuel) q x).2 = Some false ∧
   ActionsQueue.popedData
     (ActionsQueue.pop bufferSize value_init (5 + fuel) q x).2 = x ∧
   (ActionsQueue.pop bufferSize value_init (5 + fuel) q x).1 = q) ∧
  (let q := BusyQueue.init bufferSize value_init in
   BusyQueue._head q = 0 ∧ BusyQueue._tail q = 0 ∧
   BusyQueue._isBusy q = replicate (Z.to_nat bufferSize) false ∧
   BusyQueue._pendingData q = 0 ∧
   BusyQueue.hasData q = false ∧
   BusyQueue.result
     (BusyQueue.pop bufferSize value_init (5 + fuel) q x).2 = Some false ∧
   BusyQueue.popedData
     (BusyQueue.pop bufferSize value_init (5 + fuel) q x).2 = x ∧
   (BusyQueue.pop bufferSize value_init (5 + fuel) q x).1 = q).
Proof.
  split; [|split]; cbv zeta.
  - rewrite HasDataQueueProofs.pop_empty_hasData by done. by repeat split.
  - rewrite ActionsQueueProofs.pop_empty_actions by done. by repeat split.
  - rewrite BusyQueueProofs.pop_empty by done. by repeat split.
Qed.


(** ** The properties at concrete queues

    Items are integers and [QueueItemT{}] is 0. *)

(** The system in which one thread called [push(v)] on a fresh queue of [n]
    slots and took [k] steps is reachable. *)
Lemma reachable_one_push (n : Z) (v : Z) (k : nat) :
  reachable n 0
    (System (steps (step n) k (init n 0) (call_push 0 v)).1
            [(steps (step n) k (init n 0) (call_push 0 v)).2]).
Proof.
  apply (reachable_steps n 0 (System (init n 0) [call_push 0 v]) 0%nat
           (call_push 0 v) k); [|done].
  apply (reachable_step n 0 (System (init n 0) [])); [constructor|].
  apply (sys_call_push n 0 (System (init n 0) []) v).
Qed.


(** C2 at the full queue of two slots. *)
Lemma push_reports_full_witness :
  let q := Queue [5; 0] [false; false] 0 1 1 true in
  (wf 2 q ∧ _canUpdate q = true ∧ full 2 q) ∧
  result (push 2 0 7 q 6).2 = Some false ∧
  sleepDuration (push 2 0 7 q 6).2 = -10 ∧
  pushIndex (push 2 0 7 q 6).2 = None ∧
  _head (push 2 0 7 q 6).1 = 0 ∧
  _tail (push 2 0 7 q 6).1 = 1.
Proof.
  intros q.
  assert (wf 2 q) as Hwf by (split; cbn; (lia || reflexivity)).
  split; [split_and!; (exact Hwf || reflexivity)|].
  apply (push_reports_full 2 0 q 6 0%nat Hwf); reflexivity.
Defined.

(** C3 at a fresh queue of four slots, inside the critical section of the
    first [push]: slot 0 is claimed. *)
Lemma push_claim_step_witness :
  let q := Queue [0; 0; 0; 0] [false; false; false; false] 0 0 2 false in
  let t := Thread PushNewTail 5 0 0 true (-10) None None in
  (wf 4 q ∧ pc t = PushNewTail ∧ candidate_tail 4 q ≠ _head q ∧
   at_ (_isBusy q) (_tail q) = Some false) ∧
  (critical_section 4 q t).1 =
    Queue [0; 0; 0; 0] [true; false; false; false] 0 1 2 false ∧
  at_ (_isBusy (critical_section 4 q t).1) 0 = Some true ∧
  pushIndex (critical_section 4 q t).2 = Some 0 ∧
  keepTrying (critical_section 4 q t).2 = false.
Proof.
  intros q t.
  assert (wf 4 q) as Hwf by (split; cbn; (lia || reflexivity)).
  assert (candidate_tail 4 q ≠ _head q) as Hspace by (vm_compute; discriminate).
  assert (at_ (_isBusy q) (_tail q) = Some false) as Hfree by reflexivity.
  split; [split_and!; (exact Hwf || exact Hspace || reflexivity)|].
  destruct (push_claim_step 4 q t Hwf eq_refl) as (_ & _ & _ & Hclaim & _).
  exact (Hclaim Hspace Hfree).
Defined.

(** C4 at a queue of four slots that holds one item, inside the critical
    section of a [pop]: slot 0 is claimed. *)
Lemma pop_claim_step_witness :
  let q := Queue [5; 0; 0; 0] [false; false; false; false] 0 1 1 false in
  let t := Thread PopLoadHead 0 9 0 true (-10) None None in
  (wf 4 q ∧ pc t = PopLoadHead ∧ _head q ≠ _tail q ∧
   at_ (_isBusy q) (_head q) = Some false) ∧
  (critical_section 4 q t).1 =
    Queue [5; 0; 0; 0] [true; false; false; false] 1 1 1 false ∧
  at_ (_isBusy (critical_section 4 q t).1) 0 = Some true ∧
  popIndex (critical_section 4 q t).2 = Some 0 ∧
  keepTrying (critical_section 4 q t).2 = false.
Proof.
  intros q t.
  assert (wf 4 q) as Hwf by (split; cbn; (lia || reflexivity)).
  assert (_head q ≠ _tail q) as Hdata by (cbn; lia).
  assert (at_ (_isBusy q) (_head q) = Some false) as Hfree by reflexivity.
  split; [split_and!; (exact Hwf || exact Hdata || reflexivity)|].
  destruct (pop_claim_step 4 q t Hwf eq_refl) as (_ & _ & Hclaim & _).
  exact (Hclaim Hdata Hfree).
Defined.

(** C5, as the claim states it, fails in the middle of a [push]: after the
    [fetch_add(2)] of line 43 on a fresh queue of four slots the counter is 2
    and [hasData()] is [true], while no slot holds a value. *)
Lemma pending_counter_mid_push :
  let s := System (Queue [0; 0; 0; 0] [false; false; false; false] 0 0 2 true)
                  [Thread PushAcquire 5 0 0 true (-10) None None] in
  reachable 4 0 s ∧
  ¬ quiescent s ∧
  _pendingData (shared s) = 2 ∧
  committed 4 (shared s) = 0 ∧
  hasData (shared s) = true ∧
  ¬ (_pendingData (shared s) = committed 4 (shared s)) ∧
  ¬ (hasData (shared s) = true ↔ 1 ≤ committed 4 (shared s)).
Proof.
  intros s. split; [exact (reachable_one_push 4 5 1)|].
  split.
  { intros Hq. apply Forall_cons in Hq as [Hq _]. discriminate Hq. }
  assert (committed 4 (shared s) = 0) as Hc by reflexivity.
  repeat split; try reflexivity.
  - rewrite Hc. cbn. lia.
  - rewrite Hc. intros [H _]. specialize (H eq_refl). lia.
Qed.

(** C5, as amended, at the state one complete [push] leaves. *)
Lemma pending_counter_quiescent_witness :
  let s := System (Queue [5; 0] [false; false] 0 1 1 true)
                  [Thread (Returned true) 5 0 1 false (-10) (Some 0) None] in
  (0 < 2 < 2 ^ 63 ∧ reachable 2 0 s ∧ quiescent s) ∧
  _pendingData (shared s) = committed 2 (shared s) ∧
  (hasData (shared s) = true ↔ 1 ≤ committed 2 (shared s)).
Proof.
  intros s.
  assert (0 < 2 < 2 ^ 63) as Hn by lia.
  assert (reachable 2 0 s) as Hr by exact (reachable_one_push 2 5 13).
  assert (quiescent s) as Hq by (repeat constructor).
  split; [split_and!; (lia || exact Hr || exact Hq)|].
  exact (pending_counter_quiescent 2 0 s Hn Hr Hq).
Defined.






(** The gap of C5 is there in the other two revisions as well.  In the second
    revision of src/include/LockFreeQueue.h [push] counts its item at entry
    (line 262), before it has a slot; in src/LockFreeQueue.h it counts it
    (line 54) before it sets the slot's flag (line 58). *)
Example pending_counter_mid_push_actions :
  let q := (steps (ActionsQueue.step 4) 2 (ActionsQueue.init 4 0)
              (ActionsQueue.call_push 0 5)).1 in
  ActionsQueue._pendingData q = 1 ∧
  ActionsQueue._head q = ActionsQueue._tail q ∧
  ActionsQueue._buffer q = [0; 0; 0; 0] ∧
  ActionsQueue.hasData q = true.
Proof. by vm_compute. Qed.

Example pending_counter_mid_push_hasData :
  let q := (steps (HasDataQueue.step 4) 13 (HasDataQueue.init 4 0)
              (HasDataQueue.call_push 0 5)).1 in
  HasDataQueue._pendingData q = 1 ∧
  HasDataQueue._hasData q = [false; false; false; false] ∧
  HasDataQueue.hasData q = true.
Proof. by vm_compute. Qed.

End QueueSpec.

(** * Further properties of src/include/LockFreeQueue.h, first revision *)
Module BusyQueueFacts.
Import BusyQueue BusyQueueProofs.

Section Facts.
Context {QueueItemT : Type} (bufferSize : Z) (value_init : QueueItemT).
Local Abbreviation queue := (@queue QueueItemT).
Local Abbreviation thread := (@thread QueueItemT).
Local Abbreviation system := (@system QueueItemT).
Local Abbreviation step := (step bufferSize).
Local Abbreviation inv := (inv bufferSize).
Local Abbreviation reachable := (reachable bufferSize value_init).
Local Abbreviation push := (push bufferSize value_init).
Local Abbreviation pop := (pop bufferSize value_init).

(** The sum over a list is the term of one element plus the sum over the
    others. *)
Lemma sumZ_lookup {A} (f : A → Z) (l : list A) i a :
  l !! i = Some a → sumZ f l = f a + sumZ f (take i l ++ drop (S i) l).
Proof.
  intros Hi. rewrite <- (take_drop_middle _ _ _ Hi) at 1.
  rewrite !sumZ_app, sumZ_cons. lia.
Qed.

Lemma sumZ_lookup2 {A} (f : A → Z) (l : list A) i j a b :
  (∀ x, 0 ≤ f x) → i ≠ j → l !! i = Some a → l !! j = Some b →
  f a + f b ≤ sumZ f l.
Proof.
  intros Hf Hij Hi Hj. rewrite (sumZ_lookup f l i a Hi).
  assert (∃ k, (take i l ++ drop (S i) l) !! k = Some b) as [k Hk].
  { pose proof (lookup_lt_Some _ _ _ Hi) as Hlen.
    destruct (decide (j < i)%nat).
    - exists j. rewrite lookup_app_l by (rewrite length_take; lia).
      by rewrite lookup_take_lt by lia.
    - exists (j - 1)%nat.
      rewrite lookup_app_r by (rewrite length_take; lia).
      rewrite length_take, lookup_drop.
      replace (S i + (j - 1 - i `min` length l))%nat with j by lia. done. }
  rewrite (sumZ_lookup f _ k b Hk).
  pose proof (sumZ_nonneg f (take k (take i l ++ drop (S i) l) ++
                             drop (S k) (take i l ++ drop (S i) l)) Hf).
  lia.
Qed.

(** The invariant with a chosen call in front. *)
Lemma inv_lookup (q : queue) (l : list thread) i (t : thread) :
  l !! i = Some t → inv q l → inv q (t :: take i l ++ drop (S i) l).
Proof.
  intros Hi Hinv. eapply inv_Permutation; [|exact Hinv].
  rewrite <- (take_drop_middle _ _ _ Hi) at 1.
  symmetry. apply Permutation_middle.
Qed.

(** X1.  Mutual exclusion (lines 50-69 and 122-144).  In every reachable
    state at most one call is between winning [_canUpdate] and giving it
    back; while one is, the flag is taken, and while none is, it is free. *)
Theorem mutual_exclusion (s : system) :
  0 < bufferSize < 2 ^ 63 → reachable s →
  (∀ i j t u, i ≠ j → calls s !! i = Some t → calls s !! j = Some u →
     in_cs t = 1 → in_cs u = 0) ∧
  (_canUpdate (shared s) = false ↔
     ∃ i t, calls s !! i = Some t ∧ in_cs t = 1).
Proof.
  intros Hn Hr. pose proof (reachable_inv _ _ s Hn Hr) as Hinv.
  pose proof (inv_mutex _ _ _ Hinv) as Hm.
  assert (∀ x : thread, 0 ≤ in_cs x) as Hge
    by (intros x; pose proof (in_cs_range x); lia).
  split.
  - intros i j t u Hij Hi Hj Ht.
    pose proof (sumZ_lookup2 in_cs (calls s) i j t u Hge Hij Hi Hj).
    pose proof (in_cs_range u). destruct (_canUpdate (shared s)); lia.
  - split.
    + intros Hc. rewrite Hc in Hm.
      destruct (decide (Forall (λ x : thread, in_cs x = 0) (calls s)))
        as [Hall|Hex].
      { rewrite (sumZ_zero _ _ Hall) in Hm. lia. }
      apply not_Forall_Exists in Hex; [|apply _].
      apply Exists_exists in Hex as (t & Hin & Ht).
      apply list_elem_of_lookup in Hin as [i Hi].
      exists i, t. split; [done|]. pose proof (in_cs_range t). cbn in Ht. lia.
    + intros (i & t & Hi & Ht).
      rewrite (sumZ_lookup in_cs _ i t Hi) in Hm.
      pose proof (sumZ_nonneg in_cs (take i (calls s) ++ drop (S i) (calls s))
                    Hge).
      destruct (_canUpdate (shared s)); [lia|done].
Qed.

(** X2.  Slot ownership (lines 56-62, 87-89, 127-137, 160-162).  In every
    reachable state the [_isBusy] flag of a slot is set exactly when some
    call in progress has claimed the slot and not yet given it back, and no
    two calls own the same slot. *)
Theorem slot_ownership (s : system) (k : Z) :
  0 < bufferSize < 2 ^ 63 → reachable s → 0 ≤ k < bufferSize →
  (at_ (_isBusy (shared s)) k = Some true ↔
     ∃ i t, calls s !! i = Some t ∧ holds (shared s) t = Some k) ∧
  (∀ i j t u, i ≠ j → calls s !! i = Some t → calls s !! j = Some u →
     holds (shared s) t = Some k → holds (shared s) u ≠ Some k).
Proof.
  intros Hn Hr Hk. pose proof (reachable_inv _ _ s Hn Hr) as Hinv.
  destruct (inv_holders _ _ _ Hinv k Hk) as [Hflag Hle].
  assert (∀ x : thread, 0 ≤ holding (shared s) k x) as Hge
    by (intros x; pose proof (holding_range (shared s) k x); lia).
  split; [split|].
  - rewrite Hflag. intros [= Hone%bool_decide_eq_true].
    destruct (decide (Forall (λ x : thread, holding (shared s) k x = 0)
                        (calls s))) as [Hall|Hex].
    { rewrite (sumZ_zero _ _ Hall) in Hone. lia. }
    apply not_Forall_Exists in Hex; [|apply _].
    apply Exists_exists in Hex as (t & Hin & Ht).
    apply list_elem_of_lookup in Hin as [i Hi].
    exists i, t. split; [done|]. cbn in Ht. unfold holding in Ht.
    by destruct (decide (holds (shared s) t = Some k)).
  - intros (i & t & Hi & Ht). rewrite Hflag. f_equal.
    apply bool_decide_eq_true.
    assert (holding (shared s) k t = 1) as Hone
      by (unfold holding; by rewrite decide_True).
    pose proof (sumZ_lookup (holding (shared s) k) _ i t Hi) as Hsum.
    pose proof (sumZ_nonneg (holding (shared s) k)
                  (take i (calls s) ++ drop (S i) (calls s)) Hge).
    lia.
  - intros i j t u Hij Hi Hj Ht Hu.
    pose proof (sumZ_lookup2 (holding (shared s) k) (calls s) i j t u
                  Hge Hij Hi Hj) as Hsum.
    assert (holding (shared s) k t = 1) as Hone
      by (unfold holding; by rewrite decide_True).
    assert (holding (shared s) k u = 1) as Htwo
      by (unfold holding; by rewrite decide_True).
    lia.
Qed.

(** From a state that satisfies the invariant no step throws and none is
    undefined. *)
Lemma step_no_failure (q : queue) (t : thread) (o : list thread) :
  inv q (t :: o) →
  pc t ≠ Threw ∧ pc t ≠ Undefined →
  pc (step q t).2 ≠ Threw ∧ pc (step q t).2 ≠ Undefined.
Proof.
  intros Hinv Hok.
  pose proof Hinv as [Hwf Hloc Hcs Hrg _ _ _].
  apply Forall_cons in Hloc as [Hlt _], Hcs as [Hct _], Hrg as [Hrt _].
  destruct Hwf as [Hn Hb Hbs Hh Htl].
  destruct t as [l a b n k d i j].
  destruct l;
    cbn [local_ok BusyQueue.cs_ok holds pc keepTrying pushIndex popIndex
         newTail] in Hlt, Hct, Hrt, Hok; try (by destruct Hok).
  all: try (cbn; done).
  - (* PushAcquire *)
    unfold BusyQueue.step; cbn [pc]. by destruct (_canUpdate q).
  - (* PushNewTail *)
    by erewrite step_PushNewTail by (reflexivity || (apply umod_Some; lia)).
  - (* PushCheckFull *)
    unfold BusyQueue.step; cbn [pc]. by destruct (decide _).
  - (* PushExchange *)
    destruct Hct as (-> & _ & _).
    destruct (at_is_Some (_isBusy q) (_tail q)) as [old Hold]; [lia|].
    erewrite step_PushExchange by (reflexivity || exact Hold).
    by destruct old.
  - (* PushRetry *)
    unfold BusyQueue.step; cbn [pc keepTrying pushIndex].
    by destruct k; [|destruct i].
  - (* PushWrite *)
    destruct Hlt as [i0 ->]. specialize (Hrt i0 eq_refl).
    destruct (at_is_Some (_buffer q) i0) as [x Hx]; [lia|].
    by erewrite step_PushWrite by (reflexivity || exact Hx).
  - (* PushFree *)
    destruct Hlt as [i0 ->]. specialize (Hrt i0 eq_refl).
    destruct (at_is_Some (_isBusy q) i0) as [x Hx]; [lia|].
    by erewrite step_PushFree by (reflexivity || exact Hx).
  - (* PopAcquire *)
    unfold BusyQueue.step; cbn [pc]. by destruct (_canUpdate q).
  - (* PopCheckEmpty *)
    unfold BusyQueue.step; cbn [pc]. by destruct (decide _).
  - (* PopExchange *)
    destruct Hct as (-> & _).
    destruct (at_is_Some (_isBusy q) (_head q)) as [old Hold]; [lia|].
    erewrite step_PopExchange by (reflexivity || exact Hold).
    by destruct old.
  - (* PopNewHead *)
    by erewrite step_PopNewHead by (reflexivity || (apply umod_Some; lia)).
  - (* PopRetry *)
    unfold BusyQueue.step; cbn [pc keepTrying popIndex].
    by destruct k; [|destruct j].
  - (* PopRead *)
    destruct Hlt as [j0 ->]. specialize (Hrt j0 eq_refl).
    destruct (at_is_Some (_buffer q) j0) as [x Hx]; [lia|].
    by erewrite step_PopRead by (reflexivity || exact Hx).
  - (* PopFree *)
    destruct Hlt as [j0 ->]. specialize (Hrt j0 eq_refl).
    destruct (at_is_Some (_isBusy q) j0) as [x Hx]; [lia|].
    by erewrite step_PopFree by (reflexivity || exact Hx).
Qed.

(** X3.  No call fails (the [at] of lines 56, 80, 87, 127, 155 and 160, the
    [%] of lines 52 and 134, the [*] on the optionals).  In every reachable
    state no call has thrown [std::out_of_range] and none has run into
    undefined behaviour: every index handed to [at] is inside its array. *)
Theorem no_call_fails (s : system) :
  0 < bufferSize < 2 ^ 63 → reachable s →
  Forall (λ t, pc t ≠ Threw ∧ pc t ≠ Undefined) (calls s).
Proof.
  intros Hn. induction 1 as [|s s' Hr IH Hstep]; [by constructor|].
  pose proof (reachable_inv _ _ s Hn Hr) as Hinv.
  destruct Hstep as [s v|s x|s i t Hi]; cbn.
  - apply Forall_app. split; [done|]. by repeat constructor.
  - apply Forall_app. split; [done|]. by repeat constructor.
  - apply Forall_insert; [done|].
    apply (step_no_failure _ _ _ (inv_lookup _ _ _ _ Hi Hinv)).
    by eapply Forall_lookup_1 in IH.
Qed.

(** X4.  One caller (lines 36-166).  From any state a single caller can
    find between two of its calls, any sequence of [push] and [pop] calls,
    each given 13 steps or more, reports what a first-in first-out store of
    at most [bufferSize - 1] items reports, leaves the items of that store in
    the ring, and leaves [hasData()] true exactly when the store is not
    empty. *)
Theorem sequential_fifo (q : queue) (os : list op) (fuel : nat) :
  idle bufferSize q → (13 ≤ fuel)%nat →
  let r := perform_all bufferSize value_init fuel q os in
  let m := fifo_perform_all bufferSize value_init (contents bufferSize q) os in
  r.2 = m.2 ∧
  contents bufferSize r.1 = m.1 ∧
  idle bufferSize r.1 ∧
  (hasData r.1 = true ↔ m.1 ≠ []).
Proof.
  intros Hidle Hfuel r m.
  destruct (perform_all_idle bufferSize value_init q os fuel Hidle Hfuel)
    as (Hi & Hc & Hr).
  fold r in Hi, Hc, Hr. fold m in Hc, Hr.
  split; [done|]. split; [done|]. split; [done|].
  unfold hasData. rewrite bool_decide_eq_true.
  rewrite (idle_pendingData _ _ Hi).
  rewrite <- (length_contents _ _ (idle_wf _ _ Hi)), Hc.
  destruct m.1; cbn; split; (done || lia).
Qed.

Lemma sumZ_le {A} (f : A → Z) (c : Z) (l : list A) :
  (∀ a, f a ≤ c) → sumZ f l ≤ c * Z.of_nat (length l).
Proof.
  intros Hf. induction l as [|a l IH]; [cbn; lia|].
  rewrite sumZ_cons. specialize (Hf a). cbn [length]. lia.
Qed.



(** X6.  The exclusion flag is taken (lines 48-78 and 120-153).  While
    [_canUpdate] is [false] and its holder does not move, a [push] and a [pop]
    never get into the critical section and never return: they alternate
    between the failed [exchange] and [backOff], with a delay that stays
    between the start value and the maximum.  The [push] has added its 2 to
    [_pendingData]; nothing else in the queue changes. *)
Theorem flag_taken_spins (q : queue) (v x : QueueItemT) (fuel : nat) :
  _canUpdate q = false →
  (let r := push fuel q v in
   finished r.2 = false ∧ in_cs r.2 = 0 ∧ pushIndex r.2 = None ∧
   sleepDurationStart ≤ sleepDuration r.2 ≤ _maxSleepDuration ∧
   _buffer r.1 = _buffer q ∧ _isBusy r.1 = _isBusy q ∧
   _head r.1 = _head q ∧ _tail r.1 = _tail q ∧ _canUpdate r.1 = false ∧
   ((0 < fuel)%nat → _pendingData r.1 = wrap_ll (_pendingData q + 2))) ∧
  (let r := pop fuel q x in
   finished r.2 = false ∧ in_cs r.2 = 0 ∧ popIndex r.2 = None ∧
   popedData r.2 = x ∧
   sleepDurationStart ≤ sleepDuration r.2 ≤ _maxSleepDuration ∧
   r.1 = q).
Proof.
  intros Hc. split.
  - unfold BusyQueue.push.
    pose (I := λ (q' : queue) (t' : thread),
      (_buffer q' = _buffer q ∧ _isBusy q' = _isBusy q ∧
       _head q' = _head q ∧ _tail q' = _tail q ∧ _canUpdate q' = false) ∧
      keepTrying t' = true ∧ pushIndex t' = None ∧
      -10 ≤ sleepDuration t' ≤ 1 ∧
      match pc t' with
      | PushBegin => False
      | PushAcquire | PushRetry =>
          _pendingData q' = wrap_ll (_pendingData q + 2)
      | _ => False
      end).
    assert (∀ q' t', I q' t' → I (step q' t').1 (step q' t').2) as Hstep.
    { intros [b' bs' h' t' p' c'] [l a b n k d i j].
      intros ((Eb & Ebs & Eh & Et & Ec) & Hk & Hi & Hd & Hpc).
      cbn in Eb, Ebs, Eh, Et, Ec, Hk, Hi, Hd, Hpc.
      subst b' bs' h' t' c' k i. unfold I.
      destruct l; try done; cbn; repeat split; try done.
      all: unfold backOff, sleepDurationStep, _maxSleepDuration,
             sleepDurationStart; repeat destruct (decide _); lia. }
    destruct fuel as [|fuel]; [cbn; repeat split; (done || lia)|].
    rewrite run_unfold. cbn [finished call_push pc].
    cbn [step call_push pc goto bufferItem popedData newTail keepTrying
         sleepDuration pushIndex popIndex].
    pose proof (run_invariant step finished I Hstep fuel
                  (set_pendingData (wrap_ll (_pendingData q + 2)) q)
                  (Thread PushAcquire v value_init 0 true sleepDurationStart
                     None None)) as HI.
    destruct (run step finished fuel _ _) as [q' t'].
    destruct HI as ((? & ? & ? & ? & ?) & ? & ? & ? & Hpc).
    { by repeat split. }
    cbn [fst snd] in *.
    unfold finished, in_cs, sleepDurationStart, _maxSleepDuration.
    repeat split; try done; try lia; by destruct (pc t').
  - unfold BusyQueue.pop.
    pose (I := λ (q' : queue) (t' : thread),
      q' = q ∧ keepTrying t' = true ∧ popIndex t' = None ∧
      popedData t' = x ∧ -10 ≤ sleepDuration t' ≤ 1 ∧
      match pc t' with
      | PopAcquire | PopRetry => True
      | _ => False
      end).
    assert (∀ q' t', I q' t' → I (step q' t').1 (step q' t').2) as Hstep.
    { intros q' [l a b n k d i j] (-> & Hk & Hi & Hx & Hd & Hpc).
      cbn in Hk, Hi, Hx, Hd, Hpc. subst k j b. unfold I.
      destruct l; try done; cbn; rewrite ?Hc; cbn; repeat split; try done.
      all: unfold backOff, sleepDurationStep, _maxSleepDuration,
             sleepDurationStart; repeat destruct (decide _); lia. }
    pose proof (run_invariant step finished I Hstep fuel q (call_pop value_init x))
      as HI.
    destruct (run step finished fuel _ _) as [q' t'].
    destruct HI as (? & ? & ? & ? & ? & Hpc).
    { by repeat split. }
    cbn [fst snd] in *.
    unfold finished, in_cs, sleepDurationStart, _maxSleepDuration.
    repeat split; try done; try lia; by destruct (pc t').
Qed.

(** X7.  Single writer (lines 80 and 155).  The only step that changes an
    item of [_buffer] is the write of line 80, and it changes the slot the
    writing [push] owns; with X2, no other call owns that slot.  No step of
    a [pop] changes [_buffer]. *)
Theorem items_written_by_owner (q : queue) (t : thread) (k : Z) :
  0 ≤ k →
  at_ (_buffer (step q t).1) k ≠ at_ (_buffer q) k →
  pc t = PushWrite ∧ pushIndex t = Some k ∧ holds q t = Some k ∧
  at_ (_buffer (step q t).1) k = Some (bufferItem t).
Proof.
  intros Hk. destruct t as [l a b n c d i j].
  unfold BusyQueue.step. cbn [pc].
  destruct l; cbn [fst snd goto set_newTail set_keepTrying set_pushIndex
                   set_popIndex set_popedData set_sleepDuration pushIndex
                   popIndex keepTrying bufferItem];
    repeat match goal with
           | |- context [match ?x with _ => _ end] =>
               lazymatch x with
               | store_at (_buffer _) _ _ => fail
               | _ => destruct x
               end
           | |- context [if ?x then _ else _] => destruct x
           end;
    cbn [fst snd _buffer set_buffer set_isBusy set_head set_tail
         set_pendingData set_canUpdate]; try done.
  (* PushWrite with an index *)
  unfold store_at. destruct (at_ (_buffer q) z) as [old|] eqn:Hold;
    cbn [fst snd _buffer set_buffer]; [|done].
  intros Hne. destruct (decide (z = k)) as [->|Hzk].
  - repeat split; try done.
    rewrite at_lookup by done. apply list_lookup_insert_eq.
    apply at_Some_range in Hold. lia.
  - exfalso. apply Hne. apply at_Some_range in Hold.
    rewrite !at_lookup by done. apply list_lookup_insert_ne. lia.
Qed.

End Facts.
End BusyQueueFacts.

(** * The walk around a ring

    The indices from [h] up to, not including, [t] around a ring of [n]
    slots: what [ring_slots] is in each revision. *)
Section RingWalk.
Variables n h t : Z.
Hypothesis Hn : 0 < n.
Hypothesis Hh : 0 ≤ h < n.
Hypothesis Ht : 0 ≤ t < n.
Local Abbreviation walk h t :=
  ((λ k, (h + k) `mod` n) <$> seqZ 0 ((t - h) `mod` n)).

Lemma walk_inside : Forall (λ i, 0 ≤ i < n) (walk h t).
Proof.
  apply Forall_fmap, Forall_forall. intros k _. cbn.
  apply Z.mod_pos_bound. lia.
Qed.

Lemma walk_length : Z.of_nat (length (walk h t)) = (t - h) `mod` n.
Proof.
  rewrite length_fmap, length_seqZ.
  pose proof (Z.mod_pos_bound (t - h) n). lia.
Qed.

Lemma walk_misses_tail : t ∉ walk h t.
Proof.
  intros (k & E & Hk%elem_of_seqZ)%list_elem_of_fmap.
  assert ((t - h) `mod` n = k) as Ek; [|lia].
  rewrite E, Zminus_mod_idemp_l.
  replace (h + k - h) with k by lia.
  apply Z.mod_small.
  pose proof (Z.mod_pos_bound (t - h) n). lia.
Qed.

Lemma walk_push : (t + 1) `mod` n ≠ h → walk h ((t + 1) `mod` n) = walk h t ++ [t].
Proof.
  intros Hfull. pose proof (Z.mod_pos_bound (t - h) n).
  rewrite ring_succ by lia.
  rewrite seqZ_app by lia. rewrite fmap_app. f_equal.
  rewrite seqZ_cons, seqZ_nil by lia. cbn. f_equal.
  rewrite Z.add_0_l. apply ring_tail; lia.
Qed.

Lemma walk_pop : h ≠ t → walk h t = h :: walk ((h + 1) `mod` n) t.
Proof.
  intros Hne. pose proof (Z.mod_pos_bound (t - h) n).
  assert ((t - h) `mod` n ≠ 0) by (by rewrite <- ring_empty by lia).
  rewrite ring_pred by lia.
  rewrite seqZ_cons by lia. cbn. f_equal.
  - rewrite Z.add_0_r. apply Z.mod_small. lia.
  - rewrite <- (fmap_add_seqZ 1 0), <- list_fmap_compose.
    replace (Z.pred ((t - h) `mod` n)) with ((t - h) `mod` n - 1) by lia.
    apply list_fmap_ext. intros _ k _. cbn.
    rewrite Zplus_mod_idemp_l. f_equal. lia.
Qed.
End RingWalk.

(** * Further properties of src/include/LockFreeQueue.h, second revision *)
Module ActionsQueueFacts.
Import ActionsQueue ActionsQueueProofs.

Section Steps.
Context {QueueItemT : Type} (bufferSize : Z).
Local Abbreviation queue := (@queue QueueItemT).
Local Abbreviation thread := (@thread QueueItemT).
Local Abbreviation step := (step bufferSize).

Lemma step_PushCheckFull_space_actions (q : queue) (t : thread) :
  pc t = PushCheckFull → newTail t ≠ _head q →
  step q t = (q, goto PushLoadSlot t).
Proof.
  intros Hpc Hn. unfold ActionsQueue.step. rewrite Hpc. by rewrite decide_True.
Qed.

Lemma step_PushExchange_actions (q : queue) (t : thread) i old :
  pc t = PushExchange i → at_ (_isBusy q) i = Some old →
  step q t = (set_isBusy (<[Z.to_nat i := true]> (_isBusy q)) q,
              goto (if old then PushRelease else PushClaim) t).
Proof.
  intros Hpc Hi. unfold ActionsQueue.step. rewrite Hpc, Hi. by destruct old.
Qed.

Lemma step_PushWrite_actions (q : queue) (t : thread) i x :
  pc t = PushWrite → pushIndex t = Some i → at_ (_buffer q) i = Some x →
  step q t = (set_buffer (<[Z.to_nat i := bufferItem t]> (_buffer q)) q,
              goto PushCommit t).
Proof.
  intros Hpc Hi Hx. unfold ActionsQueue.step.
  by rewrite Hpc, Hi, (store_at_Some _ _ _ _ Hx).
Qed.

Lemma step_PushFree_actions (q : queue) (t : thread) i x :
  pc t = PushFree → pushIndex t = Some i → at_ (_isBusy q) i = Some x →
  step q t = (set_isBusy (<[Z.to_nat i := false]> (_isBusy q)) q,
              goto (Returned true) t).
Proof.
  intros Hpc Hi Hx. unfold ActionsQueue.step.
  by rewrite Hpc, Hi, (store_at_Some _ _ _ _ Hx).
Qed.

Lemma step_PopCheckEmpty_data_actions (q : queue) (t : thread) h :
  pc t = PopCheckEmpty h → h ≠ _tail q →
  step q t = (q, goto PopLoadSlot t).
Proof.
  intros Hpc Hn. unfold ActionsQueue.step. rewrite Hpc. by rewrite decide_True.
Qed.

Lemma step_PopExchange_actions (q : queue) (t : thread) i old :
  pc t = PopExchange i → at_ (_isBusy q) i = Some old →
  step q t = (set_isBusy (<[Z.to_nat i := true]> (_isBusy q)) q,
              goto (if old then PopRelease else PopClaim) t).
Proof.
  intros Hpc Hi. unfold ActionsQueue.step. rewrite Hpc, Hi. by destruct old.
Qed.

Lemma step_PopNewHead_actions (q : queue) (t : thread) h :
  pc t = PopNewHead → umod (wrap_size (_head q + 1)) bufferSize = Some h →
  step q t = (q, goto (PopStoreHead h) t).
Proof. intros Hpc Hn. unfold ActionsQueue.step. by rewrite Hpc, Hn. Qed.

Lemma step_PopRead_actions (q : queue) (t : thread) i v :
  pc t = PopRead → popIndex t = Some i → at_ (_buffer q) i = Some v →
  step q t = (q, goto PopCountAction (set_popedData v t)).
Proof.
  intros Hpc Hi Hv. unfold ActionsQueue.step. by rewrite Hpc, Hi, Hv.
Qed.

Lemma step_PopFree_actions (q : queue) (t : thread) i x :
  pc t = PopFree → popIndex t = Some i → at_ (_isBusy q) i = Some x →
  step q t = (set_isBusy (<[Z.to_nat i := false]> (_isBusy q)) q,
              goto (Returned true) t).
Proof.
  intros Hpc Hi Hx. unfold ActionsQueue.step.
  by rewrite Hpc, Hi, (store_at_Some _ _ _ _ Hx).
Qed.
End Steps.

Section Sequential.
Context {QueueItemT : Type} (bufferSize : Z) (value_init : QueueItemT).
Local Abbreviation queue := (@queue QueueItemT).
Local Abbreviation thread := (@thread QueueItemT).
Local Abbreviation step := (step bufferSize).
Local Abbreviation wf := (wf bufferSize).
Local Abbreviation full := (full bufferSize).
Local Abbreviation idle := (idle bufferSize).
Local Abbreviation occupancy := (occupancy bufferSize).
Local Abbreviation ring_slots := (ring_slots bufferSize).
Local Abbreviation contents := (contents bufferSize).
Local Abbreviation candidate_tail := (candidate_tail bufferSize).
Local Abbreviation push := (push bufferSize value_init).
Local Abbreviation pop := (pop bufferSize value_init).
Local Abbreviation call_push := (call_push value_init).
Local Abbreviation call_pop := (call_pop value_init).

Lemma candidate_tail_actions (q : queue) :
  wf q → candidate_tail q = (_tail q + 1) `mod` bufferSize.
Proof.
  intros [Hn _ _ _ Ht]. unfold ActionsQueue.candidate_tail.
  by rewrite wrap_size_id by lia.
Qed.

(** A [push] that finds room: fourteen steps. *)
Lemma push_claimed_actions (q : queue) v fuel :
  wf q → _canUpdate q = true → ¬ full q →
  at_ (_isBusy q) (_tail q) = Some false →
  push (14 + fuel) q v =
    (Queue (<[Z.to_nat (_tail q) := v]> (_buffer q)) (_isBusy q) (_head q)
       (candidate_tail q) (wrap_ll (_pendingActions q + 1))
       (wrap_ll (_pendingData q + 1)) true,
     goto (Returned true)
       (set_keepTrying false
          (set_pushIndex (Some (_tail q))
             (set_newTail (candidate_tail q) (call_push v))))).
Proof.
  intros [Hn Hb Hbs Hh Ht] Hc Hfull Hfree.
  unfold ActionsQueue.push, ActionsQueue.full, ActionsQueue.candidate_tail in *.
  destruct q as [b bs h t pa p c]; fields; subst c.
  destruct (at_is_Some b t) as [x Hx]; [lia|].
  destruct (at_is_Some (<[Z.to_nat t:=true]> bs) t) as [y Hy];
    [rewrite length_insert; lia|].
  change (14 + fuel)%nat
    with (S (S (S (S (S (S (S (S (S (S (S (S (S (S fuel)))))))))))))).
  do 3 exec. exec with step_PushNewTail_actions by (apply umod_Some; lia).
  exec with step_PushCheckFull_space_actions by done.
  exec. exec with step_PushExchange_actions by exact Hfree.
  do 4 exec. exec with step_PushWrite_actions by (done || exact Hx).
  exec. exec with step_PushFree_actions by (done || exact Hy).
  rewrite run_finished by done. reduce.
  rewrite list_insert_insert_eq, wrap_ll_add.
  rewrite at_lookup in Hfree by lia. rewrite (list_insert_id _ _ _ Hfree).
  by replace (pa + 2 + -1) with (pa + 1) by lia.
Qed.

(** A [pop] that finds an item: fourteen steps. *)
Lemma pop_claimed_actions (q : queue) x v fuel :
  wf q → _canUpdate q = true → ¬ empty q →
  at_ (_isBusy q) (_head q) = Some false →
  at_ (_buffer q) (_head q) = Some v →
  pop (14 + fuel) q x =
    (Queue (_buffer q) (_isBusy q) ((_head q + 1) `mod` bufferSize) (_tail q)
       (wrap_ll (_pendingActions q + -1)) (wrap_ll (_pendingData q + -1)) true,
     goto (Returned true)
       (set_popedData v
          (set_keepTrying false
             (set_popIndex (Some (_head q)) (call_pop x))))).
Proof.
  intros [Hn Hb Hbs Hh Ht] Hc He Hfree Hv.
  unfold ActionsQueue.pop, ActionsQueue.empty in *.
  destruct q as [b bs h t pa p c]; fields; subst c.
  destruct (at_is_Some (<[Z.to_nat h:=true]> bs) h) as [y Hy];
    [rewrite length_insert; lia|].
  change (14 + fuel)%nat
    with (S (S (S (S (S (S (S (S (S (S (S (S (S (S fuel)))))))))))))).
  do 2 exec. exec with step_PopCheckEmpty_data_actions by done.
  exec. exec with step_PopExchange_actions by exact Hfree.
  exec. exec with step_PopNewHead_actions by (apply umod_Some; lia).
  do 3 exec. exec with step_PopRead_actions by (done || exact Hv).
  do 2 exec. exec with step_PopFree_actions by (done || exact Hy).
  rewrite run_finished by done. reduce.
  rewrite list_insert_insert_eq.
  rewrite at_lookup in Hfree by lia. rewrite (list_insert_id _ _ _ Hfree).
  rewrite wrap_size_id by lia. done.
Qed.

(** *** The ring *)

Lemma occupancy_bounds_actions (q : queue) :
  wf q → 0 ≤ occupancy q < bufferSize.
Proof.
  intros [Hn _ _ _ _]. unfold ActionsQueue.occupancy.
  apply Z.mod_pos_bound. lia.
Qed.

Lemma full_at_capacity_actions (q : queue) :
  wf q → full q ↔ occupancy q = bufferSize - 1.
Proof.
  intros Hwf. unfold ActionsQueue.full.
  rewrite candidate_tail_actions by done.
  destruct Hwf as [Hn _ _ Hh Ht]. unfold ActionsQueue.occupancy.
  apply ring_full; lia.
Qed.

Lemma empty_at_zero_actions (q : queue) :
  wf q → empty q ↔ occupancy q = 0.
Proof.
  intros [Hn _ _ Hh Ht]. unfold ActionsQueue.empty, ActionsQueue.occupancy.
  apply ring_empty; lia.
Qed.

Lemma length_contents_actions (q : queue) :
  wf q → Z.of_nat (length (contents q)) = occupancy q.
Proof.
  intros [Hn Hb Hbs Hh Ht]. unfold ActionsQueue.contents.
  rewrite BusyQueueProofs.length_omap_Forall.
  - unfold ActionsQueue.ring_slots, ActionsQueue.occupancy.
    apply walk_length. lia.
  - eapply Forall_impl; [apply (walk_inside bufferSize); lia|]. cbn.
    intros i Hi. apply at_is_Some. lia.
Qed.

Lemma idle_fresh_actions :
  0 < bufferSize < 2 ^ 63 → idle (init bufferSize value_init).
Proof.
  intros Hn. split.
  - split; cbn; try lia; by rewrite length_replicate.
  - done.
  - intros i Hi. cbn. rewrite at_lookup by lia.
    apply lookup_replicate_2. lia.
  - unfold ActionsQueue.occupancy. cbn. by rewrite Z.mod_0_l by lia.
  - unfold ActionsQueue.occupancy. cbn. by rewrite Z.mod_0_l by lia.
Qed.

Lemma contents_fresh_actions :
  0 < bufferSize → contents (init bufferSize value_init) = [].
Proof.
  intros Hn. unfold ActionsQueue.contents, ActionsQueue.ring_slots,
    ActionsQueue.occupancy. cbn.
  by rewrite Z.mod_0_l by lia.
Qed.

(** *** One call on an idle queue *)

Lemma push_idle_full_actions (q : queue) v fuel :
  idle q → occupancy q = bufferSize - 1 →
  ∃ t', push (9 + fuel) q v = (q, t') ∧ result t' = Some false ∧
        sleepDuration t' = 0.
Proof.
  intros [Hwf Hc Hbusy Hpa Hp] Hocc. eexists. split.
  - assert (full q) as Hfull by (by apply full_at_capacity_actions).
    rewrite (push_full_actions bufferSize value_init q v fuel);
      [|destruct Hwf; lia|done|exact Hfull].
    f_equal. pose proof (occupancy_bounds_actions _ Hwf).
    destruct Hwf as [Hn _ _ _ _].
    destruct q as [b bs h t pa p c]; fields.
    unfold set_pendingData, set_pendingActions. cbn.
    rewrite !wrap_ll_id by lia. done.
  - done.
Qed.

Lemma push_idle_space_actions (q : queue) v fuel :
  idle q → occupancy q ≠ bufferSize - 1 →
  ∃ q' t', push (14 + fuel) q v = (q', t') ∧ result t' = Some true ∧
           idle q' ∧ contents q' = contents q ++ [v].
Proof.
  intros [Hwf Hc Hbusy Hpa Hp] Hocc.
  assert (¬ full q) as Hfull by by rewrite full_at_capacity_actions.
  pose proof (occupancy_bounds_actions _ Hwf) as Hr.
  pose proof (candidate_tail_actions q Hwf) as Hct.
  do 2 eexists. split.
  { apply push_claimed_actions; try done. apply Hbusy. by destruct Hwf. }
  split; [done|].
  unfold ActionsQueue.full in Hfull. rewrite Hct in *.
  destruct Hwf as [Hn Hb Hbs Hh Ht].
  pose proof (walk_push bufferSize (_head q) (_tail q)
                ltac:(lia) ltac:(lia) ltac:(lia) Hfull) as Hslots.
  pose proof (walk_misses_tail bufferSize (_head q) (_tail q) ltac:(lia))
    as Htail.
  pose proof (walk_inside bufferSize (_head q) (_tail q) ltac:(lia))
    as Hrange.
  split.
  - split.
    + split; cbn; try done.
      * by rewrite length_insert.
      * apply Z.mod_pos_bound. lia.
    + done.
    + done.
    + unfold ActionsQueue.occupancy in *. cbn. rewrite ring_succ by lia.
      rewrite Hpa. apply wrap_ll_id. lia.
    + unfold ActionsQueue.occupancy in *. cbn. rewrite ring_succ by lia.
      rewrite Hp. apply wrap_ll_id. lia.
  - unfold ActionsQueue.contents, ActionsQueue.ring_slots,
      ActionsQueue.occupancy. cbn [_buffer _head _tail].
    rewrite Hslots, omap_app. f_equal.
    + apply BusyQueueProofs.omap_ext_Forall.
      apply Forall_forall. intros i Hi.
      assert (i ≠ _tail q) by (intros ->; done).
      pose proof (proj1 (Forall_forall _ _) Hrange i Hi) as Hi2. cbn in Hi2.
      rewrite !at_lookup by lia.
      apply list_lookup_insert_ne. lia.
    + cbn. rewrite at_lookup by lia.
      rewrite list_lookup_insert_eq by lia. done.
Qed.

Lemma pop_idle_empty_actions (q : queue) x fuel :
  idle q → contents q = [] →
  ∃ t', pop (5 + fuel) q x = (q, t') ∧ result t' = Some false ∧
        popedData t' = x.
Proof.
  intros [Hwf Hc _ _ _] Hnil.
  exists (goto (Returned false) (set_keepTrying false (call_pop x))).
  split; [|done].
  apply pop_empty_actions; [done|].
  apply (empty_at_zero_actions q Hwf).
  rewrite <- length_contents_actions by done. by rewrite Hnil.
Qed.

Lemma pop_idle_data_actions (q : queue) x y l fuel :
  idle q → contents q = y :: l →
  ∃ q' t', pop (14 + fuel) q x = (q', t') ∧ result t' = Some true ∧
           popedData t' = y ∧ idle q' ∧ contents q' = l.
Proof.
  intros [Hwf Hc Hbusy Hpa Hp] Hcons.
  assert (¬ empty q) as Hne.
  { rewrite empty_at_zero_actions, <- length_contents_actions by done.
    by rewrite Hcons. }
  pose proof (occupancy_bounds_actions _ Hwf) as Hr.
  assert (occupancy q ≠ 0) as Hocc by (by rewrite <- empty_at_zero_actions).
  pose proof Hwf as [Hn Hb Hbs Hh Ht].
  pose proof (walk_pop bufferSize (_head q) (_tail q)
                ltac:(lia) ltac:(lia) ltac:(lia) Hne) as Hslots.
  unfold ActionsQueue.contents, ActionsQueue.ring_slots,
    ActionsQueue.occupancy in Hcons.
  rewrite Hslots in Hcons.
  destruct (at_is_Some (_buffer q) (_head q)) as [v Hv]; [lia|].
  cbn in Hcons. rewrite Hv in Hcons. cbn in Hcons.
  injection Hcons as -> Hl.
  do 2 eexists. split.
  { apply pop_claimed_actions; try done. apply Hbusy. lia. }
  split; [done|]. split; [done|]. split; [|done].
  split.
  - split; cbn; try done. apply Z.mod_pos_bound. lia.
  - done.
  - done.
  - unfold ActionsQueue.occupancy, ActionsQueue.empty in *. cbn.
    rewrite ring_pred by lia. rewrite Hpa. apply wrap_ll_id. lia.
  - unfold ActionsQueue.occupancy, ActionsQueue.empty in *. cbn.
    rewrite ring_pred by lia. rewrite Hp. apply wrap_ll_id. lia.
Qed.

(** *** Calls in sequence behave as the first-in first-out store *)
Lemma perform_idle_actions (q : queue) o fuel :
  idle q → (14 ≤ fuel)%nat →
  idle (perform bufferSize value_init fuel q o).1 ∧
  contents (perform bufferSize value_init fuel q o).1 =
    (BusyQueue.fifo_perform bufferSize value_init (contents q) o).1 ∧
  (perform bufferSize value_init fuel q o).2 =
    (BusyQueue.fifo_perform bufferSize value_init (contents q) o).2.
Proof.
  intros Hidle Hfuel. pose proof (idle_wf _ _ Hidle) as Hwf.
  destruct o as [v|]; cbn [perform BusyQueue.fifo_perform].
  - rewrite length_contents_actions by done.
    destruct (decide (_ < _)) as [Hlt|Hge].
    + replace fuel with (14 + (fuel - 14))%nat by lia.
      destruct (push_idle_space_actions q v (fuel - 14) Hidle)
        as (q' & t' & E & Hres & ? & ?); [lia|].
      rewrite E. cbn. by rewrite Hres.
    + replace fuel with (9 + (fuel - 9))%nat by lia.
      pose proof (occupancy_bounds_actions _ Hwf).
      destruct (push_idle_full_actions q v (fuel - 9) Hidle)
        as (t' & E & Hres & ?); [lia|].
      rewrite E. cbn. by rewrite Hres.
  - destruct (contents q) as [|y l] eqn:Hc.
    + replace fuel with (5 + (fuel - 5))%nat by lia.
      destruct (pop_idle_empty_actions q value_init (fuel - 5) Hidle Hc)
        as (t' & E & Hres & Hx).
      rewrite E. cbn. by rewrite Hres, Hx.
    + replace fuel with (14 + (fuel - 14))%nat by lia.
      destruct (pop_idle_data_actions q value_init y l (fuel - 14) Hidle Hc)
        as (q' & t' & E & Hres & Hx & ? & ?).
      rewrite E. cbn. by rewrite Hres, Hx.
Qed.

Lemma perform_all_idle_actions (q : queue) os fuel :
  idle q → (14 ≤ fuel)%nat →
  idle (perform_all bufferSize value_init fuel q os).1 ∧
  contents (perform_all bufferSize value_init fuel q os).1 =
    (BusyQueue.fifo_perform_all bufferSize value_init (contents q) os).1 ∧
  (perform_all bufferSize value_init fuel q os).2 =
    (BusyQueue.fifo_perform_all bufferSize value_init (contents q) os).2.
Proof.
  intros Hidle Hfuel. revert q Hidle.
  induction os as [|o os IH]; intros q Hidle; [done|].
  cbn [perform_all BusyQueue.fifo_perform_all].
  destruct (perform_idle_actions q o fuel Hidle Hfuel) as (Hi & Hc & Hr).
  destruct (perform bufferSize value_init fuel q o) as [q1 r].
  destruct (BusyQueue.fifo_perform bufferSize value_init (contents q) o)
    as [l1 r'].
  cbn [fst snd] in *. subst r'.
  destruct (IH q1 Hi) as (Hi2 & Hc2 & Hr2). rewrite Hc in *.
  destruct (perform_all bufferSize value_init fuel q1 os) as [q2 rs].
  destruct (BusyQueue.fifo_perform_all bufferSize value_init l1 os)
    as [l2 rs'].
  cbn [fst snd] in *. by subst.
Qed.

(** X12.  One caller of the second revision (lines 252-388).  From any state
    a single caller can find between two of its calls, any sequence of [push]
    and [pop] calls, each given 14 steps or more, reports what a first-in
    first-out store of at most [bufferSize - 1] items reports, leaves the
    items of that store in the ring, and leaves [hasData()] and [hasWork()]
    true exactly when the store is not empty. *)
Theorem sequential_fifo_actions (q : queue) (os : list BusyQueue.op)
    (fuel : nat) :
  idle q → (14 ≤ fuel)%nat →
  let r := perform_all bufferSize value_init fuel q os in
  let m := BusyQueue.fifo_perform_all bufferSize value_init (contents q) os in
  r.2 = m.2 ∧ contents r.1 = m.1 ∧ idle r.1 ∧
  (hasData r.1 = true ↔ m.1 ≠ []) ∧
  (hasWork r.1 = true ↔ m.1 ≠ []).
Proof.
  intros Hidle Hfuel r m.
  destruct (perform_all_idle_actions q os fuel Hidle Hfuel) as (Hi & Hc & Hr).
  fold r in Hi, Hc, Hr. fold m in Hc, Hr.
  split; [done|]. split; [done|]. split; [done|].
  unfold hasData, hasWork. rewrite !bool_decide_eq_true.
  rewrite (idle_pendingData _ _ Hi), (idle_pendingActions _ _ Hi).
  rewrite <- (length_contents_actions _ (idle_wf _ _ Hi)), Hc.
  destruct m.1; cbn; split; split; (done || lia).
Qed.

(** X13.  The two revisions of src/include/LockFreeQueue.h agree for one
    caller.  On fresh queues of the same size, any sequence of [push] and
    [pop] calls, each given 14 steps or more, gets the same reports from the
    first revision and from the second, and leaves the same items in the
    ring; [hasData()] agrees as well. *)
Theorem revisions_agree (os : list BusyQueue.op) (fuel : nat) :
  0 < bufferSize < 2 ^ 63 → (14 ≤ fuel)%nat →
  let a := BusyQueue.perform_all bufferSize value_init fuel
             (BusyQueue.init bufferSize value_init) os in
  let b := perform_all bufferSize value_init fuel
             (init bufferSize value_init) os in
  a.2 = b.2 ∧
  BusyQueue.contents bufferSize a.1 = contents b.1 ∧
  BusyQueue.hasData a.1 = hasData b.1.
Proof.
  intros Hn Hfuel a b.
  destruct (BusyQueueProofs.perform_all_idle bufferSize value_init
              (BusyQueue.init bufferSize value_init) os fuel
              (BusyQueueProofs.idle_init _ _ Hn) ltac:(lia))
    as (Hia & Hca & Hra).
  destruct (perform_all_idle_actions (init bufferSize value_init) os fuel
              (idle_fresh_actions Hn) Hfuel) as (Hib & Hcb & Hrb).
  fold a in Hia, Hca, Hra. fold b in Hib, Hcb, Hrb.
  rewrite BusyQueueProofs.contents_init in Hca, Hra by lia.
  rewrite contents_fresh_actions in Hcb, Hrb by lia.
  split; [congruence|]. split; [congruence|].
  unfold BusyQueue.hasData, hasData.
  rewrite (BusyQueue.idle_pendingData _ _ Hia), (idle_pendingData _ _ Hib).
  rewrite <- (BusyQueueProofs.length_contents _ _ (BusyQueue.idle_wf _ _ Hia)).
  rewrite <- (length_contents_actions _ (idle_wf _ _ Hib)).
  by rewrite Hca, Hcb.
Qed.

(** X14.  The spin on the exclusion flag (lines 266 and 336).  While
    [_canUpdate] is [false] and its holder does not move, [push] and [pop]
    stay on the [exchange] of their inner [while]: they never return, never
    call [backOff] (the delay stays 0), and change nothing in the queue but
    the two counters [push] has raised at its entry. *)
Theorem spins_on_taken_flag (q : queue) (v x : QueueItemT) (fuel : nat) :
  _canUpdate q = false → (2 ≤ fuel)%nat →
  (let r := push fuel q v in
   pc r.2 = PushAcquire ∧ sleepDuration r.2 = 0 ∧
   r.1 = set_pendingData (wrap_ll (_pendingData q + 1))
           (set_pendingActions (wrap_ll (_pendingActions q + 2)) q)) ∧
  (let r := pop fuel q x in
   pc r.2 = PopAcquire ∧ sleepDuration r.2 = 0 ∧ popedData r.2 = x ∧
   r.1 = q).
Proof.
  intros Hc Hfuel. split.
  - unfold ActionsQueue.push.
    destruct fuel as [|[|fuel]]; [lia|lia|].
    destruct q as [b bs h t pa p c]; fields; subst c.
    do 2 exec.
    assert (∀ k (q' : queue) (t' : thread),
              _canUpdate q' = false → pc t' = PushAcquire →
              run step finished k q' t' = (q', t')) as Hspin.
    { induction k as [|k IH]; intros q' t' Hq' Ht'; [done|].
      rewrite run_unfold. unfold finished, ActionsQueue.step.
      rewrite Ht', Hq'. by apply IH. }
    by rewrite Hspin.
  - unfold ActionsQueue.pop.
    assert (∀ k (q' : queue) (t' : thread),
              _canUpdate q' = false → pc t' = PopAcquire →
              run step finished k q' t' = (q', t')) as Hspin.
    { induction k as [|k IH]; intros q' t' Hq' Ht'; [done|].
      rewrite run_unfold. unfold finished, ActionsQueue.step.
      rewrite Ht', Hq'. by apply IH. }
    by rewrite Hspin.
Qed.

End Sequential.
End ActionsQueueFacts.

(** * Further properties of src/LockFreeQueue.h *)
Module HasDataQueueFacts.
Import HasDataQueue HasDataQueueProofs.

Section Steps.
Context {QueueItemT : Type} (bufferSize : Z).
Local Abbreviation queue := (@queue QueueItemT).
Local Abbreviation thread := (@thread QueueItemT).
Local Abbreviation step := (step bufferSize).

Lemma fetch_add_small p d :
  0 ≤ p + d < 2 ^ 64 → fetch_add p d = p + d.
Proof.
  intros H. unfold fetch_add, wrap_size.
  rewrite Zplus_mod_idemp_r. by apply Z.mod_small.
Qed.

Lemma step_PushWrite_hasData (q : queue) (t : thread) x :
  pc t = PushWrite → at_ (_buffer q) (pushIndex t) = Some x →
  step q t =
    (set_buffer (<[Z.to_nat (pushIndex t) := bufferItem t]> (_buffer q)) q,
     goto PushCountData t).
Proof.
  intros Hpc Hx. unfold HasDataQueue.step.
  by rewrite Hpc, (store_at_Some _ _ _ _ Hx).
Qed.

Lemma step_PushCommit_hasData (q : queue) (t : thread) x :
  pc t = PushCommit → at_ (_hasData q) (pushIndex t) = Some x →
  step q t =
    (set_hasData (<[Z.to_nat (pushIndex t) := true]> (_hasData q)) q,
     goto ReturnedVoid t).
Proof.
  intros Hpc Hx. unfold HasDataQueue.step.
  by rewrite Hpc, (store_at_Some _ _ _ _ Hx).
Qed.

Lemma step_PopRead_hasData (q : queue) (t : thread) i v :
  pc t = PopRead → popIndex t = Some i → at_ (_buffer q) i = Some v →
  step q t = (q, goto PopClear (set_popedData v t)).
Proof.
  intros Hpc Hi Hv. unfold HasDataQueue.step. by rewrite Hpc, Hi, Hv.
Qed.

Lemma step_PopClear_hasData (q : queue) (t : thread) i x :
  pc t = PopClear → popIndex t = Some i → at_ (_hasData q) i = Some x →
  step q t =
    (set_hasData (<[Z.to_nat i := false]> (_hasData q)) q,
     goto PopAssertData t).
Proof.
  intros Hpc Hi Hx. unfold HasDataQueue.step.
  by rewrite Hpc, Hi, (store_at_Some _ _ _ _ Hx).
Qed.

Lemma step_PopAssertData (q : queue) (t : thread) :
  pc t = PopAssertData →
  step q t =
    (q, goto (if decide (0 < _pendingData q) then PopCountData
              else AssertFailed) t).
Proof.
  intros Hpc. unfold HasDataQueue.step. rewrite Hpc. by destruct (decide _).
Qed.

Lemma step_PopAssertAction (q : queue) (t : thread) :
  pc t = PopAssertAction →
  step q t =
    (q, goto (if decide (0 < _pendingActions q) then PopCountAction
              else AssertFailed) t).
Proof.
  intros Hpc. unfold HasDataQueue.step. rewrite Hpc. by destruct (decide _).
Qed.
End Steps.

Section Sequential.
Context {QueueItemT : Type} (bufferSize : Z) (value_init : QueueItemT).
Local Abbreviation queue := (@queue QueueItemT).
Local Abbreviation thread := (@thread QueueItemT).
Local Abbreviation step := (step bufferSize).
Local Abbreviation wf := (wf bufferSize).
Local Abbreviation full := (full bufferSize).
Local Abbreviation idle := (idle bufferSize).
Local Abbreviation occupancy := (occupancy bufferSize).
Local Abbreviation ring_slots := (ring_slots bufferSize).
Local Abbreviation contents := (contents bufferSize).
Local Abbreviation candidate_tail := (candidate_tail bufferSize).
Local Abbreviation push := (push bufferSize value_init).
Local Abbreviation pop := (pop bufferSize value_init).
Local Abbreviation call_push := (call_push value_init).
Local Abbreviation call_pop := (call_pop value_init).

Lemma candidate_tail_small (q : queue) :
  wf q → candidate_tail q = (_tail q + 1) `mod` bufferSize.
Proof.
  intros [Hn _ _ _ Ht]. unfold HasDataQueue.candidate_tail.
  by rewrite wrap_size_id by lia.
Qed.

(** A [push] that finds room: fourteen steps. *)
Lemma push_stored (q : queue) v fuel :
  wf q → _canUpdate q = true → ¬ full q →
  at_ (_hasData q) (_tail q) = Some false →
  push (14 + fuel) q v =
    (Queue (<[Z.to_nat (_tail q) := v]> (_buffer q))
       (<[Z.to_nat (_tail q) := true]> (_hasData q)) (_head q)
       (candidate_tail q)
       (fetch_add (fetch_add (_pendingActions q) 2) (-1))
       (fetch_add (_pendingData q) 1) true,
     goto ReturnedVoid
       (set_keepTrying false
          (set_pushIndex (_tail q)
             (set_newTail (candidate_tail q) (call_push v))))).
Proof.
  intros [Hn Hb Hbs Hh Ht] Hc Hfull Hfree.
  unfold HasDataQueue.push, HasDataQueue.full, HasDataQueue.candidate_tail in *.
  destruct (at_is_Some (_buffer q) (_tail q)) as [old Hold]; [lia|].
  destruct q as [b bs h t pa p c]; fields; subst c.
  change (14 + fuel)%nat
    with (S (S (S (S (S (S (S (S (S (S (S (S (S (S fuel)))))))))))))).
  do 2 exec. exec with step_PushNewTail_hasData by (apply umod_Some; lia).
  exec with step_PushCheckFull_space_hasData by done.
  exec. exec with step_PushHasData by exact Hfree.
  do 4 exec. exec with step_PushWrite_hasData by exact Hold.
  do 2 exec. exec with step_PushCommit_hasData by exact Hfree.
  by rewrite run_finished.
Qed.

(** The steps of a [pop] that finds a committed item, up to the assertion of
    line 102: twelve steps. *)
Lemma pop_taken (q : queue) x v fuel :
  wf q → _canUpdate q = true → ¬ empty q →
  at_ (_hasData q) (_head q) = Some true →
  at_ (_buffer q) (_head q) = Some v →
  pop (12 + fuel) q x =
    run step finished fuel
      (Queue (_buffer q) (<[Z.to_nat (_head q) := false]> (_hasData q))
         ((_head q + 1) `mod` bufferSize) (_tail q) (_pendingActions q)
         (_pendingData q) true)
      (goto PopAssertData
         (set_popedData v
            (set_keepTrying false
               (set_popIndex (Some (_head q)) (call_pop x))))).
Proof.
  intros [Hn Hb Hbs Hh Ht] Hc Hne Hdata Hv.
  unfold HasDataQueue.pop, HasDataQueue.empty in *.
  destruct q as [b bs h t pa p c]; fields; subst c.
  change (12 + fuel)%nat
    with (S (S (S (S (S (S (S (S (S (S (S (S fuel)))))))))))).
  do 2 exec. exec with step_PopCheckEmpty_data_hasData by done.
  exec. exec with step_PopHasData by exact Hdata.
  exec. exec with step_PopNewHead_hasData by (apply umod_Some; lia).
  do 3 exec. exec with step_PopRead_hasData by (reflexivity || exact Hv).
  exec with step_PopClear_hasData by (reflexivity || exact Hdata).
  by rewrite wrap_size_id by lia.
Qed.

(** A [pop] that finds a committed item and both counters positive: sixteen
    steps. *)
Lemma pop_delivered (q : queue) x v fuel :
  wf q → _canUpdate q = true → ¬ empty q →
  at_ (_hasData q) (_head q) = Some true →
  at_ (_buffer q) (_head q) = Some v →
  0 < _pendingData q → 0 < _pendingActions q →
  pop (16 + fuel) q x =
    (Queue (_buffer q) (<[Z.to_nat (_head q) := false]> (_hasData q))
       ((_head q + 1) `mod` bufferSize) (_tail q)
       (fetch_add (_pendingActions q) (-1))
       (fetch_add (_pendingData q) (-1)) true,
     goto (Returned true)
       (set_popedData v
          (set_keepTrying false
             (set_popIndex (Some (_head q)) (call_pop x))))).
Proof.
  intros Hwf Hc Hne Hdata Hv Hp Hpa.
  change (16 + fuel)%nat with (12 + (S (S (S (S fuel)))))%nat.
  rewrite (pop_taken q x v _ Hwf Hc Hne Hdata Hv).
  destruct q as [b bs h t pa p c]; fields.
  erewrite run_step; [|reflexivity|by apply step_PopAssertData].
  fields. rewrite decide_True by done.
  exec.
  erewrite run_step; [|reflexivity|by apply step_PopAssertAction].
  fields. rewrite decide_True by done.
  exec. by rewrite run_finished.
Qed.

(** *** The ring *)

Lemma occupancy_bounds (q : queue) : wf q → 0 ≤ occupancy q < bufferSize.
Proof.
  intros [Hn _ _ _ _]. unfold HasDataQueue.occupancy.
  apply Z.mod_pos_bound. lia.
Qed.

Lemma full_at_capacity (q : queue) :
  wf q → full q ↔ occupancy q = bufferSize - 1.
Proof.
  intros Hwf. unfold HasDataQueue.full. rewrite candidate_tail_small by done.
  destruct Hwf as [Hn _ _ Hh Ht]. unfold HasDataQueue.occupancy.
  apply ring_full; lia.
Qed.

Lemma empty_at_zero (q : queue) : wf q → empty q ↔ occupancy q = 0.
Proof.
  intros [Hn _ _ Hh Ht]. unfold HasDataQueue.empty, HasDataQueue.occupancy.
  apply ring_empty; lia.
Qed.

Lemma ring_slots_inside (q : queue) :
  wf q → Forall (λ i, 0 ≤ i < bufferSize) (ring_slots q).
Proof.
  intros [Hn _ _ _ _]. unfold HasDataQueue.ring_slots.
  apply Forall_fmap, Forall_forall.
  intros k _. cbn. apply Z.mod_pos_bound. lia.
Qed.

(** The slot at [_tail] is outside the ring. *)
Lemma tail_outside_ring (q : queue) : wf q → _tail q ∉ ring_slots q.
Proof.
  intros [Hn _ _ Hh Ht]. unfold HasDataQueue.ring_slots, HasDataQueue.occupancy.
  intros (k & E & Hk%elem_of_seqZ)%list_elem_of_fmap.
  assert ((_tail q - _head q) `mod` bufferSize = k) as Ek; [|lia].
  rewrite E, Zminus_mod_idemp_l.
  replace (_head q + k - _head q) with k by lia.
  apply Z.mod_small.
  pose proof (Z.mod_pos_bound (_tail q - _head q) bufferSize). lia.
Qed.

Lemma ring_slots_after_push (q : queue) :
  wf q → ¬ full q →
  ring_slots (set_tail (candidate_tail q) q) = ring_slots q ++ [_tail q].
Proof.
  intros Hwf Hfull. pose proof (occupancy_bounds q Hwf) as Hocc.
  unfold HasDataQueue.full in Hfull.
  rewrite candidate_tail_small in * by done.
  destruct Hwf as [Hn _ _ Hh Ht].
  unfold HasDataQueue.ring_slots, HasDataQueue.occupancy in *.
  cbn [_head _tail set_tail].
  rewrite ring_succ by lia.
  rewrite seqZ_app by lia. rewrite fmap_app. f_equal.
  rewrite seqZ_cons, seqZ_nil by lia. cbn. f_equal.
  rewrite Z.add_0_l. apply ring_tail; lia.
Qed.

Lemma ring_slots_before_pop (q : queue) :
  wf q → ¬ empty q →
  ring_slots q =
    _head q :: ring_slots (set_head ((_head q + 1) `mod` bufferSize) q).
Proof.
  intros Hwf Hne. pose proof (occupancy_bounds q Hwf) as Hocc.
  rewrite empty_at_zero in Hne by done.
  destruct Hwf as [Hn _ _ Hh Ht].
  unfold HasDataQueue.ring_slots, HasDataQueue.occupancy, HasDataQueue.empty
    in *.
  cbn [_head _tail set_head].
  rewrite ring_pred by (try lia; intros E; apply Hne; apply ring_empty; lia).
  rewrite seqZ_cons by lia. cbn. f_equal.
  - rewrite Z.add_0_r. apply Z.mod_small. lia.
  - rewrite <- (fmap_add_seqZ 1 0), <- list_fmap_compose.
    replace (Z.pred ((_tail q - _head q) `mod` bufferSize))
      with ((_tail q - _head q) `mod` bufferSize - 1) by lia.
    apply list_fmap_ext. intros _ k _. cbn.
    rewrite Zplus_mod_idemp_l. f_equal. lia.
Qed.

(** Once [_head] has moved on, the old slot is outside the ring. *)
Lemma head_outside_ring_after_pop (q : queue) :
  wf q → ¬ empty q →
  _head q ∉ ring_slots (set_head ((_head q + 1) `mod` bufferSize) q).
Proof.
  intros Hwf Hne. pose proof (occupancy_bounds q Hwf) as Hocc.
  rewrite empty_at_zero in Hne by done.
  destruct Hwf as [Hn _ _ Hh Ht].
  unfold HasDataQueue.ring_slots, HasDataQueue.occupancy, HasDataQueue.empty
    in *.
  cbn [_head _tail set_head].
  rewrite ring_pred by (try lia; intros E; apply Hne; apply ring_empty; lia).
  intros (k & E & Hk%elem_of_seqZ)%list_elem_of_fmap.
  rewrite Zplus_mod_idemp_l in E.
  assert ((1 + k) `mod` bufferSize = 0) as E0.
  { replace (1 + k) with (_head q + 1 + k - _head q) by lia.
    rewrite <- Zminus_mod_idemp_l, <- E.
    by rewrite Z.sub_diag, Z.mod_0_l by lia. }
  rewrite Z.mod_small in E0 by lia. lia.
Qed.

Lemma length_contents_occupancy (q : queue) :
  wf q → Z.of_nat (length (contents q)) = occupancy q.
Proof.
  intros Hwf. pose proof (occupancy_bounds q Hwf).
  unfold HasDataQueue.contents.
  rewrite BusyQueueProofs.length_omap_Forall.
  - unfold HasDataQueue.ring_slots. rewrite length_fmap, length_seqZ. lia.
  - eapply Forall_impl; [by apply ring_slots_inside|]. cbn.
    intros i Hi. apply at_is_Some. destruct Hwf. lia.
Qed.

Lemma idle_fresh :
  0 < bufferSize < 2 ^ 63 → idle (init bufferSize value_init).
Proof.
  intros Hn.
  assert (ring_slots (init bufferSize value_init) = []) as Hring.
  { unfold HasDataQueue.ring_slots, HasDataQueue.occupancy. cbn.
    by rewrite Z.mod_0_l by lia. }
  split.
  - split; cbn; try lia; by rewrite length_replicate.
  - done.
  - intros i Hi. rewrite Hring. rewrite at_lookup by lia.
    rewrite bool_decide_eq_false_2 by apply not_elem_of_nil.
    apply lookup_replicate_2. lia.
  - unfold HasDataQueue.occupancy. cbn. by rewrite Z.mod_0_l by lia.
  - unfold HasDataQueue.occupancy. cbn. by rewrite Z.mod_0_l by lia.
Qed.

Lemma contents_fresh :
  0 < bufferSize → contents (init bufferSize value_init) = [].
Proof.
  intros Hn. unfold HasDataQueue.contents, HasDataQueue.ring_slots,
    HasDataQueue.occupancy. cbn.
  by rewrite Z.mod_0_l by lia.
Qed.

(** *** One call on an idle queue *)

Lemma occupancy_ext (q q' : queue) :
  _head q' = _head q → _tail q' = _tail q → occupancy q' = occupancy q.
Proof. intros Hh Ht. unfold HasDataQueue.occupancy. by rewrite Hh, Ht. Qed.

Lemma ring_slots_ext (q q' : queue) :
  _head q' = _head q → _tail q' = _tail q → ring_slots q' = ring_slots q.
Proof.
  intros Hh Ht. unfold HasDataQueue.ring_slots.
  by rewrite (occupancy_ext q q' Hh Ht), Hh.
Qed.

Lemma push_idle_room (q : queue) v fuel :
  idle q → occupancy q ≠ bufferSize - 1 →
  ∃ q' t', push (14 + fuel) q v = (q', t') ∧ returned t' = true ∧
           idle q' ∧ contents q' = contents q ++ [v].
Proof.
  intros [Hwf Hc Hflags Hpa Hp] Hocc.
  assert (¬ full q) as Hfull by by rewrite full_at_capacity.
  pose proof (occupancy_bounds _ Hwf) as Hr.
  pose proof (ring_slots_after_push q Hwf Hfull) as Hslots.
  pose proof (tail_outside_ring q Hwf) as Htail.
  pose proof (ring_slots_inside q Hwf) as Hrange.
  assert (at_ (_hasData q) (_tail q) = Some false) as Hfree.
  { rewrite Hflags by (destruct Hwf; lia).
    by rewrite bool_decide_eq_false_2. }
  do 2 eexists. split; [by apply push_stored|]. split; [done|].
  set (q' := Queue _ _ _ _ _ _ _).
  assert (ring_slots q' = ring_slots q ++ [_tail q]) as Hslots'
    by (by rewrite <- Hslots; apply ring_slots_ext).
  assert (occupancy q' = occupancy q + 1) as Hocc'.
  { pose proof (candidate_tail_small q Hwf) as Hct.
    unfold HasDataQueue.full in Hfull. rewrite Hct in Hfull.
    destruct Hwf as [Hn Hb Hbs Hh Ht].
    unfold q', HasDataQueue.occupancy. cbn [_head _tail]. rewrite Hct.
    apply ring_succ; lia. }
  destruct Hwf as [Hn Hb Hbs Hh Ht].
  split.
  - split.
    + split; unfold q'; cbn [_buffer _hasData _head _tail]; try done.
      * by rewrite length_insert.
      * by rewrite length_insert.
      * unfold HasDataQueue.candidate_tail. apply Z.mod_pos_bound. lia.
    + done.
    + intros i Hi. rewrite Hslots'. unfold q'. cbn [_hasData].
      rewrite at_lookup by lia.
      destruct (decide (i = _tail q)) as [->|Hit].
      * rewrite list_lookup_insert_eq by lia. f_equal. symmetry.
        apply bool_decide_eq_true. apply elem_of_app. right.
        by apply list_elem_of_singleton.
      * rewrite list_lookup_insert_ne by lia.
        rewrite <- at_lookup by lia. rewrite Hflags by done.
        f_equal. apply bool_decide_ext.
        rewrite elem_of_app, list_elem_of_singleton. tauto.
    + rewrite Hocc'. unfold q'. cbn [_pendingActions].
      rewrite Hpa, (fetch_add_small _ 2) by lia.
      rewrite fetch_add_small; lia.
    + rewrite Hocc'. unfold q'. cbn [_pendingData].
      rewrite Hp, !fetch_add_small; lia.
  - unfold HasDataQueue.contents. rewrite Hslots'.
    unfold q'. cbn [_buffer]. rewrite omap_app. f_equal.
    + apply BusyQueueProofs.omap_ext_Forall.
      apply Forall_forall. intros i Hi.
      assert (i ≠ _tail q) by (intros ->; done).
      pose proof (proj1 (Forall_forall _ _) Hrange i Hi) as Hi2. cbn in Hi2.
      rewrite !at_lookup by lia.
      apply list_lookup_insert_ne. lia.
    + cbn. rewrite at_lookup by lia.
      rewrite list_lookup_insert_eq by lia. done.
Qed.

Lemma pop_idle_none (q : queue) x fuel :
  idle q → contents q = [] →
  ∃ t', pop (5 + fuel) q x = (q, t') ∧ result t' = Some false ∧
        popedData t' = x.
Proof.
  intros [Hwf Hc _ _ _] Hnil.
  exists (goto (Returned false) (set_keepTrying false (call_pop x))).
  split; [|done].
  apply pop_empty_hasData; [done|]. apply empty_at_zero; [done|].
  rewrite <- length_contents_occupancy by done. by rewrite Hnil.
Qed.

Lemma pop_idle_item (q : queue) x y l fuel :
  idle q → contents q = y :: l →
  ∃ q' t', pop (16 + fuel) q x = (q', t') ∧ result t' = Some true ∧
           popedData t' = y ∧ idle q' ∧ contents q' = l.
Proof.
  intros [Hwf Hc Hflags Hpa Hp] Hcons.
  assert (¬ empty q) as Hne.
  { rewrite empty_at_zero, <- length_contents_occupancy by done.
    by rewrite Hcons. }
  pose proof (occupancy_bounds _ Hwf) as Hr.
  pose proof (ring_slots_before_pop q Hwf Hne) as Hslots.
  pose proof (head_outside_ring_after_pop q Hwf Hne) as Hout.
  assert (occupancy q ≠ 0) as Hocc by (by rewrite <- empty_at_zero).
  unfold HasDataQueue.contents in Hcons. rewrite Hslots in Hcons.
  destruct (at_is_Some (_buffer q) (_head q)) as [v Hv];
    [destruct Hwf; lia|].
  cbn in Hcons. rewrite Hv in Hcons. cbn in Hcons.
  injection Hcons as -> Hl.
  assert (at_ (_hasData q) (_head q) = Some true) as Hdata.
  { rewrite Hflags by (destruct Hwf; lia). f_equal.
    apply bool_decide_eq_true. rewrite Hslots. apply elem_of_cons. by left. }
  do 2 eexists. split.
  { apply pop_delivered; try done; lia. }
  split; [done|]. split; [done|].
  set (q' := Queue _ _ _ _ _ _ _).
  assert (ring_slots q' =
            ring_slots (set_head ((_head q + 1) `mod` bufferSize) q))
    as Hslots' by (by apply ring_slots_ext).
  assert (occupancy q' = occupancy q - 1) as Hocc'.
  { destruct Hwf as [Hn Hb Hbs Hh Ht].
    unfold q', HasDataQueue.occupancy, HasDataQueue.empty in *.
    cbn [_head _tail]. apply ring_pred; lia. }
  destruct Hwf as [Hn Hb Hbs Hh Ht].
  split.
  - split.
    + split; unfold q'; cbn [_buffer _hasData _head _tail]; try done.
      * by rewrite length_insert.
      * apply Z.mod_pos_bound. lia.
    + done.
    + intros i Hi. rewrite Hslots'. unfold q'. cbn [_hasData].
      rewrite at_lookup by lia.
      destruct (decide (i = _head q)) as [->|Hih].
      * rewrite list_lookup_insert_eq by lia. f_equal. symmetry.
        by apply bool_decide_eq_false.
      * rewrite list_lookup_insert_ne by lia.
        rewrite <- at_lookup by lia. rewrite Hflags by done.
        f_equal. apply bool_decide_ext. rewrite Hslots, elem_of_cons. tauto.
    + rewrite Hocc'. unfold q'. cbn [_pendingActions].
      rewrite Hpa, fetch_add_small; lia.
    + rewrite Hocc'. unfold q'. cbn [_pendingData].
      rewrite Hp, fetch_add_small; lia.
  - unfold HasDataQueue.contents. by rewrite Hslots'.
Qed.

(** *** Calls in sequence behave as the first-in first-out store *)
Lemma perform_idle_hasData (q : queue) o fuel l' r' :
  idle q → (16 ≤ fuel)%nat →
  fifo_perform bufferSize value_init (contents q) o = Some (l', r') →
  idle (perform bufferSize value_init fuel q o).1 ∧
  contents (perform bufferSize value_init fuel q o).1 = l' ∧
  (perform bufferSize value_init fuel q o).2 = r'.
Proof.
  intros Hidle Hfuel. pose proof (idle_wf _ _ Hidle) as Hwf.
  destruct o as [v|]; cbn [perform fifo_perform].
  - rewrite length_contents_occupancy by done.
    destruct (decide (_ < _)) as [Hlt|Hge]; [|done]. intros [= <- <-].
    replace fuel with (14 + (fuel - 14))%nat by lia.
    destruct (push_idle_room q v (fuel - 14) Hidle)
      as (q' & t' & E & Hback & ? & ?); [lia|].
    rewrite E. cbn. by rewrite Hback.
  - destruct (contents q) as [|y l] eqn:Hc; intros [= <- <-].
    + replace fuel with (5 + (fuel - 5))%nat by lia.
      destruct (pop_idle_none q value_init (fuel - 5) Hidle Hc)
        as (t' & E & Hres & Hx).
      rewrite E. cbn. by rewrite Hres, Hx.
    + replace fuel with (16 + (fuel - 16))%nat by lia.
      destruct (pop_idle_item q value_init y l (fuel - 16) Hidle Hc)
        as (q' & t' & E & Hres & Hx & ? & ?).
      rewrite E. cbn. by rewrite Hres, Hx.
Qed.

Lemma perform_all_idle_hasData (q : queue) os fuel l' rs' :
  idle q → (16 ≤ fuel)%nat →
  fifo_perform_all bufferSize value_init (contents q) os = Some (l', rs') →
  idle (perform_all bufferSize value_init fuel q os).1 ∧
  contents (perform_all bufferSize value_init fuel q os).1 = l' ∧
  (perform_all bufferSize value_init fuel q os).2 = rs'.
Proof.
  intros Hidle Hfuel. revert q l' rs' Hidle.
  induction os as [|o os IH]; intros q l' rs' Hidle.
  { by intros [= <- <-]. }
  cbn [perform_all fifo_perform_all].
  destruct (fifo_perform bufferSize value_init (contents q) o)
    as [[l1 r]|] eqn:E1; [|done].
  destruct (perform_idle_hasData q o fuel l1 r Hidle Hfuel E1)
    as (Hi & Hc & Hr).
  destruct (perform bufferSize value_init fuel q o) as [q1 r1].
  cbn [fst snd] in *. subst r1.
  destruct (fifo_perform_all bufferSize value_init l1 os)
    as [[l2 rs]|] eqn:E2; [|done].
  intros [= <- <-]. rewrite <- Hc in E2.
  destruct (IH q1 l2 rs Hi E2) as (Hi2 & Hc2 & Hr2).
  destruct (perform_all bufferSize value_init fuel q1 os) as [q2 rs2].
  cbn [fst snd] in *. by subst.
Qed.

(** X8.  One caller of src/LockFreeQueue.h (lines 20-120).  From any state
    a single caller can find between two of its calls, any sequence of
    [push] and [pop] calls in which no [push] meets a full ring, each call
    given 16 steps or more: every [push] comes back, every [pop] reports what
    a first-in first-out store reports (so no assertion of [pop] fires), the
    items of that store are left in the ring, and [hasData()] and [hasWork()]
    are true exactly when the store is not empty. *)
Theorem sequential_fifo_hasData (q : queue) (os : list op) (fuel : nat)
    (l' : list QueueItemT) (rs' : list outcome) :
  idle q → (16 ≤ fuel)%nat →
  fifo_perform_all bufferSize value_init (contents q) os = Some (l', rs') →
  let r := perform_all bufferSize value_init fuel q os in
  r.2 = rs' ∧ contents r.1 = l' ∧ idle r.1 ∧
  (hasData r.1 = true ↔ l' ≠ []) ∧
  (hasWork r.1 = true ↔ l' ≠ []).
Proof.
  intros Hidle Hfuel Hm r.
  destruct (perform_all_idle_hasData q os fuel l' rs' Hidle Hfuel Hm)
    as (Hi & Hc & Hr).
  fold r in Hi, Hc, Hr.
  split; [done|]. split; [done|]. split; [done|].
  unfold hasData, hasWork. rewrite !bool_decide_eq_true.
  rewrite (idle_pendingData _ _ Hi), (idle_pendingActions _ _ Hi).
  rewrite <- (length_contents_occupancy _ (idle_wf _ _ Hi)), Hc.
  destruct l'; cbn; split; split; (done || lia).
Qed.

(** X9.  [push] blocks on a full ring (lines 27-50).  With the exclusion flag
    free, the ring full and no other thread running, [push] never returns,
    however many steps it is given: it goes round its loop with a delay
    between 0 and the maximum, keeps its 2 in [_pendingActions] (so
    [hasWork()] stays true while the counter does not wrap), and changes no
    item, no flag of a slot, no index and not [_pendingData]. *)
Theorem push_blocks_when_full (q : queue) (v : QueueItemT) (fuel : nat) :
  0 < bufferSize → _canUpdate q = true → full q →
  let r := push fuel q v in
  finished r.2 = false ∧ returned r.2 = false ∧
  0 ≤ sleepDuration r.2 ≤ _maxSleepDuration ∧
  _buffer r.1 = _buffer q ∧ _hasData r.1 = _hasData q ∧
  _head r.1 = _head q ∧ _tail r.1 = _tail q ∧
  _pendingData r.1 = _pendingData q ∧
  ((0 < fuel)%nat → _pendingActions r.1 = fetch_add (_pendingActions q) 2).
Proof.
  intros Hn Hc Hfull. unfold HasDataQueue.push.
  pose (I := λ (q' : queue) (t' : thread),
    (_buffer q' = _buffer q ∧ _hasData q' = _hasData q ∧
     _head q' = _head q ∧ _tail q' = _tail q ∧
     _pendingData q' = _pendingData q ∧
     _pendingActions q' = fetch_add (_pendingActions q) 2) ∧
    keepTrying t' = true ∧ 0 ≤ sleepDuration t' ≤ 100 ∧
    match pc t' with
    | PushAcquire | PushRetry => _canUpdate q' = true
    | PushNewTail | PushRelease => True
    | PushCheckFull => newTail t' = _head q
    | _ => False
    end).
  assert (∀ q' t', I q' t' → I (step q' t').1 (step q' t').2) as Hstep.
  { intros [b' bs' h' t' pa' p' c'] [l a b n k d i j].
    intros ((Eb & Ebs & Eh & Et & Ep & Epa) & Hk & Hd & Hpc).
    unfold HasDataQueue.full, HasDataQueue.candidate_tail in *.
    cbn in Eb, Ebs, Eh, Et, Ep, Epa, Hk, Hd, Hpc.
    subst b' bs' h' t' p' pa' k. unfold I.
    destruct l; try done; reduce.
    - by subst c'.
    - by rewrite umod_Some, Hfull by lia.
    - subst n. by rewrite decide_False by tauto.
    - repeat split; try done;
        unfold backOff, sleepDurationStep, _maxSleepDuration;
        destruct (decide _); lia. }
  destruct fuel as [|fuel]; [cbn; repeat split; (done || lia)|].
  rewrite run_unfold. cbn [finished call_push pc].
  cbn [step call_push pc goto bufferItem popedData newTail keepTrying
       sleepDuration pushIndex popIndex].
  pose proof (run_invariant step finished I Hstep fuel
                (set_pendingActions (fetch_add (_pendingActions q) 2) q)
                (Thread PushAcquire v value_init 0 true 0 0 None)) as HI.
  destruct (run step finished fuel _ _) as [q' t'].
  destruct HI as ((? & ? & ? & ? & ? & ?) & ? & ? & Hpc).
  { by repeat split. }
  cbn [fst snd] in *. unfold finished, returned, _maxSleepDuration.
  repeat split; try done; try lia; by destruct (pc t').
Qed.

(** X10.  [pop] waits for the commit (lines 67-95).  When the ring is not
    empty but the producer of the slot at [_head] has not yet set its
    [_hasData] flag (line 58), [pop] claims nothing and reads nothing: with
    no other thread running it goes round its loop for as long as it is given
    steps, and leaves the whole queue as it was each time it gives the
    exclusion flag back. *)
Theorem pop_waits_for_commit (q : queue) (x : QueueItemT) (fuel : nat) :
  _canUpdate q = true → ¬ empty q →
  at_ (_hasData q) (_head q) = Some false →
  let r := pop fuel q x in
  finished r.2 = false ∧ popIndex r.2 = None ∧ popedData r.2 = x ∧
  0 ≤ sleepDuration r.2 ≤ _maxSleepDuration ∧
  set_canUpdate true r.1 = q.
Proof.
  intros Hc Hne Hno. unfold HasDataQueue.pop.
  pose (I := λ (q' : queue) (t' : thread),
    set_canUpdate true q' = q ∧
    keepTrying t' = true ∧ popIndex t' = None ∧ popedData t' = x ∧
    0 ≤ sleepDuration t' ≤ 100 ∧
    match pc t' with
    | PopAcquire | PopRetry => _canUpdate q' = true
    | PopLoadHead | PopLoadSlot | PopRelease => True
    | PopCheckEmpty i | PopHasData i => i = _head q
    | _ => False
    end).
  assert (∀ q' t', I q' t' → I (step q' t').1 (step q' t').2) as Hstep.
  { intros [b' bs' h' t' pa' p' c'] [l a b n k d i j].
    intros (Eq & Hk & Hi & Hx & Hd & Hpc).
    unfold HasDataQueue.empty in *. cbn in Eq, Hk, Hi, Hx, Hd, Hpc.
    subst q k j b. cbn in Hc, Hne, Hno, Hpc. unfold I.
    destruct l; try done; reduce.
    - by subst c'.
    - rewrite Hpc. by rewrite decide_True.
    - rewrite Hpc, Hno. by reduce.
    - repeat split; try done;
        unfold backOff, sleepDurationStep, _maxSleepDuration;
        destruct (decide _); lia. }
  pose proof (run_invariant step finished I Hstep fuel q (call_pop x)) as HI.
  destruct (run step finished fuel _ _) as [q' t'].
  destruct HI as (? & ? & ? & ? & ? & Hpc).
  { repeat split; try done. by destruct q as [? ? ? ? ? ? []]. }
  cbn [fst snd] in *. unfold finished, _maxSleepDuration.
  repeat split; try done; try lia; by destruct (pc t').
Qed.

(** X11.  The assertions of [pop] (lines 97-109).  [pop] tests its counters
    only after it has taken the item: when the slot at [_head] is committed
    and [_pendingData] is 0, or [_pendingData] is positive and
    [_pendingActions] is 0, the call stops at the failed assertion with the
    item already copied out, [_head] moved on and the slot's flag cleared,
    and gives no result to its caller; in the second case [_pendingData] has
    been decremented as well.  With both counters positive it returns
    [true]. *)
Theorem pop_assertions (q : queue) (x v : QueueItemT) (fuel : nat) :
  wf q → _canUpdate q = true → ¬ empty q →
  at_ (_hasData q) (_head q) = Some true →
  at_ (_buffer q) (_head q) = Some v →
  let r := pop (16 + fuel) q x in
  popedData r.2 = v ∧
  _head r.1 = (_head q + 1) `mod` bufferSize ∧
  _hasData r.1 = <[Z.to_nat (_head q) := false]> (_hasData q) ∧
  _canUpdate r.1 = true ∧
  (_pendingData q ≤ 0 →
     pc r.2 = AssertFailed ∧ result r.2 = None ∧
     _pendingData r.1 = _pendingData q ∧
     _pendingActions r.1 = _pendingActions q) ∧
  (0 < _pendingData q → _pendingActions q ≤ 0 →
     pc r.2 = AssertFailed ∧ result r.2 = None ∧
     _pendingData r.1 = fetch_add (_pendingData q) (-1) ∧
     _pendingActions r.1 = _pendingActions q) ∧
  (0 < _pendingData q → 0 < _pendingActions q →
     result r.2 = Some true ∧
     _pendingData r.1 = fetch_add (_pendingData q) (-1) ∧
     _pendingActions r.1 = fetch_add (_pendingActions q) (-1)).
Proof.
  intros Hwf Hc Hne Hdata Hv r. unfold r.
  change (16 + fuel)%nat with (12 + (S (S (S (S fuel)))))%nat.
  rewrite (pop_taken q x v _ Hwf Hc Hne Hdata Hv).
  destruct q as [b bs h t pa p c]; fields.
  erewrite run_step; [|reflexivity|by apply step_PopAssertData].
  fields. destruct (decide (0 < p)) as [Hp|Hp].
  - exec.
    erewrite run_step; [|reflexivity|by apply step_PopAssertAction].
    fields. destruct (decide (0 < pa)) as [Hpa|Hpa].
    + exec. rewrite run_finished by done.
      repeat split; try done; lia.
    + rewrite run_finished by done.
      repeat split; try done; lia.
  - rewrite run_finished by done.
    repeat split; try done; lia.
Qed.

End Sequential.
End HasDataQueueFacts.

(** * src/LockFreeQueue.h: threads interleaving on one queue *)
Module HasDataQueueConcurrent.
Import HasDataQueue HasDataQueueProofs HasDataQueueFacts.

Section Concurrent.
Context {QueueItemT : Type} (bufferSize : Z) (value_init : QueueItemT).
Local Abbreviation queue := (@queue QueueItemT).
Local Abbreviation thread := (@thread QueueItemT).
Local Abbreviation system := (@system QueueItemT).
Local Abbreviation step := (step bufferSize).
Local Abbreviation wf := (wf bufferSize).
Local Abbreviation inv := (inv bufferSize).
Local Abbreviation cs_ok := (cs_ok bufferSize).
Local Abbreviation slot_ok := (slot_ok bufferSize).
Local Abbreviation ring_slots := (ring_slots bufferSize).
Local Abbreviation reachable := (reachable bufferSize value_init).
Local Abbreviation sumZ := BusyQueue.sumZ.
Local Abbreviation sumZ_cons := BusyQueueProofs.sumZ_cons.

(** *** Counting flags and wrapping counters *)

Lemma count_set_insert (flags : list bool) (i : nat) (old new : bool) :
  flags !! i = Some old →
  count_set (<[i := new]> flags) =
    count_set flags - (if old then 1 else 0) + (if new then 1 else 0).
Proof.
  unfold count_set. revert i.
  induction flags as [|b flags IH]; intros [|i] Hi; try done.
  - injection Hi as ->.
    change (<[0%nat := new]> (old :: flags)) with (new :: flags).
    rewrite !sumZ_cons. lia.
  - change (<[S i := new]> (b :: flags)) with (b :: <[i := new]> flags).
    rewrite !sumZ_cons, (IH i Hi). lia.
Qed.

Lemma count_set_bounds (flags : list bool) :
  0 ≤ count_set flags ≤ Z.of_nat (length flags).
Proof.
  unfold count_set. induction flags as [|b flags IH]; [cbn; lia|].
  rewrite sumZ_cons. cbn [length]. destruct b; lia.
Qed.

Lemma fetch_add_wrapped x d :
  fetch_add (wrap_size x) d = wrap_size (x + d).
Proof.
  unfold fetch_add, wrap_size.
  by rewrite Zplus_mod_idemp_r, Zplus_mod_idemp_l.
Qed.

(** *** What a step of one call leaves to the others *)

Lemma in_cs_bounds (t : thread) : 0 ≤ in_cs t ≤ 1.
Proof. unfold in_cs. destruct (pc t); lia. Qed.

Lemma writing_at_bounds i (t : thread) : 0 ≤ writing_at i t ≤ 1.
Proof. unfold writing_at. destruct (decide _); lia. Qed.

Lemma reading_at_bounds i (t : thread) : 0 ≤ reading_at i t ≤ 1.
Proof. unfold reading_at. destruct (decide _); lia. Qed.

Lemma counted_data_bounds (t : thread) : 0 ≤ counted_data t ≤ 1.
Proof. unfold counted_data. destruct (pc t); lia. Qed.

Lemma counted_actions_bounds (t : thread) : 0 ≤ counted_actions t ≤ 2.
Proof. unfold counted_actions. destruct (pc t); lia. Qed.

Lemma cs_ok_outside (q : queue) (u : thread) : in_cs u = 0 → cs_ok q u.
Proof. unfold in_cs, HasDataQueue.cs_ok. by destruct (pc u). Qed.

Lemma cs_ok_ext (q q' : queue) (u : thread) :
  _head q' = _head q → _tail q' = _tail q → _hasData q' = _hasData q →
  cs_ok q u → cs_ok q' u.
Proof.
  intros Hh Ht Hf. unfold HasDataQueue.cs_ok, candidate_tail.
  by rewrite Hh, Ht, Hf.
Qed.

(** Only one call is inside the critical section. *)
Lemma others_outside (q : queue) (t : thread) (o : list thread) :
  inv q (t :: o) → in_cs t = 1 → Forall (λ u, in_cs u = 0) o.
Proof.
  intros Hinv Ht. pose proof (inv_mutex _ _ _ Hinv) as Hm.
  rewrite sumZ_cons in Hm.
  assert (∀ u : thread, 0 ≤ in_cs u) as Hge
    by (intros u; pose proof (in_cs_bounds u); lia).
  apply BusyQueueProofs.sumZ_zero_inv; [done|].
  pose proof (BusyQueueProofs.sumZ_nonneg in_cs o Hge).
  destruct (_canUpdate q); lia.
Qed.

Lemma slot_ok_ext (q q' : queue) (l l' : list thread) i :
  ring_slots q' = ring_slots q → _hasData q' = _hasData q →
  sumZ (writing_at i) l' = sumZ (writing_at i) l →
  sumZ (reading_at i) l' = sumZ (reading_at i) l →
  slot_ok q l i → slot_ok q' l' i.
Proof.
  intros Hr Hf Hw Hrd. unfold HasDataQueue.slot_ok. by rewrite Hr, Hf, Hw, Hrd.
Qed.

Lemma fetch_add_eq p d : fetch_add p d = wrap_size (p + d).
Proof. unfold fetch_add, wrap_size. by rewrite Zplus_mod_idemp_r. Qed.

Lemma wrap_size_idem x : wrap_size (wrap_size x) = wrap_size x.
Proof. unfold wrap_size. by rewrite Z.mod_mod. Qed.

Lemma wrap_size_add x y : wrap_size (wrap_size x + y) = wrap_size (x + y).
Proof. unfold wrap_size. by rewrite Zplus_mod_idemp_l. Qed.

Lemma counters_wrapped (q : queue) (l : list thread) :
  inv q l →
  wrap_size (_pendingData q) = _pendingData q ∧
  wrap_size (_pendingActions q) = _pendingActions q.
Proof.
  intros Hinv.
  rewrite (inv_data _ _ _ Hinv), (inv_actions _ _ _ Hinv).
  by rewrite !wrap_size_idem.
Qed.

(** *** The effects a step can have *)

(** A step that writes neither a flag of a slot nor an index. *)
Lemma inv_update_hasData (q q' : queue) (t t' : thread) (o : list thread) :
  inv q (t :: o) →
  length (_buffer q') = length (_buffer q) →
  _hasData q' = _hasData q → _head q' = _head q → _tail q' = _tail q →
  local_ok t' → cs_ok q' t' →
  writing t' = writing t → reading t' = reading t →
  in_cs t' + sumZ in_cs o = (if _canUpdate q' then 0 else 1) →
  _pendingData q' =
    wrap_size (_pendingData q + (counted_data t' - counted_data t)) →
  _pendingActions q' =
    wrap_size (_pendingActions q + (counted_actions t' - counted_actions t)) →
  inv q' (t' :: o).
Proof.
  intros [Hwf Hloc Hcs Hrg Hmx Hslots Hdata Hact]
    Eb Ef Eh Et Hl' Hc' Hw' Hr' Hm' Hp' Hpa'.
  apply Forall_cons in Hloc as [_ Hloc], Hcs as [_ Hcs], Hrg as [Hrt Hrg].
  split.
  - destruct Hwf. split; congruence.
  - by constructor.
  - constructor; [done|]. eapply Forall_impl; [exact Hcs|]. cbn.
    intros u. by apply cs_ok_ext.
  - constructor; [by rewrite Hw', Hr'|done].
  - by rewrite sumZ_cons.
  - intros i Hi. apply (slot_ok_ext q q' (t :: o)); try done.
    + by apply ring_slots_ext.
    + rewrite !sumZ_cons. unfold writing_at. by rewrite Hw'.
    + rewrite !sumZ_cons. unfold reading_at. by rewrite Hr'.
    + by apply Hslots.
  - rewrite sumZ_cons in *. rewrite Hp', Hdata, wrap_size_add, Ef.
    f_equal. lia.
  - rewrite sumZ_cons in *. rewrite Hpa', Hact, wrap_size_add, Ef.
    f_equal. lia.
Qed.

Lemma writing_at_None i (t : thread) : writing t = None → writing_at i t = 0.
Proof. intros H. unfold writing_at. by rewrite H, decide_False. Qed.

Lemma reading_at_None i (t : thread) : reading t = None → reading_at i t = 0.
Proof. intros H. unfold reading_at. by rewrite H, decide_False. Qed.

Lemma writing_at_Some i j (t : thread) :
  writing t = Some j → writing_at i t = if decide (i = j) then 1 else 0.
Proof.
  intros H. unfold writing_at. rewrite H.
  destruct (decide (i = j)) as [->|Hij].
  - by rewrite decide_True.
  - rewrite decide_False; [done|congruence].
Qed.

Lemma reading_at_Some i j (t : thread) :
  reading t = Some j → reading_at i t = if decide (i = j) then 1 else 0.
Proof.
  intros H. unfold reading_at. rewrite H.
  destruct (decide (i = j)) as [->|Hij].
  - by rewrite decide_True.
  - rewrite decide_False; [done|congruence].
Qed.

Lemma sum_writing_nonneg i (l : list thread) : 0 ≤ sumZ (writing_at i) l.
Proof.
  apply BusyQueueProofs.sumZ_nonneg. intros t.
  pose proof (writing_at_bounds i t). lia.
Qed.

Lemma sum_reading_nonneg i (l : list thread) : 0 ≤ sumZ (reading_at i) l.
Proof.
  apply BusyQueueProofs.sumZ_nonneg. intros t.
  pose proof (reading_at_bounds i t). lia.
Qed.

(** The step that moves [_tail] over the slot the [push] takes. *)
Lemma inv_store_tail_hasData (q : queue) (t t' : thread) (o : list thread) :
  inv q (t :: o) →
  in_cs t = 1 → writing t = None → reading t = None →
  candidate_tail bufferSize q ≠ _head q →
  at_ (_hasData q) (_tail q) = Some false →
  writing t' = Some (_tail q) → reading t' = None →
  local_ok t' → in_cs t' = 1 →
  cs_ok (set_tail (candidate_tail bufferSize q) q) t' →
  counted_data t' = counted_data t →
  counted_actions t' = counted_actions t →
  inv (set_tail (candidate_tail bufferSize q) q) (t' :: o).
Proof.
  intros Hinv Hin Hw Hr Hspace Hfree Hw' Hr' Hl' Hin' Hc' Hd' Ha'.
  pose proof (others_outside q t o Hinv Hin) as Hout.
  destruct Hinv as [Hwf Hloc Hcs Hrg Hmx Hslots Hdata Hact].
  apply Forall_cons in Hloc as [_ Hloc], Hrg as [_ Hrg].
  assert (¬ full bufferSize q) as Hfull by done.
  pose proof (ring_slots_after_push bufferSize q Hwf Hfull) as Hring.
  pose proof (tail_outside_ring bufferSize q Hwf) as Htail.
  pose proof (candidate_tail_small bufferSize q Hwf) as Hct.
  pose proof Hwf as [Hn Hb Hbs Hh Ht].
  split.
  - split; cbn; try done. rewrite Hct. apply Z.mod_pos_bound. lia.
  - by constructor.
  - constructor; [done|]. eapply Forall_impl; [exact Hout|]. cbn.
    intros u. apply cs_ok_outside.
  - constructor; [|done]. intros i [Hi|Hi]; [|congruence].
    rewrite Hw' in Hi. injection Hi as <-. done.
  - rewrite sumZ_cons in *. cbn [_canUpdate set_tail]. lia.
  - intros i Hi. specialize (Hslots i Hi).
    unfold HasDataQueue.slot_ok in *. rewrite Hring. cbn [_hasData set_tail].
    rewrite !sumZ_cons in *.
    rewrite (writing_at_None i t Hw), (reading_at_None i t Hr) in Hslots.
    rewrite (writing_at_Some i _ t' Hw'), (reading_at_None i t' Hr').
    pose proof (sum_writing_nonneg i o). pose proof (sum_reading_nonneg i o).
    destruct Hslots as (Hle & HW & HR & Hflag).
    destruct (decide (i = _tail q)) as [->|Hi'].
    + rewrite Hfree in Hflag. injection Hflag as Hflag.
      symmetry in Hflag. apply bool_decide_eq_false in Hflag.
      assert (sumZ (writing_at (_tail q)) o = 0) as HW0.
      { destruct (decide (sumZ (writing_at (_tail q)) o = 0)) as [|Hne];
          [done|]. exfalso. apply Htail, HW. lia. }
      assert (sumZ (reading_at (_tail q)) o = 0) as HR0.
      { destruct (decide (sumZ (reading_at (_tail q)) o = 0)) as [|Hne];
          [done|]. exfalso. apply Hflag. right. lia. }
      rewrite HW0, HR0. split_and!; try lia.
      * intros _. apply elem_of_app. right. by apply list_elem_of_singleton.
      * rewrite Hfree. f_equal. symmetry. apply bool_decide_eq_false.
        intros [[_ ?]|?]; lia.
    + split_and!; try lia.
      * intros HW1. apply elem_of_app. left. apply HW. lia.
      * intros HR1 [Hin1|Hin1%list_elem_of_singleton]%elem_of_app;
          [by apply HR; [lia|]|done].
      * rewrite Hflag. f_equal. apply bool_decide_ext.
        rewrite elem_of_app, list_elem_of_singleton.
        replace (0 + sumZ (writing_at i) o) with (sumZ (writing_at i) o)
          by lia.
        replace (0 + sumZ (reading_at i) o) with (sumZ (reading_at i) o)
          by lia.
        tauto.
  - rewrite sumZ_cons in *. cbn [_pendingData _hasData set_tail].
    rewrite Hdata. f_equal. lia.
  - rewrite sumZ_cons in *. cbn [_pendingActions _hasData set_tail].
    rewrite Hact. f_equal. lia.
Qed.

(** The step that moves [_head] over the slot the [pop] takes. *)
Lemma inv_store_head_hasData (q : queue) (t t' : thread) (o : list thread) :
  inv q (t :: o) →
  in_cs t = 1 → writing t = None → reading t = None →
  _head q ≠ _tail q →
  at_ (_hasData q) (_head q) = Some true →
  writing t' = None → reading t' = Some (_head q) →
  local_ok t' → in_cs t' = 1 →
  cs_ok (set_head ((_head q + 1) `mod` bufferSize) q) t' →
  counted_data t' = counted_data t →
  counted_actions t' = counted_actions t →
  inv (set_head ((_head q + 1) `mod` bufferSize) q) (t' :: o).
Proof.
  intros Hinv Hin Hw Hr Hdata1 Hset Hw' Hr' Hl' Hin' Hc' Hd' Ha'.
  pose proof (others_outside q t o Hinv Hin) as Hout.
  destruct Hinv as [Hwf Hloc Hcs Hrg Hmx Hslots Hdata Hact].
  apply Forall_cons in Hloc as [_ Hloc], Hrg as [_ Hrg].
  assert (¬ empty q) as Hne by done.
  pose proof (ring_slots_before_pop bufferSize q Hwf Hne) as Hring.
  pose proof (head_outside_ring_after_pop bufferSize q Hwf Hne) as Hhead.
  pose proof Hwf as [Hn Hb Hbs Hh Ht].
  split.
  - split; cbn; try done. apply Z.mod_pos_bound. lia.
  - by constructor.
  - constructor; [done|]. eapply Forall_impl; [exact Hout|]. cbn.
    intros u. apply cs_ok_outside.
  - constructor; [|done]. intros i [Hi|Hi]; [congruence|].
    rewrite Hr' in Hi. injection Hi as <-. done.
  - rewrite sumZ_cons in *. cbn [_canUpdate set_head]. lia.
  - intros i Hi. specialize (Hslots i Hi).
    unfold HasDataQueue.slot_ok in *. rewrite Hring in Hslots.
    cbn [_hasData set_head].
    rewrite !sumZ_cons in *.
    rewrite (writing_at_None i t Hw), (reading_at_None i t Hr) in Hslots.
    rewrite (writing_at_None i t' Hw'), (reading_at_Some i _ t' Hr').
    pose proof (sum_writing_nonneg i o). pose proof (sum_reading_nonneg i o).
    destruct Hslots as (Hle & HW & HR & Hflag).
    destruct (decide (i = _head q)) as [->|Hi'].
    + rewrite Hset in Hflag. injection Hflag as Hflag.
      symmetry in Hflag. apply bool_decide_eq_true in Hflag.
      assert (sumZ (reading_at (_head q)) o = 0) as HR0.
      { destruct (decide (sumZ (reading_at (_head q)) o = 0)) as [|Hne'];
          [done|]. exfalso. apply HR; [lia|]. apply elem_of_cons. by left. }
      assert (sumZ (writing_at (_head q)) o = 0) as HW0.
      { destruct Hflag as [[_ ?]|?]; lia. }
      rewrite HW0, HR0. split_and!; try lia.
      * by intros _.
      * rewrite Hset. f_equal. symmetry. apply bool_decide_eq_true.
        right. lia.
    + split_and!; try lia.
      * intros HW1.
        assert (i ∈ _head q :: ring_slots
                  (set_head ((_head q + 1) `mod` bufferSize) q)) as Hin1
          by (apply HW; lia).
        apply elem_of_cons in Hin1 as [?|?]; done.
      * intros HR1 Hin1. apply HR; [lia|]. apply elem_of_cons. by right.
      * rewrite Hflag. f_equal. apply bool_decide_ext.
        rewrite elem_of_cons.
        replace (0 + sumZ (writing_at i) o) with (sumZ (writing_at i) o)
          by lia.
        replace (0 + sumZ (reading_at i) o) with (sumZ (reading_at i) o)
          by lia.
        tauto.
  - rewrite sumZ_cons in *. cbn [_pendingData _hasData set_head].
    rewrite Hdata. f_equal. lia.
  - rewrite sumZ_cons in *. cbn [_pendingActions _hasData set_head].
    rewrite Hact. f_equal. lia.
Qed.

(** A write to a flag that keeps what the thread inside the critical section
    has read. *)
Lemma cs_ok_flags (q : queue) (flags : list bool) (u : thread) :
  (at_ (_hasData q) (_tail q) = Some false →
   at_ flags (_tail q) = Some false) →
  (_head q ≠ _tail q → at_ (_hasData q) (_head q) = Some true →
   at_ flags (_head q) = Some true) →
  cs_ok q u → cs_ok (set_hasData flags q) u.
Proof.
  intros Ht Hh. unfold HasDataQueue.cs_ok, candidate_tail.
  cbn [_head _tail _hasData set_hasData].
  destruct (pc u); try done; intuition.
Qed.

Lemma head_in_ring (q : queue) :
  wf q → _head q ≠ _tail q → _head q ∈ ring_slots q.
Proof.
  intros Hwf Hne. rewrite (ring_slots_before_pop bufferSize q Hwf Hne).
  apply elem_of_cons. by left.
Qed.

(** The step that sets the flag of the slot the [push] has written. *)
Lemma inv_commit (q : queue) (t t' : thread) (o : list thread) j :
  inv q (t :: o) →
  in_cs t = 0 → writing t = Some j → reading t = None →
  writing t' = None → reading t' = None → local_ok t' → in_cs t' = 0 →
  counted_data t' = counted_data t - 1 →
  counted_actions t' = counted_actions t - 1 →
  inv (set_hasData (<[Z.to_nat j := true]> (_hasData q)) q) (t' :: o).
Proof.
  intros Hinv Hin Hw Hr Hw' Hr' Hl' Hin' Hd' Ha'.
  destruct Hinv as [Hwf Hloc Hcs Hrg Hmx Hslots Hdata Hact].
  apply Forall_cons in Hloc as [_ Hloc], Hcs as [_ Hcs], Hrg as [Hrt Hrg].
  assert (0 ≤ j < bufferSize) as Hj by (apply Hrt; by left).
  pose proof (tail_outside_ring bufferSize q Hwf) as Htail.
  pose proof Hwf as [Hn Hb Hbs Hh Ht].
  (* what the invariant says about slot [j] *)
  pose proof (Hslots j Hj) as Hsj.
  unfold HasDataQueue.slot_ok in Hsj. rewrite !sumZ_cons in Hsj.
  rewrite (writing_at_Some j j t Hw), (reading_at_None j t Hr) in Hsj.
  rewrite decide_True in Hsj by done.
  destruct Hsj as (Hle & HW & HR & Hflag).
  pose proof (sum_writing_nonneg j o). pose proof (sum_reading_nonneg j o).
  assert (sumZ (writing_at j) o = 0) as HW0 by lia.
  assert (sumZ (reading_at j) o = 0) as HR0 by lia.
  assert (j ∈ ring_slots q) as Hjin by (apply HW; lia).
  assert (at_ (_hasData q) j = Some false) as Hfalse.
  { rewrite Hflag. f_equal. apply bool_decide_eq_false.
    intros [[_ ?]|?]; lia. }
  assert (j ≠ _tail q) as Hjt by (intros ->; done).
  split.
  - split; cbn; try done. by rewrite length_insert.
  - by constructor.
  - constructor; [by apply cs_ok_outside|].
    eapply Forall_impl; [exact Hcs|]. cbn. intros u. apply cs_ok_flags.
    + intros Hf. rewrite at_lookup in * by lia.
      rewrite list_lookup_insert_ne by lia. done.
    + intros _ Hf. rewrite at_lookup in * by lia.
      destruct (decide (j = _head q)) as [->|Hjh].
      * apply list_lookup_insert_eq. lia.
      * rewrite list_lookup_insert_ne by lia. done.
  - constructor; [|done]. intros i [Hi|Hi]; congruence.
  - rewrite sumZ_cons in *. cbn [_canUpdate set_hasData]. lia.
  - intros i Hi. specialize (Hslots i Hi).
    unfold HasDataQueue.slot_ok in *.
    rewrite (ring_slots_ext bufferSize q (set_hasData _ q)) by done.
    cbn [_hasData set_hasData]. rewrite !sumZ_cons in *.
    rewrite (writing_at_None i t' Hw'), (reading_at_None i t' Hr').
    rewrite (writing_at_Some i j t Hw), (reading_at_None i t Hr) in Hslots.
    destruct (decide (i = j)) as [->|Hij].
    + rewrite HW0, HR0. split_and!; try lia.
      rewrite at_lookup by lia. rewrite list_lookup_insert_eq by lia.
      f_equal. symmetry. apply bool_decide_eq_true. left. split; [done|lia].
    + destruct Hslots as (Hle' & HW' & HR' & Hflag').
      split_and!; try done.
      rewrite at_lookup by lia. rewrite list_lookup_insert_ne by lia.
      rewrite <- at_lookup by lia. done.
  - rewrite sumZ_cons in *. cbn [_pendingData _hasData set_hasData].
    rewrite at_lookup in Hfalse by lia.
    rewrite (count_set_insert _ _ false true Hfalse).
    rewrite Hdata. f_equal. lia.
  - rewrite sumZ_cons in *. cbn [_pendingActions _hasData set_hasData].
    rewrite at_lookup in Hfalse by lia.
    rewrite (count_set_insert _ _ false true Hfalse).
    rewrite Hact. f_equal. lia.
Qed.

(** The step that clears the flag of the slot the [pop] has read. *)
Lemma inv_clear (q : queue) (t t' : thread) (o : list thread) j :
  inv q (t :: o) →
  in_cs t = 0 → writing t = None → reading t = Some j →
  writing t' = None → reading t' = None → local_ok t' → in_cs t' = 0 →
  counted_data t' = counted_data t + 1 →
  counted_actions t' = counted_actions t + 1 →
  inv (set_hasData (<[Z.to_nat j := false]> (_hasData q)) q) (t' :: o).
Proof.
  intros Hinv Hin Hw Hr Hw' Hr' Hl' Hin' Hd' Ha'.
  destruct Hinv as [Hwf Hloc Hcs Hrg Hmx Hslots Hdata Hact].
  apply Forall_cons in Hloc as [_ Hloc], Hcs as [_ Hcs], Hrg as [Hrt Hrg].
  assert (0 ≤ j < bufferSize) as Hj by (apply Hrt; by right).
  pose proof Hwf as [Hn Hb Hbs Hh Ht].
  pose proof (Hslots j Hj) as Hsj.
  unfold HasDataQueue.slot_ok in Hsj. rewrite !sumZ_cons in Hsj.
  rewrite (writing_at_None j t Hw), (reading_at_Some j j t Hr) in Hsj.
  rewrite decide_True in Hsj by done.
  destruct Hsj as (Hle & HW & HR & Hflag).
  pose proof (sum_writing_nonneg j o). pose proof (sum_reading_nonneg j o).
  assert (sumZ (writing_at j) o = 0) as HW0 by lia.
  assert (sumZ (reading_at j) o = 0) as HR0 by lia.
  assert (j ∉ ring_slots q) as Hjout by (apply HR; lia).
  assert (at_ (_hasData q) j = Some true) as Htrue.
  { rewrite Hflag. f_equal. apply bool_decide_eq_true. right. lia. }
  split.
  - split; cbn; try done. by rewrite length_insert.
  - by constructor.
  - constructor; [by apply cs_ok_outside|].
    eapply Forall_impl; [exact Hcs|]. cbn. intros u. apply cs_ok_flags.
    + intros Hf. rewrite at_lookup in * by lia.
      destruct (decide (j = _tail q)) as [->|Hjt].
      * apply list_lookup_insert_eq. lia.
      * rewrite list_lookup_insert_ne by lia. done.
    + intros Hne Hf. rewrite at_lookup in * by lia.
      assert (j ≠ _head q) as Hjh
        by (intros ->; apply Hjout; by apply head_in_ring).
      rewrite list_lookup_insert_ne by lia. done.
  - constructor; [|done]. intros i [Hi|Hi]; congruence.
  - rewrite sumZ_cons in *. cbn [_canUpdate set_hasData]. lia.
  - intros i Hi. specialize (Hslots i Hi).
    unfold HasDataQueue.slot_ok in *.
    rewrite (ring_slots_ext bufferSize q (set_hasData _ q)) by done.
    cbn [_hasData set_hasData]. rewrite !sumZ_cons in *.
    rewrite (writing_at_None i t' Hw'), (reading_at_None i t' Hr').
    rewrite (writing_at_None i t Hw), (reading_at_Some i j t Hr) in Hslots.
    destruct (decide (i = j)) as [->|Hij].
    + rewrite HW0, HR0. split_and!; try lia.
      rewrite at_lookup by lia. rewrite list_lookup_insert_eq by lia.
      f_equal. symmetry. apply bool_decide_eq_false.
      intros [[? _]|?]; [done|lia].
    + destruct Hslots as (Hle' & HW' & HR' & Hflag').
      split_and!; try done.
      rewrite at_lookup by lia. rewrite list_lookup_insert_ne by lia.
      rewrite <- at_lookup by lia. done.
  - rewrite sumZ_cons in *. cbn [_pendingData _hasData set_hasData].
    rewrite at_lookup in Htrue by lia.
    rewrite (count_set_insert _ _ true false Htrue).
    rewrite Hdata. f_equal. lia.
  - rewrite sumZ_cons in *. cbn [_pendingActions _hasData set_hasData].
    rewrite at_lookup in Htrue by lia.
    rewrite (count_set_insert _ _ true false Htrue).
    rewrite Hact. f_equal. lia.
Qed.

(** *** The counters do not wrap *)

Lemma counters_small (q : queue) (l : list thread) :
  inv q l → bufferSize + 2 * Z.of_nat (length l) < 2 ^ 64 →
  _pendingData q = count_set (_hasData q) + sumZ counted_data l ∧
  _pendingActions q = count_set (_hasData q) + sumZ counted_actions l.
Proof.
  intros [Hwf _ _ _ _ _ Hdata Hact] Hsmall.
  destruct Hwf as [Hn _ Hbs _ _].
  pose proof (count_set_bounds (_hasData q)) as Hc. rewrite Hbs in Hc.
  pose proof (BusyQueueProofs.sumZ_nonneg counted_data l
                (λ t, proj1 (counted_data_bounds t))).
  pose proof (BusyQueueProofs.sumZ_nonneg counted_actions l
                (λ t, proj1 (counted_actions_bounds t))).
  pose proof (BusyQueueFacts.sumZ_le counted_data 1 l
                (λ t, proj2 (counted_data_bounds t))).
  pose proof (BusyQueueFacts.sumZ_le counted_actions 2 l
                (λ t, proj2 (counted_actions_bounds t))).
  rewrite Hdata, Hact. unfold wrap_size.
  rewrite !Z.mod_small by lia. done.
Qed.

Ltac side :=
  cbn [step pc bufferItem popedData newTail keepTrying sleepDuration
       pushIndex popIndex goto set_popedData set_newTail set_keepTrying
       set_sleepDuration set_pushIndex set_popIndex _buffer _hasData _head
       _tail _pendingActions _pendingData _canUpdate set_buffer set_hasData
       set_head set_tail set_pendingActions set_pendingData set_canUpdate
       fst snd local_ok HasDataQueue.cs_ok writing reading in_cs
       counted_data counted_actions] in *;
  try done; try lia; try tauto;
  try (by apply length_insert);
  try (by intuition (first [done | lia | by eexists]));
  try match goal with
      | |- fetch_add _ _ = wrap_size _ => by rewrite fetch_add_eq
      | Hw : wrap_size ?p = ?p |- ?p = wrap_size _ =>
          rewrite <- Hw at 1; f_equal; lia
      end.

(** *** Every step keeps the invariant *)
Lemma inv_step_head_hasData (q : queue) (t : thread) (o : list thread) :
  bufferSize + 2 * Z.of_nat (length (t :: o)) < 2 ^ 64 →
  inv q (t :: o) → inv (step q t).1 ((step q t).2 :: o).
Proof.
  intros Hsmall Hinv.
  pose proof (counters_wrapped _ _ Hinv) as [Hwd Hwa].
  pose proof (counters_small _ _ Hinv Hsmall) as [Hsd Hsa].
  pose proof Hinv as [Hwf Hloc Hcs Hrg Hmx _ _ _].
  apply Forall_cons in Hloc as [Hlt _], Hcs as [Hct _], Hrg as [Hrt _].
  rewrite sumZ_cons in Hmx, Hsd, Hsa.
  pose proof (count_set_bounds (_hasData q)) as Hcount.
  pose proof (BusyQueueProofs.sumZ_nonneg counted_data o
                (λ t, proj1 (counted_data_bounds t))) as Hod.
  pose proof (BusyQueueProofs.sumZ_nonneg counted_actions o
                (λ t, proj1 (counted_actions_bounds t))) as Hoa.
  assert (in_cs t = 1 → sumZ in_cs o = 0) as Hout
    by (intros E; by apply BusyQueueProofs.sumZ_zero, (others_outside q t)).
  pose proof Hwf as [Hn Hb Hbs Hh Htl].
  destruct t as [l a b n k d i j].
  destruct l;
    cbn [local_ok HasDataQueue.cs_ok writing reading pc keepTrying pushIndex
         popIndex newTail counted_data counted_actions]
      in Hlt, Hct, Hrt, Hsd, Hsa.
  - (* PushBegin *)
    eapply (inv_update_hasData q _ _ _ o Hinv); side.
  - (* PushAcquire *)
    unfold HasDataQueue.step; cbn [pc].
    destruct (_canUpdate q) eqn:Hc.
    + eapply (inv_update_hasData q _ _ _ o Hinv); side.
    + eapply (inv_update_hasData q _ _ _ o Hinv); side. by rewrite Hc.
  - (* PushNewTail *)
    erewrite step_PushNewTail_hasData
      by (reflexivity || (apply umod_Some; lia)).
    eapply (inv_update_hasData q _ _ _ o Hinv); side.
  - (* PushCheckFull *)
    subst k. destruct (decide (n = _head q)) as [E|E].
    + erewrite step_PushCheckFull_full_hasData by (reflexivity || exact E).
      eapply (inv_update_hasData q _ _ _ o Hinv); side.
    + erewrite step_PushCheckFull_space_hasData by (reflexivity || exact E).
      eapply (inv_update_hasData q _ _ _ o Hinv); side.
  - (* PushLoadSlot *)
    eapply (inv_update_hasData q _ _ _ o Hinv); side.
  - (* PushHasData *)
    subst k. destruct Hct as (-> & Hn1 & Hn2).
    destruct (at_is_Some (_hasData q) (_tail q)) as [has Hhas]; [lia|].
    erewrite step_PushHasData by (reflexivity || exact Hhas).
    destruct has.
    + eapply (inv_update_hasData q _ _ _ o Hinv); side.
    + eapply (inv_update_hasData q _ _ _ o Hinv); side.
  - (* PushClaim *)
    eapply (inv_update_hasData q _ _ _ o Hinv); side.
  - (* PushStoreTail *)
    destruct Hct as (-> & Hn2 & Hfree & ->).
    eapply (inv_store_tail_hasData q _ _ o Hinv); side.
  - (* PushRelease *)
    eapply (inv_update_hasData q _ _ _ o Hinv); side.
  - (* PushRetry *)
    unfold HasDataQueue.step; cbn [pc keepTrying].
    destruct k.
    + eapply (inv_update_hasData q _ _ _ o Hinv); side.
    + eapply (inv_update_hasData q _ _ _ o Hinv); side.
  - (* PushWrite *)
    assert (0 ≤ i < bufferSize) as Hi by (apply Hrt; by left).
    destruct (at_is_Some (_buffer q) i) as [x Hx]; [lia|].
    erewrite step_PushWrite_hasData by (reflexivity || exact Hx).
    eapply (inv_update_hasData q _ _ _ o Hinv); side.
  - (* PushCountData *)
    eapply (inv_update_hasData q _ _ _ o Hinv); side.
  - (* PushCountAction *)
    eapply (inv_update_hasData q _ _ _ o Hinv); side.
  - (* PushCommit *)
    assert (0 ≤ i < bufferSize) as Hi by (apply Hrt; by left).
    destruct (at_is_Some (_hasData q) i) as [x Hx]; [lia|].
    erewrite step_PushCommit_hasData by (reflexivity || exact Hx).
    eapply (inv_commit q _ _ o i Hinv); side.
  - (* PopAcquire *)
    unfold HasDataQueue.step; cbn [pc].
    destruct (_canUpdate q) eqn:Hc.
    + eapply (inv_update_hasData q _ _ _ o Hinv); side.
    + eapply (inv_update_hasData q _ _ _ o Hinv); side. by rewrite Hc.
  - (* PopLoadHead *)
    eapply (inv_update_hasData q _ _ _ o Hinv); side.
  - (* PopCheckEmpty *)
    subst h. destruct Hlt as [-> ->].
    destruct (decide (_head q = _tail q)) as [E|E].
    + erewrite step_PopCheckEmpty_empty_hasData by (reflexivity || exact E).
      eapply (inv_update_hasData q _ _ _ o Hinv); side.
    + erewrite step_PopCheckEmpty_data_hasData by (reflexivity || exact E).
      eapply (inv_update_hasData q _ _ _ o Hinv); side.
  - (* PopLoadSlot *)
    eapply (inv_update_hasData q _ _ _ o Hinv); side.
  - (* PopHasData *)
    destruct Hct as (-> & Hne). destruct Hlt as [-> ->].
    destruct (at_is_Some (_hasData q) (_head q)) as [has Hhas]; [lia|].
    erewrite step_PopHasData by (reflexivity || exact Hhas).
    destruct has.
    + eapply (inv_update_hasData q _ _ _ o Hinv); side.
    + eapply (inv_update_hasData q _ _ _ o Hinv); side.
  - (* PopClaim *)
    eapply (inv_update_hasData q _ _ _ o Hinv); side.
  - (* PopNewHead *)
    erewrite step_PopNewHead_hasData
      by (reflexivity || (apply umod_Some; lia)).
    eapply (inv_update_hasData q _ _ _ o Hinv); side.
  - (* PopStoreHead *)
    destruct Hct as (-> & Hne & Hset & ->).
    rewrite wrap_size_id by lia.
    eapply (inv_store_head_hasData q _ _ o Hinv); side.
  - (* PopRelease *)
    eapply (inv_update_hasData q _ _ _ o Hinv); side.
  - (* PopRetry *)
    unfold HasDataQueue.step; cbn [pc keepTrying popIndex].
    destruct k; [|destruct j].
    + rewrite Hlt in * by done.
      eapply (inv_update_hasData q _ _ _ o Hinv); side.
    + eapply (inv_update_hasData q _ _ _ o Hinv); side.
    + eapply (inv_update_hasData q _ _ _ o Hinv); side.
  - (* PopRead *)
    destruct Hlt as [j0 ->].
    assert (0 ≤ j0 < bufferSize) as Hj by (apply Hrt; by right).
    destruct (at_is_Some (_buffer q) j0) as [x Hx]; [lia|].
    erewrite step_PopRead_hasData by (reflexivity || exact Hx).
    eapply (inv_update_hasData q _ _ _ o Hinv); side.
  - (* PopClear *)
    destruct Hlt as [j0 ->].
    assert (0 ≤ j0 < bufferSize) as Hj by (apply Hrt; by right).
    destruct (at_is_Some (_hasData q) j0) as [x Hx]; [lia|].
    erewrite step_PopClear_hasData by (reflexivity || exact Hx).
    eapply (inv_clear q _ _ o j0 Hinv); side.
  - (* PopAssertData *)
    rewrite step_PopAssertData by done.
    rewrite decide_True by lia.
    eapply (inv_update_hasData q _ _ _ o Hinv); side.
  - (* PopCountData *)
    eapply (inv_update_hasData q _ _ _ o Hinv); side.
  - (* PopAssertAction *)
    rewrite step_PopAssertAction by done.
    rewrite decide_True by lia.
    eapply (inv_update_hasData q _ _ _ o Hinv); side.
  - (* PopCountAction *)
    eapply (inv_update_hasData q _ _ _ o Hinv); side.
  - exact Hinv.
  - exact Hinv.
  - done.
  - done.
  - done.
Qed.

Lemma inv_Permutation_hasData (q : queue) (l l' : list thread) :
  l ≡ₚ l' → inv q l → inv q l'.
Proof.
  intros Hp [Hwf Hloc Hcs Hrg Hmx Hslots Hdata Hact]. split; try done.
  - by rewrite <- Hp.
  - by rewrite <- Hp.
  - by rewrite <- Hp.
  - by rewrite <- (BusyQueueProofs.sumZ_Permutation _ _ _ Hp).
  - intros i Hi. unfold HasDataQueue.slot_ok.
    rewrite <- !(BusyQueueProofs.sumZ_Permutation _ _ _ Hp). by apply Hslots.
  - by rewrite <- (BusyQueueProofs.sumZ_Permutation _ _ _ Hp).
  - by rewrite <- (BusyQueueProofs.sumZ_Permutation _ _ _ Hp).
Qed.

(** The invariant with a chosen call in front. *)
Lemma inv_front (q : queue) (l : list thread) i (t : thread) :
  l !! i = Some t → inv q l → inv q (t :: take i l ++ drop (S i) l).
Proof.
  intros Hi Hinv. eapply inv_Permutation_hasData; [|exact Hinv].
  rewrite <- (take_drop_middle _ _ _ Hi) at 1.
  symmetry. apply Permutation_middle.
Qed.

Lemma inv_step_hasData (q : queue) (l : list thread) i (t : thread) :
  bufferSize + 2 * Z.of_nat (length l) < 2 ^ 64 →
  l !! i = Some t → inv q l →
  inv (step q t).1 (<[i := (step q t).2]> l).
Proof.
  intros Hsmall Hi Hinv. pose proof (lookup_lt_Some _ _ _ Hi) as Hlt.
  rewrite insert_take_drop by done.
  eapply inv_Permutation_hasData; [apply Permutation_middle|].
  apply inv_step_head_hasData; [|by apply inv_front].
  rewrite <- (take_drop_middle _ _ _ Hi) in Hsmall.
  rewrite length_app in Hsmall. cbn [length] in *.
  rewrite length_app. lia.
Qed.

Lemma inv_call_hasData (q : queue) (l : list thread) (t : thread) :
  inv q l → local_ok t → in_cs t = 0 →
  writing t = None → reading t = None →
  counted_data t = 0 → counted_actions t = 0 →
  inv q (l ++ [t]).
Proof.
  intros [Hwf Hloc Hcs Hrg Hmx Hslots Hdata Hact] Hl Hc Hw Hr Hd Ha.
  split; try done.
  - apply Forall_app. split; [done|]. by constructor.
  - apply Forall_app. split; [done|]. constructor; [|done].
    by apply cs_ok_outside.
  - apply Forall_app. split; [done|]. constructor; [|done].
    intros i [Hi|Hi]; congruence.
  - rewrite BusyQueueProofs.sumZ_app, sumZ_cons, Hc. cbn. lia.
  - intros i Hi. unfold HasDataQueue.slot_ok.
    rewrite !BusyQueueProofs.sumZ_app, !sumZ_cons.
    rewrite (writing_at_None i t Hw), (reading_at_None i t Hr).
    cbn [BusyQueue.sumZ foldr]. rewrite !Z.add_0_r. by apply Hslots.
  - rewrite BusyQueueProofs.sumZ_app, sumZ_cons, Hd. cbn.
    rewrite Hdata. f_equal. lia.
  - rewrite BusyQueueProofs.sumZ_app, sumZ_cons, Ha. cbn.
    rewrite Hact. f_equal. lia.
Qed.

Lemma count_set_clear (flags : list bool) :
  Forall (λ b, b = false) flags → count_set flags = 0.
Proof.
  intros H. unfold count_set. apply BusyQueueProofs.sumZ_zero.
  eapply Forall_impl; [exact H|]. by intros b ->.
Qed.

Lemma inv_init_hasData :
  0 < bufferSize < 2 ^ 63 → inv (init bufferSize value_init) [].
Proof.
  intros Hn.
  destruct (idle_fresh bufferSize value_init Hn) as [Hwf _ Hb Hpa Hpd].
  assert (count_set (_hasData (init bufferSize value_init)) = 0) as Hc.
  { apply count_set_clear. cbn. apply Forall_replicate. done. }
  split; try done.
  - intros i Hi. unfold HasDataQueue.slot_ok. cbn [BusyQueue.sumZ foldr].
    split_and!; try lia. rewrite (Hb i Hi). by f_equal.
  - by rewrite Hc.
  - by rewrite Hc.
Qed.

Lemma calls_grow (s s' : system) :
  sys_step bufferSize value_init s s' →
  (length (calls s) ≤ length (calls s'))%nat.
Proof.
  intros [s0 v|s0 x|s0 i t Hi]; cbn [calls].
  - rewrite length_app. cbn. lia.
  - rewrite length_app. cbn. lia.
  - by rewrite length_insert.
Qed.

(** Every reachable system with fewer than 2^63 calls satisfies the
    invariant. *)
Lemma reachable_inv_hasData (s : system) :
  0 < bufferSize < 2 ^ 63 → reachable s →
  bufferSize + 2 * Z.of_nat (length (calls s)) < 2 ^ 64 →
  inv (shared s) (calls s).
Proof.
  intros Hn. induction 1 as [|s s' Hr IH Hstep]; intros Hsmall;
    [by apply inv_init_hasData|].
  pose proof (calls_grow _ _ Hstep) as Hlen.
  assert (inv (shared s) (calls s)) as Hinv by (apply IH; lia).
  destruct Hstep as [s v|s x|s i t Hi]; cbn.
  - by apply inv_call_hasData.
  - by apply inv_call_hasData.
  - apply inv_step_hasData; [|done..]. cbn [calls] in *.
    rewrite length_insert in Hsmall. done.
Qed.

(** A call in progress may take any number of steps in a row. *)
Lemma reachable_steps_hasData (s : system) (i : nat) (t : thread) (n : nat) :
  reachable s → calls s !! i = Some t →
  reachable
    (System (steps step n (shared s) t).1
            (<[i := (steps step n (shared s) t).2]> (calls s))).
Proof.
  revert s t. induction n as [|n IH]; intros s t Hr Hi.
  - cbn [steps fst snd]. rewrite list_insert_id by done. by destruct s.
  - cbn [steps]. destruct (step (shared s) t) as [q' t'] eqn:E.
    specialize (IH (System q' (<[i:=t']> (calls s))) t').
    cbn [shared calls] in IH. rewrite list_insert_insert_eq in IH.
    apply IH.
    + replace q' with (step (shared s) t).1 by by rewrite E.
      replace t' with (step (shared s) t).2 by by rewrite E.
      eapply reachable_step; [exact Hr|]. by apply sys_thread.
    + apply list_lookup_insert_eq. by eapply lookup_lt_Some.
Qed.

(** *** Counting the flags of the ring *)











(** *** What holds in every reachable state *)

(** X21.  Mutual exclusion in src/LockFreeQueue.h (lines 31-44 and 68-89).
    In every reachable state at most one call is between winning
    [_canUpdate] and giving it back, and the flag is taken exactly while one
    is. *)
Theorem mutual_exclusion_hasData (s : system) :
  0 < bufferSize < 2 ^ 63 → reachable s →
  bufferSize + 2 * Z.of_nat (length (calls s)) < 2 ^ 64 →
  (∀ i j t u, i ≠ j → calls s !! i = Some t → calls s !! j = Some u →
     in_cs t = 1 → in_cs u = 0) ∧
  (_canUpdate (shared s) = false ↔
     ∃ i t, calls s !! i = Some t ∧ in_cs t = 1).
Proof.
  intros Hn Hr Hsmall.
  pose proof (reachable_inv_hasData s Hn Hr Hsmall) as Hinv.
  pose proof (inv_mutex _ _ _ Hinv) as Hm.
  assert (∀ x : thread, 0 ≤ in_cs x) as Hge
    by (intros x; pose proof (in_cs_bounds x); lia).
  split.
  - intros i j t u Hij Hi Hj Ht.
    pose proof (BusyQueueFacts.sumZ_lookup2 in_cs (calls s) i j t u
                  Hge Hij Hi Hj).
    pose proof (in_cs_bounds u). destruct (_canUpdate (shared s)); lia.
  - split.
    + intros Hc. rewrite Hc in Hm.
      destruct (decide (Forall (λ x : thread, in_cs x = 0) (calls s)))
        as [Hall|Hex].
      { rewrite (BusyQueueProofs.sumZ_zero _ _ Hall) in Hm. lia. }
      apply not_Forall_Exists in Hex; [|apply _].
      apply Exists_exists in Hex as (t & Hin & Ht).
      apply list_elem_of_lookup in Hin as [i Hi].
      exists i, t. split; [done|]. pose proof (in_cs_bounds t).
      cbn in Ht. lia.
    + intros (i & t & Hi & Ht).
      rewrite (BusyQueueFacts.sumZ_lookup in_cs _ i t Hi) in Hm.
      pose proof (BusyQueueProofs.sumZ_nonneg in_cs
                    (take i (calls s) ++ drop (S i) (calls s)) Hge).
      destruct (_canUpdate (shared s)); [lia|done].
Qed.






End Concurrent.
End HasDataQueueConcurrent.

(** * src/include/LockFreeQueue.h, second revision: threads interleaving on
      one queue *)
Module ActionsQueueConcurrent.
Import ActionsQueue ActionsQueueProofs ActionsQueueFacts.

Section Concurrent.
Context {QueueItemT : Type} (bufferSize : Z) (value_init : QueueItemT).
Local Abbreviation queue := (@queue QueueItemT).
Local Abbreviation thread := (@thread QueueItemT).
Local Abbreviation system := (@system QueueItemT).
Local Abbreviation step := (step bufferSize).
Local Abbreviation reachable := (reachable bufferSize value_init).
Local Abbreviation sumZ := BusyQueue.sumZ.
Local Abbreviation sumZ_cons := BusyQueueProofs.sumZ_cons.

(** *** Each step is a step of the first revision, or none *)
Lemma step_simulated (q : queue) (t : thread) u :
  same_call t u →
  (BusyQueue.step bufferSize (first_queue q) u).1
    = first_queue (step q t).1 ∧
  same_call (step q t).2 (BusyQueue.step bufferSize (first_queue q) u).2
  ∨
  first_queue (step q t).1 = first_queue q ∧ same_call (step q t).2 u.
Proof.
  intros [Hpc Hb Hp Hn Hk Hi Hj].
  destruct t as [l a b n k d i j], u as [l' a' b' n' k' d' i' j'].
  cbn in Hpc, Hb, Hp, Hn, Hk, Hi, Hj. subst.
  destruct q as [buf busy h tl pa pd c].
  destruct l; cbn [first_label].
  all: unfold ActionsQueue.step, BusyQueue.step, first_queue;
    cbn [pc BusyQueue.pc keepTrying BusyQueue.keepTrying pushIndex
         BusyQueue.pushIndex popIndex BusyQueue.popIndex newTail
         BusyQueue.newTail bufferItem BusyQueue.bufferItem
         _buffer _isBusy _head _tail _pendingActions _pendingData _canUpdate
         BusyQueue._buffer BusyQueue._isBusy BusyQueue._head BusyQueue._tail
         BusyQueue._pendingData BusyQueue._canUpdate].
  all: repeat match goal with
         | |- context [umod ?x ?y] => destruct (umod x y)
         | |- context [at_ ?x ?y] => destruct (at_ x y) as [[]|]
         | |- context [store_at ?x ?y ?z] => destruct (store_at x y z)
         | |- context [decide ?P] => destruct (decide P)
         | |- context [if ?c then _ else _] => destruct c
         | |- context [match ?o with Some _ => _ | None => _ end] =>
             destruct o
         end.
  all: first [ by left; split; [|split]
             | by right; split; [|split] ].
Qed.

Lemma same_call_in_cs (t : thread) u :
  same_call t u → BusyQueue.in_cs u = in_cs t.
Proof.
  intros [Hpc _ _ _ _ _ _]. unfold BusyQueue.in_cs, in_cs. rewrite Hpc.
  by destruct (pc t).
Qed.

Lemma same_call_finished (t : thread) u :
  same_call t u → finished t = true → BusyQueue.finished u = true.
Proof.
  intros [Hpc _ _ _ _ _ _]. unfold BusyQueue.finished, finished. rewrite Hpc.
  by destruct (pc t).
Qed.

Lemma same_call_not_failed (t : thread) u :
  same_call t u →
  BusyQueue.pc u ≠ BusyQueue.Threw ∧ BusyQueue.pc u ≠ BusyQueue.Undefined →
  pc t ≠ Threw ∧ pc t ≠ Undefined.
Proof.
  intros [Hpc _ _ _ _ _ _]. rewrite Hpc. by destruct (pc t); intros [? ?].
Qed.

Lemma sumZ_Forall2 {A B} (f : A → Z) (g : B → Z) l k :
  Forall2 (λ a b, f a = g b) l k → sumZ f l = sumZ g k.
Proof.
  induction 1 as [|a b l k Hab _ IH]; [done|].
  rewrite !sumZ_cons. lia.
Qed.

Lemma sumZ_insert {A} (f : A → Z) (l : list A) i a b :
  l !! i = Some a → sumZ f (<[i := b]> l) = sumZ f l - f a + f b.
Proof.
  revert i. induction l as [|x l IH]; intros [|i] Hi; try done.
  - injection Hi as ->. change (<[0%nat := b]> (a :: l)) with (b :: l).
    rewrite !sumZ_cons. lia.
  - change (<[S i := b]> (x :: l)) with (x :: <[i := b]> l).
    rewrite !sumZ_cons, (IH i Hi). lia.
Qed.

(** *** Every reachable state is one of the first revision *)
Lemma reachable_simulated (s : system) :
  reachable s →
  ∃ s1, BusyQueue.reachable bufferSize value_init s1 ∧
        BusyQueue.shared s1 = first_queue (shared s) ∧
        Forall2 same_call (calls s) (BusyQueue.calls s1).
Proof.
  induction 1 as [|s s' _ (s1 & Hr1 & Hq & Hc) Hstep].
  - exists (BusyQueue.System (BusyQueue.init bufferSize value_init) []).
    split; [constructor|]. split; [done|]. constructor.
  - destruct Hstep as [s v|s x|s i t Hi]; cbn [shared calls].
    + exists (BusyQueue.System (BusyQueue.shared s1)
                (BusyQueue.calls s1 ++ [BusyQueue.call_push value_init v])).
      split; [eapply BusyQueue.reachable_step;
                [exact Hr1|apply BusyQueue.sys_call_push]|].
      split; [done|]. apply Forall2_app; [done|].
      by repeat constructor.
    + exists (BusyQueue.System (BusyQueue.shared s1)
                (BusyQueue.calls s1 ++ [BusyQueue.call_pop value_init x])).
      split; [eapply BusyQueue.reachable_step;
                [exact Hr1|apply BusyQueue.sys_call_pop]|].
      split; [done|]. apply Forall2_app; [done|].
      by repeat constructor.
    + destruct (Forall2_lookup_l _ _ _ _ _ Hc Hi) as (u & Hu & Htu).
      destruct (step_simulated (shared s) t u Htu) as [[Eq Et]|[Eq Et]].
      * exists (BusyQueue.System
                  (BusyQueue.step bufferSize (BusyQueue.shared s1) u).1
                  (<[i := (BusyQueue.step bufferSize
                             (BusyQueue.shared s1) u).2]>
                     (BusyQueue.calls s1))).
        split; [eapply BusyQueue.reachable_step;
                  [exact Hr1|by apply BusyQueue.sys_thread]|].
        cbn [BusyQueue.shared BusyQueue.calls]. rewrite Hq.
        split; [done|]. by apply Forall2_insert.
      * exists s1. split; [done|]. rewrite Eq. split; [done|].
        rewrite <- (list_insert_id (BusyQueue.calls s1) i u Hu).
        by apply Forall2_insert.
Qed.

(** The first revision never throws and never runs into undefined
    behaviour. *)
Lemma first_revision_never_fails s1 :
  0 < bufferSize < 2 ^ 63 →
  BusyQueue.reachable bufferSize value_init s1 →
  Forall (λ u, BusyQueue.pc u ≠ BusyQueue.Threw ∧
               BusyQueue.pc u ≠ BusyQueue.Undefined) (BusyQueue.calls s1).
Proof.
  intros Hn. induction 1 as [|s s' Hr IH Hstep]; [by constructor|].
  pose proof (BusyQueueProofs.reachable_inv _ _ s Hn Hr) as Hinv.
  destruct Hstep as [s v|s x|s i t Hi]; cbn.
  - apply Forall_app. split; [done|]. by repeat constructor.
  - apply Forall_app. split; [done|]. by repeat constructor.
  - apply Forall_insert; [done|].
    apply (BusyQueueFacts.step_no_failure _ _ _ _
             (BusyQueueFacts.inv_lookup _ _ _ _ _ Hi Hinv)).
    by eapply Forall_lookup_1 in IH.
Qed.

Lemma reachable_never_fails (s : system) :
  0 < bufferSize < 2 ^ 63 → reachable s →
  Forall (λ t, pc t ≠ Threw ∧ pc t ≠ Undefined) (calls s).
Proof.
  intros Hn Hr. destruct (reachable_simulated s Hr) as (s1 & Hr1 & _ & Hc).
  pose proof (first_revision_never_fails s1 Hn Hr1) as Hok.
  apply Forall_lookup. intros i t Hi.
  destruct (Forall2_lookup_l _ _ _ _ _ Hc Hi) as (u & Hu & Htu).
  apply (same_call_not_failed t u Htu).
  by eapply Forall_lookup_1 in Hok.
Qed.

(** *** The second counter *)

(** A step keeps [_pendingData] at the occupancy of the ring plus what the
    calls in progress have counted ahead. *)
Lemma data_step (q : queue) (t : thread) u (others : Z) :
  BusyQueue.wf bufferSize (first_queue q) →
  same_call t u → BusyQueue.local_ok u →
  BusyQueue.cs_ok bufferSize (first_queue q) u →
  pc (step q t).2 ≠ Threw → pc (step q t).2 ≠ Undefined →
  _pendingData q =
    wrap_ll (occupancy bufferSize q + (surplus_data t + others)) →
  _pendingData (step q t).1 =
    wrap_ll (occupancy bufferSize (step q t).1 +
             (surplus_data (step q t).2 + others)).
Proof.
  intros [Hn Hb Hbs Hh Ht] [Hpc Hbi Hp Hnt Hk Hi Hj] Hl Hc.
  destruct t as [l a b n k d i j], u as [l' a' b' n' k' d' i' j'].
  cbn in Hpc, Hbi, Hp, Hnt, Hk, Hi, Hj. subst.
  destruct q as [buf busy h tl pa pd c].
  cbn [first_queue BusyQueue._head BusyQueue._tail _head _tail _buffer
       _isBusy _pendingActions _canUpdate] in Hh, Ht.
  unfold BusyQueue.local_ok, BusyQueue.cs_ok, BusyQueue.candidate_tail,
    first_queue in Hl, Hc.
  cbn [BusyQueue.pc BusyQueue.keepTrying BusyQueue.pushIndex
       BusyQueue.popIndex BusyQueue.newTail BusyQueue._head BusyQueue._tail
       _head _tail _buffer _isBusy _pendingActions _canUpdate] in Hl, Hc.
  unfold ActionsQueue.step, surplus_data, occupancy.
  destruct l; cbn [first_label] in Hl, Hc.
  all: repeat
         (cbn [fst snd pc keepTrying pushIndex popIndex newTail bufferItem
               goto set_popedData set_newTail set_keepTrying
               set_sleepDuration set_pushIndex set_popIndex set_buffer
               set_isBusy set_head set_tail set_pendingActions
               set_pendingData set_canUpdate _buffer _isBusy _head _tail
               _pendingActions _pendingData _canUpdate];
          try match goal with
            | |- context [umod ?x ?y] => destruct (umod x y)
            | |- context [at_ ?x ?y] => destruct (at_ x y) as [[]|]
            | |- context [store_at ?x ?y ?z] => destruct (store_at x y z)
            | |- context [decide ?P] => destruct (decide P)
            | |- context [if ?c then _ else _] => destruct c
            | |- context [match ?o with Some _ => _ | None => _ end] =>
                destruct o
            end).
  all: intros Hnt Hnu Hd; try done.
  all: try (rewrite Hd, wrap_ll_add; f_equal; lia).
  all: try (by intuition (first [done | congruence])).
  - (* PushStoreTail *)
    destruct Hc as (-> & Hne & _). rewrite wrap_size_id in * by lia.
    rewrite (ring_succ bufferSize h tl) by (done || lia).
    rewrite Hd. f_equal. lia.
  - (* PopStoreHead *)
    destruct Hc as (-> & Hne). rewrite wrap_size_id by lia.
    rewrite (ring_pred bufferSize h tl) by (done || lia).
    rewrite Hd. f_equal. lia.
Qed.

Lemma first_queue_wf (q : queue) :
  BusyQueue.wf bufferSize (first_queue q) → wf bufferSize q.
Proof. intros [Hn Hb Hbs Hh Ht]. by split. Qed.

Lemma data_counter_reachable (s : system) :
  0 < bufferSize < 2 ^ 63 → reachable s →
  _pendingData (shared s) =
    wrap_ll (occupancy bufferSize (shared s) + sumZ surplus_data (calls s)).
Proof.
  intros Hn. induction 1 as [|s s' Hr IH Hstep].
  - cbn. unfold occupancy. cbn. by rewrite Z.mod_0_l by lia.
  - pose proof (reachable_never_fails s' Hn
                  (reachable_step _ _ _ _ Hr Hstep)) as Hok.
    destruct (reachable_simulated s Hr) as (s1 & Hr1 & Hq & Hc).
    pose proof (BusyQueueProofs.reachable_inv _ _ s1 Hn Hr1) as Hinv.
    destruct Hstep as [s v|s x|s i t Hi]; cbn [shared calls] in *.
    + rewrite BusyQueueProofs.sumZ_app, sumZ_cons. cbn.
      rewrite IH. f_equal. lia.
    + rewrite BusyQueueProofs.sumZ_app, sumZ_cons. cbn.
      rewrite IH. f_equal. lia.
    + destruct (Forall2_lookup_l _ _ _ _ _ Hc Hi) as (u & Hu & Htu).
      rewrite (sumZ_insert _ _ _ t _ Hi).
      replace (sumZ surplus_data (calls s) - surplus_data t +
               surplus_data (step (shared s) t).2)
        with (surplus_data (step (shared s) t).2 +
              (sumZ surplus_data (calls s) - surplus_data t)) by lia.
      apply (data_step (shared s) t u).
      * rewrite <- Hq. apply (BusyQueue.inv_wf _ _ _ Hinv).
      * done.
      * exact (Forall_lookup_1 _ _ _ _ (BusyQueue.inv_local _ _ _ Hinv) Hu).
      * rewrite <- Hq.
        exact (Forall_lookup_1 _ _ _ _ (BusyQueue.inv_cs _ _ _ Hinv) Hu).
      * eapply Forall_lookup_1 in Hok;
          [|apply list_lookup_insert_eq; by eapply lookup_lt_Some].
        apply Hok.
      * eapply Forall_lookup_1 in Hok;
          [|apply list_lookup_insert_eq; by eapply lookup_lt_Some].
        apply Hok.
      * rewrite IH. f_equal. lia.
Qed.

(** A call in progress may take any number of steps in a row. *)
Lemma reachable_steps_actions (s : system) (i : nat) (t : thread) (n : nat) :
  reachable s → calls s !! i = Some t →
  reachable
    (System (steps step n (shared s) t).1
            (<[i := (steps step n (shared s) t).2]> (calls s))).
Proof.
  revert s t. induction n as [|n IH]; intros s t Hr Hi.
  - cbn [steps fst snd]. rewrite list_insert_id by done. by destruct s.
  - cbn [steps]. destruct (step (shared s) t) as [q' t'] eqn:E.
    specialize (IH (System q' (<[i:=t']> (calls s))) t').
    cbn [shared calls] in IH. rewrite list_insert_insert_eq in IH.
    apply IH.
    + replace q' with (step (shared s) t).1 by by rewrite E.
      replace t' with (step (shared s) t).2 by by rewrite E.
      eapply reachable_step; [exact Hr|]. by apply sys_thread.
    + apply list_lookup_insert_eq. by eapply lookup_lt_Some.
Qed.

(** *** What holds in every reachable state *)

(** X27.  The second revision refines the first (lines 252-380 against
    lines 36-166).  Every state the second revision can reach, by any
    interleaving of any calls, is a state the first revision can reach with
    the same calls at the same program points and the same locals, the same
    ring, flags and indices, and its [_pendingData] equal to this revision's
    [_pendingActions]; the lines that only write the second counter (262,
    306-308, 372) and a failed attempt on [_canUpdate] are no step of the
    first revision. *)
Theorem second_revision_simulated (s : system) :
  reachable s →
  ∃ s1, BusyQueue.reachable bufferSize value_init s1 ∧
        BusyQueue.shared s1 = first_queue (shared s) ∧
        Forall2 same_call (calls s) (BusyQueue.calls s1).
Proof. exact (reachable_simulated s). Qed.

(** X28.  Mutual exclusion in the second revision (lines 266-285 and
    336-358).  In every reachable state at most one call is between winning
    [_canUpdate] and giving it back, and the flag is taken exactly while one
    is. *)
Theorem mutual_exclusion_actions (s : system) :
  0 < bufferSize < 2 ^ 63 → reachable s →
  (∀ i j t u, i ≠ j → calls s !! i = Some t → calls s !! j = Some u →
     in_cs t = 1 → in_cs u = 0) ∧
  (_canUpdate (shared s) = false ↔
     ∃ i t, calls s !! i = Some t ∧ in_cs t = 1).
Proof.
  intros Hn Hr. destruct (reachable_simulated s Hr) as (s1 & Hr1 & Hq & Hc).
  pose proof (BusyQueueProofs.reachable_inv _ _ s1 Hn Hr1) as Hinv.
  pose proof (BusyQueue.inv_mutex _ _ _ Hinv) as Hm.
  assert (sumZ in_cs (calls s) = sumZ BusyQueue.in_cs (BusyQueue.calls s1))
    as Hsum.
  { apply sumZ_Forall2. eapply Forall2_impl; [exact Hc|].
    intros t u Htu. symmetry. by apply same_call_in_cs. }
  rewrite <- Hsum, Hq in Hm. cbn [first_queue BusyQueue._canUpdate] in Hm.
  assert (∀ x : thread, 0 ≤ in_cs x ≤ 1) as Hrange
    by (intros x; unfold in_cs; destruct (pc x); lia).
  assert (∀ x : thread, 0 ≤ in_cs x) as Hge
    by (intros x; specialize (Hrange x); lia).
  split.
  - intros i j t u Hij Hi Hj Ht.
    pose proof (BusyQueueFacts.sumZ_lookup2 in_cs (calls s) i j t u
                  Hge Hij Hi Hj).
    pose proof (Hrange u). destruct (_canUpdate (shared s)); lia.
  - split.
    + intros Hcu. rewrite Hcu in Hm.
      destruct (decide (Forall (λ x : thread, in_cs x = 0) (calls s)))
        as [Hall|Hex].
      { rewrite (BusyQueueProofs.sumZ_zero _ _ Hall) in Hm. lia. }
      apply not_Forall_Exists in Hex; [|apply _].
      apply Exists_exists in Hex as (t & Hin & Ht).
      apply list_elem_of_lookup in Hin as [i Hi].
      exists i, t. split; [done|]. pose proof (Hrange t). cbn in Ht. lia.
    + intros (i & t & Hi & Ht).
      rewrite (BusyQueueFacts.sumZ_lookup in_cs _ i t Hi) in Hm.
      pose proof (BusyQueueProofs.sumZ_nonneg in_cs
                    (take i (calls s) ++ drop (S i) (calls s)) Hge).
      destruct (_canUpdate (shared s)); [lia|done].
Qed.

(** X29.  No call of the second revision fails (the [at] of lines 272, 295,
    299, 341, 368 and 374, the [%] of lines 268 and 348, the [*] on the
    optionals).  In every reachable state the arrays have their [bufferSize]
    slots, both indices are inside them, no call has thrown
    [std::out_of_range] and none has run into undefined behaviour. *)
Theorem no_call_fails_actions (s : system) :
  0 < bufferSize < 2 ^ 63 → reachable s →
  wf bufferSize (shared s) ∧
  Forall (λ t, pc t ≠ Threw ∧ pc t ≠ Undefined) (calls s).
Proof.
  intros Hn Hr. split; [|by apply reachable_never_fails].
  destruct (reachable_simulated s Hr) as (s1 & Hr1 & Hq & _).
  pose proof (BusyQueueProofs.reachable_inv _ _ s1 Hn Hr1) as Hinv.
  apply first_queue_wf. rewrite <- Hq. apply (BusyQueue.inv_wf _ _ _ Hinv).
Qed.

(** X30.  With no call in progress (lines 252-380, read by lines 382-388).
    Once every call made so far has returned, whatever the interleaving was,
    the exclusion flag is free, no slot is busy, and both counters are the
    number of stored items: [hasData()] and [hasWork()] are [false] exactly
    when the ring is empty. *)
Theorem quiescent_idle_actions (s : system) :
  0 < bufferSize < 2 ^ 63 → reachable s → quiescent s →
  idle bufferSize (shared s) ∧
  (hasData (shared s) = false ↔ empty (shared s)) ∧
  (hasWork (shared s) = false ↔ empty (shared s)).
Proof.
  intros Hn Hr Hquiet.
  destruct (reachable_simulated s Hr) as (s1 & Hr1 & Hq & Hc).
  assert (BusyQueue.quiescent s1) as Hquiet1.
  { unfold BusyQueue.quiescent. apply Forall_lookup. intros i u Hu.
    destruct (Forall2_lookup_r _ _ _ _ _ Hc Hu) as (t & Ht & Htu).
    apply (same_call_finished t u Htu).
    unfold quiescent in Hquiet. by eapply Forall_lookup_1 in Hquiet. }
  destruct (BusyQueueProofs.quiescent_idle _ _ s1 Hn Hr1 Hquiet1)
    as [Hwf Hcu Hbusy Hpa].
  rewrite Hq in Hwf, Hcu, Hbusy, Hpa.
  pose proof (first_queue_wf _ Hwf) as Hwf2.
  pose proof (occupancy_bounds_actions bufferSize _ Hwf2) as Hocc.
  assert (_pendingData (shared s) = occupancy bufferSize (shared s)) as Hpd.
  { rewrite (data_counter_reachable s Hn Hr).
    rewrite (BusyQueueProofs.sumZ_zero surplus_data).
    - rewrite Z.add_0_r. apply wrap_ll_id. lia.
    - eapply Forall_impl; [exact Hquiet|]. intros t.
      unfold finished, surplus_data. by destruct (pc t). }
  assert (idle bufferSize (shared s)) as Hidle by (by split).
  split; [done|].
  unfold hasData, hasWork.
  rewrite !bool_decide_eq_false, (empty_at_zero_actions bufferSize _ Hwf2).
  rewrite Hpd, (idle_pendingActions _ _ Hidle). split; split; lia.
Qed.

End Concurrent.
End ActionsQueueConcurrent.

(** * Properties of the test drivers *)
Module DriversFacts.
Import Drivers.

Lemma poped_iter (ok : bool) (k : nat) :
  Nat.iter (S k) (λ s, poped s.1 s.2) (ok, make_checker) =
    (if decide (k = 0%nat) then ok else false, Checker true).
Proof.
  induction k as [|k IH]; [done|].
  rewrite Nat.iter_succ, IH. unfold poped. cbn.
  by destruct (decide (k = 0%nat)).
Qed.

(** X15.  [QueueChecker] (src/LockFreeQueueTest.cpp lines 21-41).  A checker
    on which [poped()] was called [k] times before it is destroyed leaves
    the shared [_ok] flag as it found it when [k] is 1, and clears it
    otherwise: an item that was never delivered, or delivered twice, fails
    the test. *)
Theorem checker_verdict (ok : bool) (k : nat) :
  let s := Nat.iter k (λ s, poped s.1 s.2) (ok, make_checker) in
  destroy s.1 s.2 = ok && bool_decide (k = 1%nat).
Proof.
  destruct k as [|k]; cbn zeta.
  - cbn. by rewrite andb_false_r.
  - rewrite poped_iter. unfold destroy. cbn.
    destruct (decide (k = 0%nat)) as [->|Hk].
    + by rewrite andb_true_r.
    + rewrite bool_decide_eq_false_2 by lia. by rewrite andb_false_r.
Qed.

Lemma saturating_iter (f : Z → Z) (n : nat) :
  (∀ d, f d = if decide (d < 100) then d + 1 else d) →
  Nat.iter n f 0 = Z.min (Z.of_nat n) 100.
Proof.
  intros Hf. induction n as [|n IH]; [done|].
  rewrite Nat.iter_succ, IH, Hf. destruct (decide _); lia.
Qed.

(** X16.  The delays of the retry loops.  [backOff] of src/LockFreeQueue.h
    (lines 123-132), of the second revision of src/include/LockFreeQueue.h
    (lines 400-410) and of the drivers, applied [n] times from the 0 the
    loops start with, gives a delay of [n] nanoseconds up to 100 and 100 from
    then on.  [backOff] of the first revision (lines 186-200), applied [n]
    times from its start value -10, gives [n mod 12 - 10]: up from -10 to
    the maximum 1 in eleven calls, back to -10 with the twelfth, and over
    again. *)
Theorem backOff_schedule (n : nat) :
  Nat.iter n HasDataQueue.backOff 0 = Z.min (Z.of_nat n) 100 ∧
  Nat.iter n ActionsQueue.backOff 0 = Z.min (Z.of_nat n) 100 ∧
  Nat.iter n backOff 0 = Z.min (Z.of_nat n) 100 ∧
  Nat.iter n BusyQueue.backOff BusyQueue.sleepDurationStart =
    Z.of_nat n `mod` 12 - 10.
Proof.
  split; [by apply saturating_iter|].
  split; [by apply saturating_iter|].
  split; [by apply saturating_iter|].
  induction n as [|n IH]; [done|].
  rewrite Nat.iter_succ, IH.
  pose proof (Z.mod_pos_bound (Z.of_nat n) 12).
  unfold BusyQueue.backOff, BusyQueue.sleepDurationStep,
    BusyQueue._maxSleepDuration, BusyQueue.sleepDurationStart.
  replace (Z.of_nat (S n)) with (Z.of_nat n + 1) by lia.
  rewrite <- (Zplus_mod_idemp_l (Z.of_nat n)).
  destruct (decide (Z.of_nat n `mod` 12 = 11)) as [E|E].
  - rewrite E. repeat destruct (decide _); try lia. done.
  - rewrite (Z.mod_small (Z.of_nat n `mod` 12 + 1)) by lia.
    repeat destruct (decide _); lia.
Qed.

Section Loops.
Context {QueueItemT : Type} (bufferSize : Z) (value_init : QueueItemT).

(** X17.  The consumer of src/LockFreeQueueTest.cpp empties the queue
    (lines 90-97).  Once [_run] is down and no other thread is running,
    [Consumer::run] on a queue between two calls comes to its end after one
    round per stored item and one more; [poped()] is called on every stored
    item once, oldest first; and it leaves the ring empty with [hasWork()]
    and [hasData()] both [false], as the driver's final check expects. *)
Theorem consumer_run_empties (q : HasDataQueue.queue (QueueItemT := QueueItemT))
    (rounds fuel : nat) :
  HasDataQueue.idle bufferSize q → (16 ≤ fuel)%nat →
  (length (HasDataQueue.contents bufferSize q) < rounds)%nat →
  let r := consumer_run bufferSize value_init rounds fuel q in
  drained_done r = true ∧
  drained_items r = HasDataQueue.contents bufferSize q ∧
  HasDataQueue.idle bufferSize (drained_queue r) ∧
  HasDataQueue.contents bufferSize (drained_queue r) = [] ∧
  HasDataQueue.hasWork (drained_queue r) = false ∧
  HasDataQueue.hasData (drained_queue r) = false.
Proof.
  intros Hidle Hfuel. cbn zeta.
  remember (HasDataQueue.contents bufferSize q) as l eqn:Hl.
  revert q rounds Hidle Hl.
  induction l as [|y l IH]; intros q rounds Hidle Hl Hrounds;
    (destruct rounds as [|n]; [cbn in Hrounds; lia|]); cbn [consumer_run].
  - assert (HasDataQueue.occupancy bufferSize q = 0) as Hocc.
    { rewrite <- (HasDataQueueFacts.length_contents_occupancy _ _
                    (HasDataQueue.idle_wf _ _ Hidle)).
      by rewrite <- Hl. }
    assert (HasDataQueue.hasWork q = false) as Hw.
    { unfold HasDataQueue.hasWork.
      rewrite (HasDataQueue.idle_pendingActions _ _ Hidle), Hocc.
      by apply bool_decide_eq_false_2. }
    assert (HasDataQueue.hasData q = false) as Hd.
    { unfold HasDataQueue.hasData.
      rewrite (HasDataQueue.idle_pendingData _ _ Hidle), Hocc.
      by apply bool_decide_eq_false_2. }
    rewrite Hw. cbn. by split_and!.
  - assert (HasDataQueue.occupancy bufferSize q =
              Z.of_nat (S (length l))) as Hocc.
    { rewrite <- (HasDataQueueFacts.length_contents_occupancy _ _
                    (HasDataQueue.idle_wf _ _ Hidle)).
      by rewrite <- Hl. }
    assert (HasDataQueue.hasWork q = true) as Hw.
    { unfold HasDataQueue.hasWork.
      rewrite (HasDataQueue.idle_pendingActions _ _ Hidle), Hocc.
      apply bool_decide_eq_true_2. lia. }
    rewrite Hw.
    replace fuel with (16 + (fuel - 16))%nat by lia.
    destruct (HasDataQueueFacts.pop_idle_item bufferSize value_init q
                value_init y l (fuel - 16) Hidle (eq_sym Hl))
      as (q' & t' & E & Hres & Hx & Hidle' & Hc').
    rewrite E, Hres.
    replace (16 + (fuel - 16))%nat with fuel by lia.
    destruct (IH q' n Hidle' (eq_sym Hc')) as (? & Hitems & ? & ? & ? & ?).
    { cbn in Hrounds. lia. }
    cbn [drained_done drained_items drained_queue].
    split_and!; try done. by rewrite Hx, Hitems.
Qed.

(** X18.  The producer of src/testing/src/LockFreeQueueTest.cpp (lines
    80-84).  With no other thread running, on a queue between two calls:
    when the ring has room the loop pushes its item at the first attempt,
    behind the stored ones, and resets the delay to 0; when the ring is full
    the loop never comes to its end: after any number of attempts the queue
    is as it was and the delay has gone through [backOff] once per
    attempt. *)
Theorem producer_push_loop (q : ActionsQueue.queue (QueueItemT := QueueItemT))
    (data : QueueItemT) (d : Z) (rounds fuel : nat) :
  ActionsQueue.idle bufferSize q → (14 ≤ fuel)%nat →
  let r := producer_push bufferSize value_init rounds fuel q data d in
  (ActionsQueue.occupancy bufferSize q ≠ bufferSize - 1 → (0 < rounds)%nat →
     r.2 = true ∧ r.1.2 = 0 ∧
     ActionsQueue.idle bufferSize r.1.1 ∧
     ActionsQueue.contents bufferSize r.1.1 =
       ActionsQueue.contents bufferSize q ++ [data]) ∧
  (ActionsQueue.occupancy bufferSize q = bufferSize - 1 →
     r = (q, Nat.iter rounds backOff d, false)).
Proof.
  intros Hidle Hfuel. cbn zeta. split.
  - intros Hocc Hrounds. destruct rounds as [|n]; [lia|].
    cbn [producer_push].
    replace fuel with (14 + (fuel - 14))%nat by lia.
    destruct (ActionsQueueFacts.push_idle_space_actions bufferSize
                value_init q data (fuel - 14) Hidle Hocc)
      as (q' & t' & E & Hres & Hidle' & Hc').
    rewrite E, Hres. by cbn.
  - intros Hocc. revert d. induction rounds as [|n IH]; intros d; [done|].
    cbn [producer_push].
    replace fuel with (9 + (fuel - 9))%nat at 1 by lia.
    destruct (ActionsQueueFacts.push_idle_full_actions bufferSize
                value_init q data (fuel - 9) Hidle Hocc)
      as (t' & E & Hres & _).
    rewrite E, Hres, IH. by rewrite Nat.iter_succ_r.
Qed.

(** X19.  The consumer of src/testing/src/LockFreeQueueTest.cpp clears the
    queue (lines 117-123).  With no other thread running, the second loop of
    [Consumer::run] on a queue between two calls comes to its end after one
    round per stored item and one more; [poped()] is called on every stored
    item once, oldest first; and it leaves the ring empty with [hasWork()]
    and [hasData()] both [false], as the driver's final check expects. *)
Theorem consumer_drain_empties
    (q : ActionsQueue.queue (QueueItemT := QueueItemT)) (rounds fuel : nat) :
  ActionsQueue.idle bufferSize q → (14 ≤ fuel)%nat →
  (length (ActionsQueue.contents bufferSize q) < rounds)%nat →
  let r := consumer_drain bufferSize value_init rounds fuel q in
  drained_done r = true ∧
  drained_items r = ActionsQueue.contents bufferSize q ∧
  ActionsQueue.idle bufferSize (drained_queue r) ∧
  ActionsQueue.contents bufferSize (drained_queue r) = [] ∧
  ActionsQueue.hasWork (drained_queue r) = false ∧
  ActionsQueue.hasData (drained_queue r) = false.
Proof.
  intros Hidle Hfuel. cbn zeta.
  remember (ActionsQueue.contents bufferSize q) as l eqn:Hl.
  revert q rounds Hidle Hl.
  induction l as [|y l IH]; intros q rounds Hidle Hl Hrounds;
    (destruct rounds as [|n]; [cbn in Hrounds; lia|]); cbn [consumer_drain].
  - assert (ActionsQueue.occupancy bufferSize q = 0) as Hocc.
    { rewrite <- (ActionsQueueFacts.length_contents_actions _ _
                    (ActionsQueue.idle_wf _ _ Hidle)).
      by rewrite <- Hl. }
    assert (ActionsQueue.hasWork q = false) as Hw.
    { unfold ActionsQueue.hasWork.
      rewrite (ActionsQueue.idle_pendingActions _ _ Hidle), Hocc.
      apply bool_decide_eq_false_2. tauto. }
    assert (ActionsQueue.hasData q = false) as Hd.
    { unfold ActionsQueue.hasData.
      rewrite (ActionsQueue.idle_pendingData _ _ Hidle), Hocc.
      apply bool_decide_eq_false_2. tauto. }
    rewrite Hw. cbn. by split_and!.
  - assert (ActionsQueue.occupancy bufferSize q =
              Z.of_nat (S (length l))) as Hocc.
    { rewrite <- (ActionsQueueFacts.length_contents_actions _ _
                    (ActionsQueue.idle_wf _ _ Hidle)).
      by rewrite <- Hl. }
    assert (ActionsQueue.hasWork q = true) as Hw.
    { unfold ActionsQueue.hasWork.
      rewrite (ActionsQueue.idle_pendingActions _ _ Hidle), Hocc.
      apply bool_decide_eq_true_2. lia. }
    rewrite Hw.
    replace fuel with (14 + (fuel - 14))%nat by lia.
    destruct (ActionsQueueFacts.pop_idle_data_actions bufferSize value_init q
                value_init y l (fuel - 14) Hidle (eq_sym Hl))
      as (q' & t' & E & Hres & Hx & Hidle' & Hc').
    rewrite E, Hres.
    replace (14 + (fuel - 14))%nat with fuel by lia.
    destruct (IH q' n Hidle' (eq_sym Hc')) as (? & Hitems & ? & ? & ? & ?).
    { cbn in Hrounds. lia. }
    cbn [drained_done drained_items drained_queue].
    split_and!; try done. by rewrite Hx, Hitems.
Qed.

(** X20.  The consumer of src/unnamed/part_000 clears the queue (lines
    125-136).  With no other thread running, the second loop of
    [Consumer::run] on a queue of the first revision between two calls comes
    to its end after one round per stored item and one more; [poped()] is
    called on every stored item once, oldest first; [_dataCounter] has grown
    by the number of items; [backOff] was never needed; and [hasData()] is
    [false] at the end, as the driver's final check expects. *)
Theorem consumer_clear_empties
    (q : BusyQueue.queue (QueueItemT := QueueItemT)) (d c : Z)
    (rounds fuel : nat) :
  BusyQueue.idle bufferSize q → (13 ≤ fuel)%nat →
  (length (BusyQueue.contents bufferSize q) < rounds)%nat →
  0 ≤ c → c + Z.of_nat (length (BusyQueue.contents bufferSize q)) < 2 ^ 64 →
  let r := consumer_clear bufferSize value_init rounds fuel q d c in
  drained_done r.1.1 = true ∧
  drained_items r.1.1 = BusyQueue.contents bufferSize q ∧
  r.1.2 = (if decide (BusyQueue.contents bufferSize q = []) then d else 0) ∧
  r.2 = c + Z.of_nat (length (BusyQueue.contents bufferSize q)) ∧
  BusyQueue.idle bufferSize (drained_queue r.1.1) ∧
  BusyQueue.contents bufferSize (drained_queue r.1.1) = [] ∧
  BusyQueue.hasData (drained_queue r.1.1) = false.
Proof.
  intros Hidle Hfuel. cbn zeta.
  remember (BusyQueue.contents bufferSize q) as l eqn:Hl.
  revert q rounds d c Hidle Hl.
  induction l as [|y l IH]; intros q rounds d c Hidle Hl Hrounds Hc0 Hc1;
    (destruct rounds as [|n]; [cbn in Hrounds; lia|]); cbn [consumer_clear].
  - assert (BusyQueue.occupancy bufferSize q = 0) as Hocc.
    { rewrite <- (BusyQueueProofs.length_contents _ _
                    (BusyQueue.idle_wf _ _ Hidle)).
      by rewrite <- Hl. }
    assert (BusyQueue.hasData q = false) as Hd.
    { unfold BusyQueue.hasData.
      rewrite (BusyQueue.idle_pendingData _ _ Hidle), Hocc.
      apply bool_decide_eq_false_2. tauto. }
    rewrite Hd. cbn. split_and!; try done. lia.
  - assert (BusyQueue.occupancy bufferSize q =
              Z.of_nat (S (length l))) as Hocc.
    { rewrite <- (BusyQueueProofs.length_contents _ _
                    (BusyQueue.idle_wf _ _ Hidle)).
      by rewrite <- Hl. }
    assert (BusyQueue.hasData q = true) as Hd.
    { unfold BusyQueue.hasData.
      rewrite (BusyQueue.idle_pendingData _ _ Hidle), Hocc.
      apply bool_decide_eq_true_2. lia. }
    rewrite Hd.
    replace fuel with (13 + (fuel - 13))%nat by lia.
    destruct (BusyQueueProofs.pop_idle_data bufferSize value_init q
                value_init y l (fuel - 13) Hidle (eq_sym Hl))
      as (q' & t' & E & Hres & Hx & Hidle' & Hc').
    rewrite E, Hres.
    replace (13 + (fuel - 13))%nat with fuel by lia.
    cbn [length] in Hc1.
    specialize (IH q' n 0 (wrap_size (c + 1)) Hidle' (eq_sym Hc')).
    rewrite wrap_size_id in IH by lia.
    destruct IH as (? & Hitems & Hdel & Hcnt & ? & ? & ?);
      [cbn in Hrounds; lia | lia | lia |].
    rewrite wrap_size_id by lia.
    destruct (consumer_clear bufferSize value_init n fuel q' 0 (c + 1))
      as [[r d'] c'].
    cbn [fst snd drained_done drained_items drained_queue] in *.
    split_and!; try done.
    + by rewrite Hx, Hitems.
    + rewrite decide_False by done. rewrite Hdel. by destruct (decide _).
    + cbn [length]. lia.
Qed.

End Loops.

End DriversFacts.

(** * The further properties at concrete queues

    Items are integers and [QueueItemT{}] is 0. *)
Module FactsAtQueues.

(** ** First revision of src/include/LockFreeQueue.h *)
Section BusyQueueCases.
Import BusyQueue BusyQueueProofs BusyQueueFacts.

(** A [push] inside its critical section and a [pop] that has just been
    called. *)
Lemma reachable_push_and_pop :
  reachable 2 0
    (System (Queue [0; 0] [false; false] 0 0 2 false)
            [Thread PushCheckFull 5 0 1 true (-10) None None;
             call_pop 0 9]).
Proof.
  apply (reachable_step 2 0
           (System (Queue [0; 0] [false; false] 0 0 2 false)
                   [Thread PushCheckFull 5 0 1 true (-10) None None])).
  - exact (QueueSpec.reachable_one_push 2 5 3).
  - apply (sys_call_pop 2 0
             (System (Queue [0; 0] [false; false] 0 0 2 false)
                     [Thread PushCheckFull 5 0 1 true (-10) None None]) 9).
Qed.

(** X1 with a [push] inside its critical section and a [pop] outside. *)
Lemma mutual_exclusion_witness :
  let s := System (Queue [0; 0] [false; false] 0 0 2 false)
                  [Thread PushCheckFull 5 0 1 true (-10) None None;
                   call_pop 0 9] in
  (0 < 2 < 2 ^ 63 ∧ reachable 2 0 s) ∧
  (∀ i j t u, i ≠ j → calls s !! i = Some t → calls s !! j = Some u →
     in_cs t = 1 → in_cs u = 0) ∧
  (_canUpdate (shared s) = false ↔
     ∃ i t, calls s !! i = Some t ∧ in_cs t = 1).
Proof.
  intros s.
  assert (0 < 2 < 2 ^ 63) as Hn by lia.
  assert (reachable 2 0 s) as Hr by exact reachable_push_and_pop.
  split; [by split|]. exact (mutual_exclusion 2 0 s Hn Hr).
Defined.

(** X2 with a [push] that has claimed slot 0 and not written it yet. *)
Lemma slot_ownership_witness :
  let s := System (Queue [0; 0] [true; false] 0 1 2 true)
                  [Thread PushWrite 5 0 1 false (-10) (Some 0) None] in
  (0 < 2 < 2 ^ 63 ∧ reachable 2 0 s ∧ 0 ≤ 0 < 2) ∧
  (at_ (_isBusy (shared s)) 0 = Some true ↔
     ∃ i t, calls s !! i = Some t ∧ holds (shared s) t = Some 0) ∧
  (∀ i j t u, i ≠ j → calls s !! i = Some t → calls s !! j = Some u →
     holds (shared s) t = Some 0 → holds (shared s) u ≠ Some 0).
Proof.
  intros s.
  assert (0 < 2 < 2 ^ 63) as Hn by lia.
  assert (reachable 2 0 s) as Hr by exact (QueueSpec.reachable_one_push 2 5 10).
  assert (0 ≤ 0 < 2) as Hk by lia.
  split; [by split_and!|]. exact (slot_ownership 2 0 s 0 Hn Hr Hk).
Defined.

(** X3 at the same state. *)
Lemma no_call_fails_witness :
  let s := System (Queue [0; 0] [true; false] 0 1 2 true)
                  [Thread PushWrite 5 0 1 false (-10) (Some 0) None] in
  (0 < 2 < 2 ^ 63 ∧ reachable 2 0 s) ∧
  Forall (λ t, pc t ≠ Threw ∧ pc t ≠ Undefined) (calls s).
Proof.
  intros s.
  assert (0 < 2 < 2 ^ 63) as Hn by lia.
  assert (reachable 2 0 s) as Hr by exact (QueueSpec.reachable_one_push 2 5 10).
  split; [by split|]. exact (no_call_fails 2 0 s Hn Hr).
Defined.

(** X4 on a fresh queue of four slots. *)
Lemma sequential_fifo_witness :
  (idle 4 (init 4 0) ∧ (13 ≤ 13)%nat) ∧
  let r := perform_all 4 0 13 (init 4 0)
             [Push 1; Push 2; Pop; Push 3; Pop; Pop; Pop] in
  let m := fifo_perform_all 4 0 (contents 4 (init 4 0))
             [Push 1; Push 2; Pop; Push 3; Pop; Pop; Pop] in
  r.2 = m.2 ∧ contents 4 r.1 = m.1 ∧ idle 4 r.1 ∧
  (hasData r.1 = true ↔ m.1 ≠ []).
Proof.
  assert (idle 4 (init 4 0)) as Hidle by (apply idle_init; lia).
  assert (13 ≤ 13)%nat as Hfuel by lia.
  split; [by split|].
  exact (sequential_fifo 4 0 (init 4 0)
           [Push 1; Push 2; Pop; Push 3; Pop; Pop; Pop] 13 Hidle Hfuel).
Defined.


(** X6 on a queue whose exclusion flag is taken. *)
Lemma flag_taken_spins_witness :
  let q := Queue [0; 0] [false; false] 0 0 2 false in
  _canUpdate q = false ∧
  (let r := push 2 0 30 q 5 in
   finished r.2 = false ∧ in_cs r.2 = 0 ∧ pushIndex r.2 = None ∧
   sleepDurationStart ≤ sleepDuration r.2 ≤ _maxSleepDuration ∧
   _buffer r.1 = _buffer q ∧ _isBusy r.1 = _isBusy q ∧
   _head r.1 = _head q ∧ _tail r.1 = _tail q ∧ _canUpdate r.1 = false ∧
   ((0 < 30)%nat → _pendingData r.1 = wrap_ll (_pendingData q + 2))) ∧
  (let r := pop 2 0 30 q 9 in
   finished r.2 = false ∧ in_cs r.2 = 0 ∧ popIndex r.2 = None ∧
   popedData r.2 = 9 ∧
   sleepDurationStart ≤ sleepDuration r.2 ≤ _maxSleepDuration ∧
   r.1 = q).
Proof.
  intros q. assert (_canUpdate q = false) as Hc by reflexivity.
  split; [exact Hc|]. exact (flag_taken_spins 2 0 q 5 9 30 Hc).
Defined.

(** X7 at the write of a [push] that owns slot 0. *)
Lemma items_written_by_owner_witness :
  let q := Queue [0; 0] [true; false] 0 1 2 true in
  let t := Thread PushWrite 5 0 1 false (-10) (Some 0) None in
  (0 ≤ 0 ∧ at_ (_buffer (step 2 q t).1) 0 ≠ at_ (_buffer q) 0) ∧
  pc t = PushWrite ∧ pushIndex t = Some 0 ∧ holds q t = Some 0 ∧
  at_ (_buffer (step 2 q t).1) 0 = Some (bufferItem t).
Proof.
  intros q t.
  assert (0 ≤ 0) as Hk by lia.
  assert (at_ (_buffer (step 2 q t).1) 0 ≠ at_ (_buffer q) 0) as Hne
    by (vm_compute; discriminate).
  split; [by split|]. exact (items_written_by_owner 2 q t 0 Hk Hne).
Defined.
End BusyQueueCases.

(** ** src/LockFreeQueue.h *)
Section HasDataQueueCases.
Import HasDataQueue HasDataQueueProofs HasDataQueueFacts.

(** X8 on a fresh queue of four slots. *)
Lemma sequential_fifo_hasData_witness :
  (idle 4 (init 4 0) ∧ (16 ≤ 16)%nat ∧
   fifo_perform_all 4 0 (contents 4 (init 4 0))
     [Push 1; Push 2; Pop; Push 3; Pop; Pop; Pop] =
   Some ([], [Pushed true; Pushed true; Popped (Some true) 1; Pushed true;
              Popped (Some true) 2; Popped (Some true) 3;
              Popped (Some false) 0])) ∧
  let r := perform_all 4 0 16 (init 4 0)
             [Push 1; Push 2; Pop; Push 3; Pop; Pop; Pop] in
  r.2 = [Pushed true; Pushed true; Popped (Some true) 1; Pushed true;
         Popped (Some true) 2; Popped (Some true) 3; Popped (Some false) 0] ∧
  contents 4 r.1 = [] ∧ idle 4 r.1 ∧
  (hasData r.1 = true ↔ @nil Z ≠ []) ∧
  (hasWork r.1 = true ↔ @nil Z ≠ []).
Proof.
  assert (idle 4 (init 4 0)) as Hidle by (apply idle_fresh; lia).
  assert (16 ≤ 16)%nat as Hfuel by lia.
  assert (fifo_perform_all 4 0 (contents 4 (init 4 0))
            [Push 1; Push 2; Pop; Push 3; Pop; Pop; Pop] =
          Some ([], [Pushed true; Pushed true; Popped (Some true) 1;
                     Pushed true; Popped (Some true) 2; Popped (Some true) 3;
                     Popped (Some false) 0])) as Hm by reflexivity.
  split; [by split_and!|].
  exact (sequential_fifo_hasData 4 0 (init 4 0) _ 16 _ _ Hidle Hfuel Hm).
Defined.

(** X9 on a full queue of two slots. *)
Lemma push_blocks_when_full_witness :
  let q := Queue [5; 0] [true; false] 0 1 1 1 true in
  (0 < 2 ∧ _canUpdate q = true ∧ full 2 q) ∧
  let r := push 2 0 50 q 6 in
  finished r.2 = false ∧ returned r.2 = false ∧
  0 ≤ sleepDuration r.2 ≤ _maxSleepDuration ∧
  _buffer r.1 = _buffer q ∧ _hasData r.1 = _hasData q ∧
  _head r.1 = _head q ∧ _tail r.1 = _tail q ∧
  _pendingData r.1 = _pendingData q ∧
  ((0 < 50)%nat → _pendingActions r.1 = fetch_add (_pendingActions q) 2).
Proof.
  intros q.
  assert (0 < 2) as Hn by lia.
  assert (_canUpdate q = true) as Hc by reflexivity.
  assert (full 2 q) as Hfull by reflexivity.
  split; [by split_and!|]. exact (push_blocks_when_full 2 0 q 6 50 Hn Hc Hfull).
Defined.

(** X10 on a queue whose slot 0 is claimed by a producer that has not
    committed yet. *)
Lemma pop_waits_for_commit_witness :
  let q := Queue [5; 0] [false; false] 0 1 2 0 true in
  (_canUpdate q = true ∧ ¬ empty q ∧
   at_ (_hasData q) (_head q) = Some false) ∧
  let r := pop 2 0 40 q 9 in
  finished r.2 = false ∧ popIndex r.2 = None ∧ popedData r.2 = 9 ∧
  0 ≤ sleepDuration r.2 ≤ _maxSleepDuration ∧
  set_canUpdate true r.1 = q.
Proof.
  intros q.
  assert (_canUpdate q = true) as Hc by reflexivity.
  assert (¬ empty q) as Hne by (vm_compute; discriminate).
  assert (at_ (_hasData q) (_head q) = Some false) as Hno by reflexivity.
  split; [by split_and!|]. exact (pop_waits_for_commit 2 0 q 9 40 Hc Hne Hno).
Defined.

(** X11 on a queue whose [_pendingData] is 0 while slot 0 is committed. *)
Lemma pop_assertions_witness :
  let q := Queue [5; 0] [true; false] 0 1 1 0 true in
  (wf 2 q ∧ _canUpdate q = true ∧ ¬ empty q ∧
   at_ (_hasData q) (_head q) = Some true ∧
   at_ (_buffer q) (_head q) = Some 5 ∧ _pendingData q ≤ 0) ∧
  let r := pop 2 0 16 q 9 in
  popedData r.2 = 5 ∧ _head r.1 = 1 ∧
  _hasData r.1 = [false; false] ∧ _canUpdate r.1 = true ∧
  pc r.2 = AssertFailed ∧ result r.2 = None ∧
  _pendingData r.1 = 0 ∧ _pendingActions r.1 = 1.
Proof.
  intros q.
  assert (wf 2 q) as Hwf by (split; cbn; (lia || reflexivity)).
  assert (_canUpdate q = true) as Hc by reflexivity.
  assert (¬ empty q) as Hne by (vm_compute; discriminate).
  assert (at_ (_hasData q) (_head q) = Some true) as Hdata by reflexivity.
  assert (at_ (_buffer q) (_head q) = Some 5) as Hv by reflexivity.
  assert (_pendingData q ≤ 0) as Hp by (cbn; lia).
  split; [by split_and!|].
  destruct (pop_assertions 2 0 q 9 5 0 Hwf Hc Hne Hdata Hv)
    as (H1 & H2 & H3 & H4 & Hfail & _).
  destruct (Hfail Hp) as (H5 & H6 & H7 & H8).
  by split_and!.
Defined.
End HasDataQueueCases.

(** ** Second revision of src/include/LockFreeQueue.h *)
Section HasDataQueueConcurrentCases.
Import HasDataQueue HasDataQueueProofs HasDataQueueFacts
  HasDataQueueConcurrent.

(** One thread called [push(v)] on a fresh queue of [n] slots and took [k]
    steps. *)
Lemma reachable_one_push_hasData (n : Z) (v : Z) (k : nat) :
  reachable n 0
    (System (steps (step n) k (init n 0) (call_push 0 v)).1
            [(steps (step n) k (init n 0) (call_push 0 v)).2]).
Proof.
  apply (reachable_steps_hasData n 0 (System (init n 0) [call_push 0 v])
           0%nat (call_push 0 v) k); [|done].
  apply (reachable_step n 0 (System (init n 0) [])); [constructor|].
  apply (sys_call_push n 0 (System (init n 0) []) v).
Qed.


(** X21 with a [push] inside its critical section and a [pop] that has just
    been called. *)
Lemma mutual_exclusion_hasData_witness :
  let s := System (Queue [0; 0] [false; false] 0 0 2 0 false)
                  [Thread PushCheckFull 5 0 1 true 0 0 None;
                   call_pop 0 9] in
  (0 < 2 < 2 ^ 63 ∧ reachable 2 0 s ∧
   2 + 2 * Z.of_nat (length (calls s)) < 2 ^ 64) ∧
  (∀ i j t u, i ≠ j → calls s !! i = Some t → calls s !! j = Some u →
     in_cs t = 1 → in_cs u = 0) ∧
  (_canUpdate (shared s) = false ↔
     ∃ i t, calls s !! i = Some t ∧ in_cs t = 1).
Proof.
  intros s.
  assert (0 < 2 < 2 ^ 63) as Hn by lia.
  assert (reachable 2 0 s) as Hr.
  { apply (reachable_step 2 0
             (System (Queue [0; 0] [false; false] 0 0 2 0 false)
                     [Thread PushCheckFull 5 0 1 true 0 0 None])).
    - exact (reachable_one_push_hasData 2 5 3).
    - apply (sys_call_pop 2 0
               (System (Queue [0; 0] [false; false] 0 0 2 0 false)
                       [Thread PushCheckFull 5 0 1 true 0 0 None]) 9). }
  assert (2 + 2 * Z.of_nat (length (calls s)) < 2 ^ 64) as Hsmall
    by (cbn; lia).
  split; [by split_and!|].
  exact (mutual_exclusion_hasData 2 0 s Hn Hr Hsmall).
Defined.





End HasDataQueueConcurrentCases.


Section ActionsQueueCases.
Import ActionsQueue ActionsQueueProofs ActionsQueueFacts.

(** X12 on a fresh queue of four slots. *)
Lemma sequential_fifo_actions_witness :
  (idle 4 (init 4 0) ∧ (14 ≤ 14)%nat) ∧
  let r := perform_all 4 0 14 (init 4 0)
             [BusyQueue.Push 1; BusyQueue.Push 2; BusyQueue.Pop;
              BusyQueue.Push 3; BusyQueue.Push 4; BusyQueue.Push 5] in
  let m := BusyQueue.fifo_perform_all 4 0 (contents 4 (init 4 0))
             [BusyQueue.Push 1; BusyQueue.Push 2; BusyQueue.Pop;
              BusyQueue.Push 3; BusyQueue.Push 4; BusyQueue.Push 5] in
  r.2 = m.2 ∧ contents 4 r.1 = m.1 ∧ idle 4 r.1 ∧
  (hasData r.1 = true ↔ m.1 ≠ []) ∧
  (hasWork r.1 = true ↔ m.1 ≠ []).
Proof.
  assert (idle 4 (init 4 0)) as Hidle by (apply idle_fresh_actions; lia).
  assert (14 ≤ 14)%nat as Hfuel by lia.
  split; [by split|].
  exact (sequential_fifo_actions 4 0 (init 4 0) _ 14 Hidle Hfuel).
Defined.

(** X13 with four slots. *)
Lemma revisions_agree_witness :
  (0 < 4 < 2 ^ 63 ∧ (14 ≤ 14)%nat) ∧
  let os := [BusyQueue.Push 1; BusyQueue.Push 2; BusyQueue.Push 3;
             BusyQueue.Push 4; BusyQueue.Pop; BusyQueue.Pop] in
  let a := BusyQueue.perform_all 4 0 14 (BusyQueue.init 4 0) os in
  let b := perform_all 4 0 14 (init 4 0) os in
  a.2 = b.2 ∧
  BusyQueue.contents 4 a.1 = contents 4 b.1 ∧
  BusyQueue.hasData a.1 = hasData b.1.
Proof.
  assert (0 < 4 < 2 ^ 63) as Hn by lia.
  assert (14 ≤ 14)%nat as Hfuel by lia.
  split; [by split|]. exact (revisions_agree 4 0 _ 14 Hn Hfuel).
Defined.

(** X14 on a queue whose exclusion flag is taken. *)
Lemma spins_on_taken_flag_witness :
  let q := Queue [0; 0] [false; false] 0 0 0 0 false in
  (_canUpdate q = false ∧ (2 ≤ 20)%nat) ∧
  (let r := push 2 0 20 q 5 in
   pc r.2 = PushAcquire ∧ sleepDuration r.2 = 0 ∧
   r.1 = set_pendingData (wrap_ll (_pendingData q + 1))
           (set_pendingActions (wrap_ll (_pendingActions q + 2)) q)) ∧
  (let r := pop 2 0 20 q 9 in
   pc r.2 = PopAcquire ∧ sleepDuration r.2 = 0 ∧ popedData r.2 = 9 ∧
   r.1 = q).
Proof.
  intros q.
  assert (_canUpdate q = false) as Hc by reflexivity.
  assert (2 ≤ 20)%nat as Hfuel by lia.
  split; [by split|]. exact (spins_on_taken_flag 2 0 q 5 9 20 Hc Hfuel).
Defined.
End ActionsQueueCases.

(** ** The test drivers *)
Section ActionsQueueConcurrentCases.
Import ActionsQueue ActionsQueueProofs ActionsQueueFacts
  ActionsQueueConcurrent.

(** One thread called [push(v)] on a fresh queue of [n] slots and took [k]
    steps. *)
Lemma reachable_one_push_actions (n : Z) (v : Z) (k : nat) :
  reachable n 0
    (System (steps (step n) k (init n 0) (call_push 0 v)).1
            [(steps (step n) k (init n 0) (call_push 0 v)).2]).
Proof.
  apply (reachable_steps_actions n 0 (System (init n 0) [call_push 0 v])
           0%nat (call_push 0 v) k); [|done].
  apply (reachable_step n 0 (System (init n 0) [])); [constructor|].
  apply (sys_call_push n 0 (System (init n 0) []) v).
Qed.

(** A [push] inside its critical section and a [pop] that has just been
    called. *)
Lemma reachable_push_and_pop_actions :
  reachable 2 0
    (System (Queue [0; 0] [false; false] 0 0 2 1 false)
            [Thread PushCheckFull 5 0 1 true 0 None None;
             call_pop 0 9]).
Proof.
  apply (reachable_step 2 0
           (System (Queue [0; 0] [false; false] 0 0 2 1 false)
                   [Thread PushCheckFull 5 0 1 true 0 None None])).
  - exact (reachable_one_push_actions 2 5 4).
  - apply (sys_call_pop 2 0
             (System (Queue [0; 0] [false; false] 0 0 2 1 false)
                     [Thread PushCheckFull 5 0 1 true 0 None None]) 9).
Qed.

(** X27 with a [push] inside its critical section and a [pop] that has just
    been called. *)
Lemma second_revision_simulated_witness :
  let s := System (Queue [0; 0] [false; false] 0 0 2 1 false)
                  [Thread PushCheckFull 5 0 1 true 0 None None;
                   call_pop 0 9] in
  reachable 2 0 s ∧
  ∃ s1, BusyQueue.reachable 2 0 s1 ∧
        BusyQueue.shared s1 = first_queue (shared s) ∧
        Forall2 same_call (calls s) (BusyQueue.calls s1).
Proof.
  intros s.
  assert (reachable 2 0 s) as Hr by exact reachable_push_and_pop_actions.
  split; [done|]. exact (second_revision_simulated 2 0 s Hr).
Defined.

(** X28 at the same state. *)
Lemma mutual_exclusion_actions_witness :
  let s := System (Queue [0; 0] [false; false] 0 0 2 1 false)
                  [Thread PushCheckFull 5 0 1 true 0 None None;
                   call_pop 0 9] in
  (0 < 2 < 2 ^ 63 ∧ reachable 2 0 s) ∧
  (∀ i j t u, i ≠ j → calls s !! i = Some t → calls s !! j = Some u →
     in_cs t = 1 → in_cs u = 0) ∧
  (_canUpdate (shared s) = false ↔
     ∃ i t, calls s !! i = Some t ∧ in_cs t = 1).
Proof.
  intros s.
  assert (0 < 2 < 2 ^ 63) as Hn by lia.
  assert (reachable 2 0 s) as Hr by exact reachable_push_and_pop_actions.
  split; [by split|]. exact (mutual_exclusion_actions 2 0 s Hn Hr).
Defined.

(** X29 at the same state. *)
Lemma no_call_fails_actions_witness :
  let s := System (Queue [0; 0] [false; false] 0 0 2 1 false)
                  [Thread PushCheckFull 5 0 1 true 0 None None;
                   call_pop 0 9] in
  (0 < 2 < 2 ^ 63 ∧ reachable 2 0 s) ∧
  wf 2 (shared s) ∧
  Forall (λ t, pc t ≠ Threw ∧ pc t ≠ Undefined) (calls s).
Proof.
  intros s.
  assert (0 < 2 < 2 ^ 63) as Hn by lia.
  assert (reachable 2 0 s) as Hr by exact reachable_push_and_pop_actions.
  split; [by split|]. exact (no_call_fails_actions 2 0 s Hn Hr).
Defined.

(** X30 after a [push] that returned. *)
Lemma quiescent_idle_actions_witness :
  let s := System (Queue [5; 0] [false; false] 0 1 1 1 true)
                  [Thread (Returned true) 5 0 1 false 0 (Some 0) None] in
  (0 < 2 < 2 ^ 63 ∧ reachable 2 0 s ∧ quiescent s) ∧
  idle 2 (shared s) ∧
  (hasData (shared s) = false ↔ empty (shared s)) ∧
  (hasWork (shared s) = false ↔ empty (shared s)).
Proof.
  intros s.
  assert (0 < 2 < 2 ^ 63) as Hn by lia.
  assert (reachable 2 0 s) as Hr
    by exact (reachable_one_push_actions 2 5 14).
  assert (quiescent s) as Hq by (by repeat constructor).
  split; [by split_and!|].
  exact (quiescent_idle_actions 2 0 s Hn Hr Hq).
Defined.
End ActionsQueueConcurrentCases.


Section DriversCases.
Import Drivers DriversFacts.

(** X17 on a queue of src/LockFreeQueue.h that holds two items. *)
Lemma consumer_run_empties_witness :
  let q := (HasDataQueue.perform_all 4 0 16 (HasDataQueue.init 4 0)
              [HasDataQueue.Push 7; HasDataQueue.Push 8]).1 in
  (HasDataQueue.idle 4 q ∧ (16 ≤ 16)%nat ∧
   (length (HasDataQueue.contents 4 q) < 3)%nat) ∧
  let r := consumer_run 4 0 3 16 q in
  drained_done r = true ∧
  drained_items r = [7; 8] ∧
  HasDataQueue.hasWork (drained_queue r) = false ∧
  HasDataQueue.hasData (drained_queue r) = false.
Proof.
  intros q.
  assert (HasDataQueue.idle 4 q ∧ HasDataQueue.contents 4 q = [7; 8])
    as [Hidle Hc].
  { destruct (HasDataQueueFacts.perform_all_idle_hasData 4 0
                (HasDataQueue.init 4 0)
                [HasDataQueue.Push 7; HasDataQueue.Push 8] 16 [7; 8]
                [HasDataQueue.Pushed true; HasDataQueue.Pushed true])
      as (? & ? & _); [apply HasDataQueueFacts.idle_fresh; lia|lia|done|].
    by split. }
  assert (16 ≤ 16)%nat as Hfuel by lia.
  assert (length (HasDataQueue.contents 4 q) < 3)%nat as Hrounds
    by (rewrite Hc; cbn; lia).
  split; [by split_and!|].
  destruct (consumer_run_empties 4 0 q 3 16 Hidle Hfuel Hrounds)
    as (H1 & H2 & _ & _ & H5 & H6).
  rewrite Hc in H2. by split_and!.
Defined.

(** X18 on a fresh queue of the second revision, which has room. *)
Lemma producer_push_loop_witness :
  let q := ActionsQueue.init 4 0 in
  (ActionsQueue.idle 4 q ∧ (14 ≤ 14)%nat ∧
   ActionsQueue.occupancy 4 q ≠ 4 - 1 ∧ (0 < 3)%nat) ∧
  let r := producer_push 4 0 3 14 q 7 5 in
  r.2 = true ∧ r.1.2 = 0 ∧
  ActionsQueue.idle 4 r.1.1 ∧
  ActionsQueue.contents 4 r.1.1 = ActionsQueue.contents 4 q ++ [7].
Proof.
  intros q.
  assert (ActionsQueue.idle 4 q) as Hidle
    by (apply ActionsQueueFacts.idle_fresh_actions; lia).
  assert (14 ≤ 14)%nat as Hfuel by lia.
  assert (ActionsQueue.occupancy 4 q ≠ 4 - 1) as Hocc
    by (vm_compute; discriminate).
  assert (0 < 3)%nat as Hrounds by lia.
  split; [by split_and!|].
  destruct (producer_push_loop 4 0 q 7 5 3 14 Hidle Hfuel) as [Hroom _].
  exact (Hroom Hocc Hrounds).
Defined.

(** X19 on a queue of the second revision that holds two items. *)
Lemma consumer_drain_empties_witness :
  let q := (ActionsQueue.perform_all 4 0 14 (ActionsQueue.init 4 0)
              [BusyQueue.Push 7; BusyQueue.Push 8]).1 in
  (ActionsQueue.idle 4 q ∧ (14 ≤ 14)%nat ∧
   (length (ActionsQueue.contents 4 q) < 3)%nat) ∧
  let r := consumer_drain 4 0 3 14 q in
  drained_done r = true ∧
  drained_items r = [7; 8] ∧
  ActionsQueue.hasWork (drained_queue r) = false ∧
  ActionsQueue.hasData (drained_queue r) = false.
Proof.
  intros q.
  assert (ActionsQueue.idle 4 q ∧ ActionsQueue.contents 4 q = [7; 8])
    as [Hidle Hc].
  { destruct (ActionsQueueFacts.perform_all_idle_actions 4 0
                (ActionsQueue.init 4 0)
                [BusyQueue.Push 7; BusyQueue.Push 8] 14)
      as (Hi & Hc & _);
      [apply ActionsQueueFacts.idle_fresh_actions; lia|lia|].
    split; [exact Hi|]. unfold q.
    rewrite Hc, ActionsQueueFacts.contents_fresh_actions by lia. done. }
  assert (14 ≤ 14)%nat as Hfuel by lia.
  assert (length (ActionsQueue.contents 4 q) < 3)%nat as Hrounds
    by (rewrite Hc; cbn; lia).
  split; [by split_and!|].
  destruct (consumer_drain_empties 4 0 q 3 14 Hidle Hfuel Hrounds)
    as (H1 & H2 & _ & _ & H5 & H6).
  rewrite Hc in H2. by split_and!.
Defined.

(** X20 on a queue of the first revision that holds two items. *)
Lemma consumer_clear_empties_witness :
  let q := (BusyQueue.perform_all 4 0 13 (BusyQueue.init 4 0)
              [BusyQueue.Push 7; BusyQueue.Push 8]).1 in
  (BusyQueue.idle 4 q ∧ (13 ≤ 13)%nat ∧
   (length (BusyQueue.contents 4 q) < 3)%nat ∧ 0 ≤ 10 ∧
   10 + Z.of_nat (length (BusyQueue.contents 4 q)) < 2 ^ 64) ∧
  let r := consumer_clear 4 0 3 13 q 4 10 in
  drained_done r.1.1 = true ∧
  drained_items r.1.1 = [7; 8] ∧
  r.1.2 = 0 ∧ r.2 = 12 ∧
  BusyQueue.hasData (drained_queue r.1.1) = false.
Proof.
  intros q.
  assert (BusyQueue.idle 4 q ∧ BusyQueue.contents 4 q = [7; 8])
    as [Hidle Hc].
  { destruct (BusyQueueProofs.perform_all_idle 4 0 (BusyQueue.init 4 0)
                [BusyQueue.Push 7; BusyQueue.Push 8] 13)
      as (Hi & Hc & _); [apply BusyQueueProofs.idle_init; lia|lia|].
    split; [exact Hi|]. unfold q.
    rewrite Hc, BusyQueueProofs.contents_init by lia. done. }
  assert (13 ≤ 13)%nat as Hfuel by lia.
  assert (length (BusyQueue.contents 4 q) < 3)%nat as Hrounds
    by (rewrite Hc; cbn; lia).
  assert (0 ≤ 10) as Hc0 by lia.
  assert (10 + Z.of_nat (length (BusyQueue.contents 4 q)) < 2 ^ 64) as Hc1
    by (rewrite Hc; cbn; lia).
  split; [by split_and!|].
  destruct (consumer_clear_empties 4 0 q 4 10 3 13 Hidle Hfuel Hrounds
              Hc0 Hc1) as (H1 & H2 & H3 & H4 & _ & _ & H7).
  rewrite Hc in H2, H3, H4. by split_and!.
Defined.
End DriversCases.

End FactsAtQueues.
